(** * A shallow embedding of the alloc family of allocators

    The repository provides four single-header C allocators working over a
    caller-supplied byte region: [arena.h] (bump arena), [stack.h] (LIFO
    stack with an in-band header word), [pool.h] (fixed-size slots on an
    intrusive free list) and [slab.h] (several pools in one region).

    Build configuration embedded here: the default one.  None of
    [ARENA_DEBUG], [ARENA_BLOCK_CHAINING], [STACK_DEBUG], [POOL_DEBUG],
    [POOL_ZERO_ON_ALLOC], [POOL_ZERO_ON_FREE], [SLAB_DEBUG] is defined;
    the [*_ASSERT] hooks are the standard [assert] and abort the call;
    [POOL_ALIGN] is [sizeof(void* )] and [SLAB_ALIGNMENT] is [8].

    Platform embedded here: LP64.  [size_t] and [uintptr_t] are 64 bits
    wide, [sizeof(void* )] = [sizeof(size_t)] = 8, [sizeof(max_align_t)]
    = 32, pointers are flat addresses and words are stored little-endian.

    Data: a [size_t] is a [Z] in [0, 2^64) with the wrap-around of every
    operation written out; a pointer is its address, [NULL] is [0]; the
    byte store is a finite map from addresses to byte values. *)

From Stdlib Require Import ZArith Lia List Bool Sorted.
From stdpp Require Import base tactics option list gmap.

Local Open Scope Z_scope.

(** ** Machine arithmetic *)

Module Mach.

Definition SIZE_BITS : Z := 64.
Definition SIZE_MOD : Z := 2 ^ SIZE_BITS.
Definition SIZE_MAX : Z := SIZE_MOD - 1.

(** [sizeof(void* )], [sizeof(size_t)], [sizeof(uintptr_t)]. *)
Definition WORD : Z := 8.

Definition NULL : Z := 0.

(** Membership in the type [size_t]. *)
Definition in_size_t (x : Z) : Prop := 0 <= x < SIZE_MOD.

Definition wrap (x : Z) : Z := x mod SIZE_MOD.

Definition size_add (a b : Z) : Z := wrap (a + b).
Definition size_sub (a b : Z) : Z := wrap (a - b).
Definition size_mul (a b : Z) : Z := wrap (a * b).
Definition size_and (a b : Z) : Z := Z.land a b.
(** [~a] on a 64-bit unsigned operand. *)
Definition size_not (a : Z) : Z := wrap (Z.lnot a).

(** Pointer plus byte count in a flat address space. *)
Definition ptr_add (p n : Z) : Z := wrap (p + n).
(** [(size_t)(p - q)] for two byte pointers. *)
Definition ptr_diff (p q : Z) : Z := wrap (p - q).

(** [(value + align - 1) & ~(align - 1)], the expression shared by
    [arena__align_up], [pool__align_up], [pool__align_ptr], [SLAB_ALIGN_UP]
    and the address rounding of [stack_alloc_aligned]. *)
Definition align_up (value align : Z) : Z :=
  size_and (size_sub (size_add value align) 1) (size_not (size_sub align 1)).

(** [x != 0 && (x & (x - 1)) == 0]. *)
Definition is_power_of_two (x : Z) : bool :=
  negb (x =? 0) && (size_and x (size_sub x 1) =? 0).

End Mach.

Import Mach.

(** ** Outcome of a call *)

(** A call either returns, or it does not: a failed [assert] aborts the
    program and a division by zero traps. *)
Inductive outcome (A : Type) : Type :=
| Done (a : A)
| Abort.

Arguments Done {A} a.
Arguments Abort {A}.

Definition obind {A B : Type} (o : outcome A) (k : A -> outcome B) : outcome B :=
  match o with
  | Done a => k a
  | Abort => Abort
  end.

(** [assert(c)] followed by the rest of the function body. *)
Definition c_assert {B : Type} (c : bool) (k : outcome B) : outcome B :=
  if c then k else Abort.

Notation "'ASSERT' c ;; k" := (c_assert c k)
  (at level 10, c at level 99, k at level 200).
Notation "'LET' x <- o ;; k" := (obind o (fun x => k))
  (at level 10, x name, o at level 99, k at level 200).

(** ** The byte store *)

Module Memory.

(** Address to byte value; an address never written reads as [0]. *)
Abbreviation mem := (gmap Z Z).

Definition load8 (m : mem) (a : Z) : Z := default 0 (m !! a).
Definition store8 (m : mem) (a : Z) (b : Z) : mem := <[a := b mod 256]> m.

(** Little-endian split of a value into [n] bytes and back. *)
Fixpoint le_bytes (n : nat) (v : Z) : list Z :=
  match n with
  | O => []
  | S n' => v mod 256 :: le_bytes n' (v / 256)
  end.

Fixpoint le_value (bs : list Z) : Z :=
  match bs with
  | [] => 0
  | b :: bs' => b + 256 * le_value bs'
  end.

Fixpoint store_bytes (m : mem) (a : Z) (bs : list Z) : mem :=
  match bs with
  | [] => m
  | b :: bs' => store_bytes (store8 m a b) (a + 1) bs'
  end.

Fixpoint load_bytes (m : mem) (a : Z) (n : nat) : list Z :=
  match n with
  | O => []
  | S n' => load8 m a :: load_bytes m (a + 1) n'
  end.

(** A [size_t] or pointer object at address [a]. *)
Definition store_word (m : mem) (a v : Z) : mem := store_bytes m a (le_bytes 8 v).
Definition load_word (m : mem) (a : Z) : Z := le_value (load_bytes m a 8).

(** [memset(a, b, n)]. *)
Definition memset (m : mem) (a b n : Z) : mem := store_bytes m a (repeat b (Z.to_nat n)).

End Memory.

Import Memory.

(** ** arena.h *)

Module Arena.

(** [ARENA_DEFAULT_ALIGN], that is [sizeof(max_align_t)]. *)
Definition ARENA_DEFAULT_ALIGN : Z := 32.

(** [struct arena_t] without the chaining and debug members. *)
Record arena_t : Type := mk_arena {
  buffer : Z;
  capacity : Z;
  offset : Z;
  initialized : bool
}.

(** [struct arena_marker_t]. *)
Record arena_marker_t : Type := mk_marker { marker_offset : Z }.

(** [struct arena_stats_t]; the debug counters stay [0] in this build. *)
Record arena_stats_t : Type := mk_arena_stats {
  stats_capacity : Z;
  stats_used : Z;
  stats_remaining : Z;
  stats_alloc_count : Z;
  stats_total_requested : Z;
  stats_peak_usage : Z;
  stats_wasted_alignment : Z
}.

Definition arena__is_power_of_two (x : Z) : bool := is_power_of_two x.
Definition arena__align_up (value align : Z) : Z := align_up value align.

Definition arena__safe_add (a b : Z) : Z :=
  if a >? SIZE_MAX - b then SIZE_MAX else a + b.

(** Returns [Some (aligned_offset, padding)] for [true] with both out
    parameters written, [None] for [false]. *)
Definition arena__calc_aligned_offset
  (current_offset align size capacity : Z) : option (Z * Z) :=
  let aligned := arena__align_up current_offset align in
  if aligned <? current_offset then None
  else
    let padding := size_sub aligned current_offset in
    if aligned >? capacity then None
    else if size >? size_sub capacity aligned then None
    else Some (aligned, padding).

(** [arena_init] on a non-null descriptor; [None] is the [false] return. *)
Definition arena_init (buf size : Z) : option arena_t :=
  if (buf =? NULL) && (size >? 0) then None
  else Some (mk_arena buf size 0 true).

(** [arena__alloc]: returned pointer and descriptor afterwards. *)
Definition arena__alloc (arena : arena_t) (size align : Z) : outcome (Z * arena_t) :=
  ASSERT initialized arena ;;
  ASSERT arena__is_power_of_two align ;;
  if negb (initialized arena) then Done (NULL, arena)
  else if negb (arena__is_power_of_two align) then Done (NULL, arena)
  else if size =? 0 then Done (ptr_add (buffer arena) (offset arena), arena)
  else
    match arena__calc_aligned_offset (offset arena) align size (capacity arena) with
    | None => Done (NULL, arena)
    | Some (aligned_offset, padding) =>
        let ptr := ptr_add (buffer arena) aligned_offset in
        Done (ptr, mk_arena (buffer arena) (capacity arena)
                            (size_add aligned_offset size) (initialized arena))
    end.

Definition arena_alloc (arena : arena_t) (size : Z) : outcome (Z * arena_t) :=
  arena__alloc arena size ARENA_DEFAULT_ALIGN.

Definition arena_alloc_aligned (arena : arena_t) (size align : Z) : outcome (Z * arena_t) :=
  arena__alloc arena size align.

Definition arena_reset (arena : arena_t) : arena_t :=
  if negb (initialized arena) then arena
  else mk_arena (buffer arena) (capacity arena) 0 (initialized arena).

Definition arena_save (arena : arena_t) : arena_marker_t :=
  if negb (initialized arena) then mk_marker 0
  else mk_marker (offset arena).

Definition arena_reset_to (arena : arena_t) (marker : arena_marker_t) : arena_t :=
  if negb (initialized arena) then arena
  else mk_arena (buffer arena) (capacity arena) (marker_offset marker) (initialized arena).

Definition arena_remaining (arena : arena_t) : Z :=
  if negb (initialized arena) then 0
  else if offset arena >? capacity arena then 0
  else size_sub (capacity arena) (offset arena).

Definition arena_capacity (arena : arena_t) : Z :=
  if negb (initialized arena) then 0 else capacity arena.

Definition arena_used (arena : arena_t) : Z :=
  if negb (initialized arena) then 0 else offset arena.

Definition arena_stats (arena : arena_t) : arena_stats_t :=
  if negb (initialized arena) then mk_arena_stats 0 0 0 0 0 0 0
  else mk_arena_stats (capacity arena) (offset arena) (arena_remaining arena) 0 0 0 0.

(** A run of [arena__alloc] calls, one per [(size, align)] request; the
    result lists, per call, the returned pointer and the requested size.
    An aborted call ends the run. *)
Fixpoint arena_allocs (arena : arena_t) (reqs : list (Z * Z)) : list (Z * Z) * arena_t :=
  match reqs with
  | [] => ([], arena)
  | (size, align) :: reqs' =>
      match arena__alloc arena size align with
      | Done (p, arena') =>
          let '(res, fin) := arena_allocs arena' reqs' in ((p, size) :: res, fin)
      | Abort => ([], arena)
      end
  end.

(** [arena__alloc_zero]; [m] is the store the block lies in. *)
Definition arena__alloc_zero (arena : arena_t) (m : mem) (size align : Z)
  : outcome (Z * arena_t * mem) :=
  LET r <- arena__alloc arena size align ;;
  let '(ptr, arena') := r in
  if negb (ptr =? NULL) && (size >? 0) then Done (ptr, arena', memset m ptr 0 size)
  else Done (ptr, arena', m).

Definition arena_alloc_zero (arena : arena_t) (m : mem) (size : Z)
  : outcome (Z * arena_t * mem) :=
  arena__alloc_zero arena m size ARENA_DEFAULT_ALIGN.

Definition arena_alloc_zero_aligned (arena : arena_t) (m : mem) (size align : Z)
  : outcome (Z * arena_t * mem) :=
  arena__alloc_zero arena m size align.

(** A descriptor after [memset(arena, 0, sizeof( *arena))]. *)
Definition arena_zero : arena_t := mk_arena NULL 0 0 false.

Definition arena_destroy (arena : arena_t) : arena_t :=
  if negb (initialized arena) then arena else arena_zero.

Definition arena_is_valid (arena : arena_t) : bool :=
  if negb (initialized arena) then false
  else if offset arena >? capacity arena then false
  else true.

(** [struct arena_temp_t]; [temp_arena] tells whether the [arena] member
    is non-null, the arena it points to is passed beside the scope. *)
Record arena_temp_t : Type := mk_temp {
  temp_arena : bool;
  temp_marker : arena_marker_t
}.

Definition arena_temp_begin (arena : arena_t) : arena_temp_t :=
  if initialized arena then mk_temp true (arena_save arena)
  else mk_temp false (mk_marker 0).

Definition arena_temp_end (temp : arena_temp_t) (arena : arena_t) : arena_temp_t * arena_t :=
  if temp_arena temp
  then (mk_temp false (temp_marker temp), arena_reset_to arena (temp_marker temp))
  else (temp, arena).

End Arena.

(** ** stack.h *)

Module Stack.

Definition STACK_MIN_ALIGNMENT : Z := WORD.
Definition STACK_HEADER_SIZE : Z := WORD.

(** [struct stack_t] without the debug members. *)
Record stack_t : Type := mk_stack {
  buffer : Z;
  capacity : Z;
  offset : Z
}.


Record stack_stats_t : Type := mk_stack_stats {
  stats_capacity : Z;
  stats_used : Z;
  stats_remaining : Z
}.

(** [n && !(n & (n - 1))]. *)
Definition stack__is_power_of_two (n : Z) : bool := is_power_of_two n.

Definition stack__get_header (ptr : Z) : Z := wrap (ptr - STACK_HEADER_SIZE).

(** [stack_init] on a non-null descriptor; [None] is the [-1] return. *)
Definition stack_init (buf size : Z) : option stack_t :=
  if (buf =? NULL) || (size =? 0) then None
  else Some (mk_stack buf size 0).

Definition stack_alloc_aligned (stack : stack_t) (m : mem) (size alignment : Z)
  : outcome (Z * stack_t * mem) :=
  ASSERT negb (buffer stack =? NULL) ;;
  if size =? 0 then Done (NULL, stack, m)
  else
    let alignment := if alignment <? STACK_MIN_ALIGNMENT then STACK_MIN_ALIGNMENT else alignment in
    ASSERT stack__is_power_of_two alignment ;;
    let prev_offset := offset stack in
    let user_addr_unaligned := ptr_add (ptr_add (buffer stack) prev_offset) STACK_HEADER_SIZE in
    let user_addr_aligned :=
      size_and (size_sub (size_add user_addr_unaligned alignment) 1)
               (size_not (size_sub alignment 1)) in
    let user_offset := size_sub user_addr_aligned (buffer stack) in
    let end_offset := size_add user_offset size in
    if (end_offset <? user_offset) || (end_offset >? capacity stack) then Done (NULL, stack, m)
    else
      let user_ptr := ptr_add (buffer stack) user_offset in
      let m' := store_word m (stack__get_header user_ptr) prev_offset in
      Done (user_ptr, mk_stack (buffer stack) (capacity stack) end_offset, m').

Definition stack_alloc (stack : stack_t) (m : mem) (size : Z) : outcome (Z * stack_t * mem) :=
  stack_alloc_aligned stack m size STACK_MIN_ALIGNMENT.

Definition stack_free (stack : stack_t) (m : mem) (ptr : Z) : outcome stack_t :=
  if ptr =? NULL then Done stack
  else
    ASSERT (ptr >=? buffer stack) && (ptr <? ptr_add (buffer stack) (capacity stack)) ;;
    let prev_offset := load_word m (stack__get_header ptr) in
    ASSERT prev_offset <=? offset stack ;;
    Done (mk_stack (buffer stack) (capacity stack) prev_offset).



Definition stack_reset (stack : stack_t) : stack_t :=
  mk_stack (buffer stack) (capacity stack) 0.

Definition stack_remaining (stack : stack_t) : Z :=
  if offset stack >=? capacity stack then 0
  else size_sub (capacity stack) (offset stack).

Definition stack_stats (stack : stack_t) : stack_stats_t :=
  mk_stack_stats (capacity stack) (offset stack) (size_sub (capacity stack) (offset stack)).

Definition stack_owns (stack : stack_t) (ptr : Z) : bool :=
  if ptr =? NULL then false
  else (ptr >=? buffer stack) && (ptr <? ptr_add (buffer stack) (capacity stack)).

(** A run of [stack_alloc_aligned] calls, one per [(size, alignment)]
    request, with the returned pointer and requested size of each. *)
Fixpoint stack_allocs (stack : stack_t) (m : mem) (reqs : list (Z * Z))
  : outcome (list (Z * Z) * stack_t * mem) :=
  match reqs with
  | [] => Done ([], stack, m)
  | (size, alignment) :: reqs' =>
      LET r <- stack_alloc_aligned stack m size alignment ;;
      let '(p, stack', m') := r in
      LET rest <- stack_allocs stack' m' reqs' ;;
      let '(res, fin, mfin) := rest in
      Done ((p, size) :: res, fin, mfin)
  end.

(** A run of [stack_free] calls in the order of the list. *)
Fixpoint stack_frees (stack : stack_t) (m : mem) (ptrs : list Z) : outcome stack_t :=
  match ptrs with
  | [] => Done stack
  | p :: ptrs' =>
      LET stack' <- stack_free stack m p ;;
      stack_frees stack' m ptrs'
  end.

Definition stack_destroy (stack : stack_t) : stack_t := mk_stack NULL 0 0.

Definition stack_calloc (stack : stack_t) (m : mem) (num size : Z)
  : outcome (Z * stack_t * mem) :=
  if negb (size =? 0) && (num >? SIZE_MAX / size) then Done (NULL, stack, m)
  else
    let total := size_mul num size in
    LET r <- stack_alloc stack m total ;;
    let '(ptr, stack', m') := r in
    if negb (ptr =? NULL) then Done (ptr, stack', memset m' ptr 0 total)
    else Done (ptr, stack', m').

End Stack.

(** ** pool.h *)

Module Pool.

Definition POOL_ALIGN : Z := WORD.

Inductive pool_error_t : Type :=
| POOL_OK
| POOL_ERR_NULL_POOL
| POOL_ERR_NULL_BUFFER
| POOL_ERR_BUFFER_TOO_SMALL
| POOL_ERR_INVALID_SLOT_SIZE
| POOL_ERR_INVALID_ALIGNMENT
| POOL_ERR_NULL_PTR
| POOL_ERR_INVALID_PTR
| POOL_ERR_DOUBLE_FREE.

(** [struct pool] without the debug members. *)
Record pool_t : Type := mk_pool {
  buffer : Z;
  buffer_end : Z;
  free_list : Z;
  slot_size : Z;
  slot_count : Z;
  free_count : Z
}.

Record pool_stats_t : Type := mk_pool_stats {
  stats_slot_size : Z;
  stats_slot_count : Z;
  stats_free_count : Z;
  stats_used_count : Z
}.

(** A descriptor after [memset(pool, 0, sizeof(pool_t))]. *)
Definition pool_zero : pool_t := mk_pool 0 0 0 0 0 0.

Definition pool__align_up (value alignment : Z) : Z := align_up value alignment.
Definition pool__align_ptr (ptr alignment : Z) : Z := align_up ptr alignment.

Definition pool__slot_ptr (pool : pool_t) (index : Z) : Z :=
  ptr_add (buffer pool) (size_mul index (slot_size pool)).

(** The loop of [pool__build_free_list]: [i] counts down to [0], [head]
    is [pool->free_list]. *)
Fixpoint build_free_list_loop (pool : pool_t) (i : nat) (head : Z) (m : mem) : Z * mem :=
  match i with
  | O => (head, m)
  | S i' =>
      let slot := pool__slot_ptr pool (Z.of_nat i') in
      build_free_list_loop pool i' slot (store_word m slot head)
  end.

Definition pool__build_free_list (pool : pool_t) (m : mem) : pool_t * mem :=
  let '(head, m') := build_free_list_loop pool (Z.to_nat (slot_count pool)) NULL m in
  (mk_pool (buffer pool) (buffer_end pool) head (slot_size pool) (slot_count pool)
           (slot_count pool), m').

(** [pool_init] on a non-null descriptor whose contents are [pool]. *)
Definition pool_init (pool : pool_t) (m : mem) (buf size slot_sz : Z)
  : outcome (pool_error_t * pool_t * mem) :=
  if buf =? NULL then Done (POOL_ERR_NULL_BUFFER, pool, m)
  else if slot_sz =? 0 then Done (POOL_ERR_INVALID_SLOT_SIZE, pool, m)
  else if negb (size_and POOL_ALIGN (size_sub POOL_ALIGN 1) =? 0)
  then Done (POOL_ERR_INVALID_ALIGNMENT, pool, m)
  else
    let pool := pool_zero in
    let effective_slot_size := if slot_sz <? WORD then WORD else slot_sz in
    let effective_slot_size := pool__align_up effective_slot_size POOL_ALIGN in
    let aligned_start := pool__align_ptr buf POOL_ALIGN in
    let alignment_overhead := ptr_diff aligned_start buf in
    if alignment_overhead >=? size then Done (POOL_ERR_BUFFER_TOO_SMALL, pool, m)
    else
      let usable_size := size_sub size alignment_overhead in
      (* usable_size / effective_slot_size *)
      if effective_slot_size =? 0 then Abort
      else
        let slot_cnt := usable_size / effective_slot_size in
        if slot_cnt =? 0 then Done (POOL_ERR_BUFFER_TOO_SMALL, pool, m)
        else
          let pool := mk_pool aligned_start
                              (ptr_add aligned_start (size_mul slot_cnt effective_slot_size))
                              (free_list pool) effective_slot_size slot_cnt (free_count pool) in
          let '(pool, m') := pool__build_free_list pool m in
          Done (POOL_OK, pool, m').

Definition pool_alloc (pool : pool_t) (m : mem) : Z * pool_t :=
  if free_list pool =? NULL then (NULL, pool)
  else
    let slot := free_list pool in
    (slot, mk_pool (buffer pool) (buffer_end pool) (load_word m slot) (slot_size pool)
                   (slot_count pool) (size_sub (free_count pool) 1)).

Definition pool_owns (pool : pool_t) (ptr : Z) : bool :=
  if ptr =? NULL then false
  else if (ptr <? buffer pool) || (ptr >=? buffer_end pool) then false
  else
    let offset := ptr_diff ptr (buffer pool) in
    if negb (offset mod slot_size pool =? 0) then false
    else true.

Definition pool_free (pool : pool_t) (m : mem) (ptr : Z) : pool_error_t * pool_t * mem :=
  if ptr =? NULL then (POOL_ERR_NULL_PTR, pool, m)
  else if negb (pool_owns pool ptr) then (POOL_ERR_INVALID_PTR, pool, m)
  else
    (POOL_OK,
     mk_pool (buffer pool) (buffer_end pool) ptr (slot_size pool) (slot_count pool)
             (size_add (free_count pool) 1),
     store_word m ptr (free_list pool)).

Definition pool_reset (pool : pool_t) (m : mem) : pool_t * mem :=
  pool__build_free_list pool m.

Definition pool_is_full (pool : pool_t) : bool := free_count pool =? 0.
Definition pool_is_empty (pool : pool_t) : bool := free_count pool =? slot_count pool.
Definition pool_slot_size (pool : pool_t) : Z := slot_size pool.
Definition pool_capacity (pool : pool_t) : Z := slot_count pool.
Definition pool_available (pool : pool_t) : Z := free_count pool.
Definition pool_used (pool : pool_t) : Z := size_sub (slot_count pool) (free_count pool).

Definition pool_stats (pool : pool_t) : pool_stats_t :=
  mk_pool_stats (slot_size pool) (slot_count pool) (free_count pool)
                (size_sub (slot_count pool) (free_count pool)).

Definition pool_destroy (pool : pool_t) : pool_t := pool_zero.

Definition pool_required_size (slot_sz slot_cnt : Z) : Z :=
  if (slot_sz =? 0) || (slot_cnt =? 0) then 0
  else
    let effective := if slot_sz <? WORD then WORD else slot_sz in
    let effective := pool__align_up effective POOL_ALIGN in
    let bitmap := 0 in
    size_sub (size_add (size_add (size_mul slot_cnt effective) bitmap) POOL_ALIGN) 1.

End Pool.

(** ** slab.h *)

Module Slab.

Definition SLAB_MAX_CLASSES : Z := 16.
Definition SLAB_ALIGNMENT : Z := 8.
(** [SLAB_MAX(sizeof(void* ), SLAB_ALIGNMENT)]. *)
Definition SLAB_MIN_SLOT_SIZE : Z := if WORD >? SLAB_ALIGNMENT then WORD else SLAB_ALIGNMENT.
Definition SLAB_MAGIC : Z := 0x534C4142.

Definition SLAB_OK : Z := 0.
Definition SLAB_ERR_NULL_PARAM : Z := -1.
Definition SLAB_ERR_ZERO_SIZE : Z := -2.
Definition SLAB_ERR_TOO_MANY : Z := -3.
Definition SLAB_ERR_BUFFER_SMALL : Z := -4.
Definition SLAB_ERR_INVALID_SIZE : Z := -5.
Definition SLAB_ERR_ALREADY_INIT : Z := -6.

(** [(size_t)-1], the "no class" index. *)
Definition NO_CLASS : Z := SIZE_MAX.

(** [struct slab_class] without the debug members. *)
Record slab_class_t : Type := mk_class {
  slot_size : Z;
  free_list : Z;
  region_start : Z;
  region_end : Z;
  slot_count : Z;
  free_count : Z
}.

(** [struct slab]; [classes] is the array of [SLAB_MAX_CLASSES] entries. *)
Record slab_t : Type := mk_slab {
  buffer : Z;
  aligned_start : Z;
  capacity : Z;
  usable_capacity : Z;
  classes : list slab_class_t;
  class_count : Z;
  initialized : Z
}.

Record slab_class_stats_t : Type := mk_class_stats {
  stats_slot_size : Z;
  stats_total_slots : Z;
  stats_used_slots : Z;
  stats_free_slots : Z;
  stats_peak_used : Z;
  stats_alloc_count : Z;
  stats_free_count : Z
}.

Definition class_zero : slab_class_t := mk_class 0 0 0 0 0 0.

#[global] Instance slab_class_inhabited : Inhabited slab_class_t := populate class_zero.

(** A descriptor after [memset(slab, 0, sizeof( *slab))]. *)
Definition slab_zero : slab_t :=
  mk_slab 0 0 0 0 (replicate (Z.to_nat SLAB_MAX_CLASSES) class_zero) 0 0.

Definition SLAB_ALIGN_UP (x align : Z) : Z := align_up x align.

(** The [while] loop of [slab__sort_sizes]: shifts the entries above
    [key] one place up, starting at index [j], then stores [key]. *)
Fixpoint sort_shift (arr : list Z) (j : nat) (key : Z) : list Z :=
  match j with
  | O => <[O := key]> arr
  | S j' =>
      if (arr !!! j') >? key then sort_shift (<[j := arr !!! j']> arr) j' key
      else <[j := key]> arr
  end.

(** The [for] loop of [slab__sort_sizes] from index [i], [n] rounds. *)
Fixpoint sort_from (arr : list Z) (i n : nat) : list Z :=
  match n with
  | O => arr
  | S n' => sort_from (sort_shift arr i (arr !!! i)) (S i) n'
  end.

Definition slab__sort_sizes (arr : list Z) (count : nat) : list Z :=
  sort_from arr 1 (count - 1).

(** The loop of [slab__find_class_for_size] from index [i], [n] rounds. *)
Fixpoint find_class_for_size_from (cls : list slab_class_t) (size : Z) (i n : nat) : Z :=
  match n with
  | O => NO_CLASS
  | S n' =>
      if slot_size (cls !!! i) >=? size then Z.of_nat i
      else find_class_for_size_from cls size (S i) n'
  end.

Definition slab__find_class_for_size (slab : slab_t) (size : Z) : Z :=
  find_class_for_size_from (classes slab) size 0 (Z.to_nat (class_count slab)).

Fixpoint find_class_for_ptr_from (cls : list slab_class_t) (p : Z) (i n : nat) : Z :=
  match n with
  | O => NO_CLASS
  | S n' =>
      if (p >=? region_start (cls !!! i)) && (p <? region_end (cls !!! i)) then Z.of_nat i
      else find_class_for_ptr_from cls p (S i) n'
  end.

Definition slab__find_class_for_ptr (slab : slab_t) (ptr : Z) : Z :=
  find_class_for_ptr_from (classes slab) ptr 0 (Z.to_nat (class_count slab)).

Definition slab__validate_ptr_in_class (cls : slab_class_t) (p : Z) : bool :=
  if (p <? region_start cls) || (p >=? region_end cls) then false
  else
    let offset := ptr_diff p (region_start cls) in
    if negb (offset mod slot_size cls =? 0) then false
    else true.

(** The loop of [slab__build_free_list]: [i] counts down, [prev] is the
    node built last. *)
Fixpoint build_free_list_loop (cls : slab_class_t) (i : nat) (prev : Z) (m : mem) : Z * mem :=
  match i with
  | O => (prev, m)
  | S i' =>
      let slot := ptr_add (region_start cls) (size_mul (Z.of_nat i') (slot_size cls)) in
      build_free_list_loop cls i' slot (store_word m slot prev)
  end.

Definition slab__build_free_list (cls : slab_class_t) (m : mem) : slab_class_t * mem :=
  let cls := mk_class (slot_size cls) NULL (region_start cls) (region_end cls)
                      (slot_count cls) (slot_count cls) in
  if slot_count cls =? 0 then (cls, m)
  else
    let '(prev, m') := build_free_list_loop cls (Z.to_nat (slot_count cls)) NULL m in
    (mk_class (slot_size cls) prev (region_start cls) (region_end cls)
              (slot_count cls) (free_count cls), m').

(** First loop of [slab_init]: copies [count] sizes, [None] when one of
    them is [0]. *)
Fixpoint copy_sizes (sizes : list Z) (count : nat) : option (list Z) :=
  match count, sizes with
  | S count', sz :: sizes' =>
      if sz =? 0 then None
      else match copy_sizes sizes' count' with
           | Some l => Some (sz :: l)
           | None => None
           end
  | _, _ => Some []
  end.

(** Second loop of [slab_init]: [sorted_sizes[i] == sorted_sizes[i - 1]]
    for some [i]. *)
Fixpoint has_equal_neighbours (sorted : list Z) : bool :=
  match sorted with
  | a :: (b :: _) as rest => (b =? a) || has_equal_neighbours rest
  | _ => false
  end.

(** Third loop of [slab_init], from class index [i]; [None] when a class
    gets no slot.  The store is returned either way: the free lists of
    the classes before the failing one have been written by then. *)
Fixpoint init_classes (sorted : list Z) (i : nat) (region_size region_ptr : Z)
  (cls : list slab_class_t) (m : mem) : option (list slab_class_t) * mem :=
  match sorted with
  | [] => (Some cls, m)
  | sz :: sorted' =>
      let aligned_slot_size := SLAB_ALIGN_UP sz SLAB_ALIGNMENT in
      let aligned_slot_size :=
        if aligned_slot_size >? SLAB_MIN_SLOT_SIZE then aligned_slot_size
        else SLAB_MIN_SLOT_SIZE in
      let slots := region_size / aligned_slot_size in
      if slots =? 0 then (None, m)
      else
        let c := mk_class aligned_slot_size (free_list (cls !!! i)) region_ptr
                          (ptr_add region_ptr (size_mul slots aligned_slot_size))
                          slots (free_count (cls !!! i)) in
        let '(c, m') := slab__build_free_list c m in
        init_classes sorted' (S i) region_size (ptr_add region_ptr region_size)
                     (<[i := c]> cls) m'
  end.

(** Last loop of [slab_init]: clears the classes from index [i] on. *)
Fixpoint clear_classes (cls : list slab_class_t) (i n : nat) : list slab_class_t :=
  match n with
  | O => cls
  | S n' => clear_classes (<[i := class_zero]> cls) (S i) n'
  end.

(** [slab_init] on a non-null descriptor whose contents are [slab], with
    a non-null [sizes] array holding at least [count] entries. *)
Definition slab_init (slab : slab_t) (m : mem) (buf size : Z) (sizes : list Z) (count : Z)
  : Z * slab_t * mem :=
  if buf =? NULL then (SLAB_ERR_NULL_PARAM, slab, m)
  else if (size =? 0) || (count =? 0) then (SLAB_ERR_ZERO_SIZE, slab, m)
  else if count >? SLAB_MAX_CLASSES then (SLAB_ERR_TOO_MANY, slab, m)
  else if initialized slab =? SLAB_MAGIC then (SLAB_ERR_ALREADY_INIT, slab, m)
  else
    match copy_sizes sizes (Z.to_nat count) with
    | None => (SLAB_ERR_INVALID_SIZE, slab, m)
    | Some sorted_sizes =>
        let sorted_sizes := slab__sort_sizes sorted_sizes (Z.to_nat count) in
        if has_equal_neighbours sorted_sizes then (SLAB_ERR_INVALID_SIZE, slab, m)
        else
          let slab := mk_slab buf (aligned_start slab) size (usable_capacity slab)
                              (classes slab) (class_count slab) (initialized slab) in
          let alignment_loss := ptr_diff (SLAB_ALIGN_UP buf SLAB_ALIGNMENT) buf in
          if alignment_loss >=? size then (SLAB_ERR_BUFFER_SMALL, slab, m)
          else
            let slab := mk_slab (buffer slab) (ptr_add (buffer slab) alignment_loss)
                                (capacity slab) (size_sub size alignment_loss)
                                (classes slab) count (initialized slab) in
            let region_size := usable_capacity slab / count in
            let region_size := size_mul (region_size / SLAB_ALIGNMENT) SLAB_ALIGNMENT in
            if region_size <? SLAB_ALIGNMENT then (SLAB_ERR_BUFFER_SMALL, slab, m)
            else
              match init_classes sorted_sizes 0 region_size (aligned_start slab)
                                 (classes slab) m with
              | (None, m') => (SLAB_ERR_BUFFER_SMALL, slab_zero, m')
              | (Some cls, m') =>
                  let cls := clear_classes cls (Z.to_nat count)
                                           (Z.to_nat (SLAB_MAX_CLASSES - count)) in
                  (SLAB_OK,
                   mk_slab (buffer slab) (aligned_start slab) (capacity slab)
                           (usable_capacity slab) cls (class_count slab) SLAB_MAGIC,
                   m')
              end
    end.

Definition slab_alloc (slab : slab_t) (m : mem) (size : Z) : Z * slab_t :=
  if negb (initialized slab =? SLAB_MAGIC) || (size =? 0) then (NULL, slab)
  else
    let class_idx := slab__find_class_for_size slab size in
    if class_idx =? NO_CLASS then (NULL, slab)
    else
      let cls := classes slab !!! Z.to_nat class_idx in
      if free_list cls =? NULL then (NULL, slab)
      else
        let node := free_list cls in
        let cls := mk_class (slot_size cls) (load_word m node) (region_start cls)
                            (region_end cls) (slot_count cls)
                            (size_sub (free_count cls) 1) in
        (node,
         mk_slab (buffer slab) (aligned_start slab) (capacity slab) (usable_capacity slab)
                 (<[Z.to_nat class_idx := cls]> (classes slab))
                 (class_count slab) (initialized slab)).

Definition slab_free (slab : slab_t) (m : mem) (ptr : Z) : outcome (slab_t * mem) :=
  if ptr =? NULL then Done (slab, m)
  else
    ASSERT initialized slab =? SLAB_MAGIC ;;
    let class_idx := slab__find_class_for_ptr slab ptr in
    ASSERT negb (class_idx =? NO_CLASS) ;;
    let cls := classes slab !!! Z.to_nat class_idx in
    ASSERT slab__validate_ptr_in_class cls ptr ;;
    let m' := store_word m ptr (free_list cls) in
    let cls := mk_class (slot_size cls) ptr (region_start cls) (region_end cls)
                        (slot_count cls) (size_add (free_count cls) 1) in
    Done (mk_slab (buffer slab) (aligned_start slab) (capacity slab) (usable_capacity slab)
                  (<[Z.to_nat class_idx := cls]> (classes slab))
                  (class_count slab) (initialized slab),
          m').

Definition slab_class_count (slab : slab_t) : Z :=
  if negb (initialized slab =? SLAB_MAGIC) then 0 else class_count slab.

Definition slab_class_slot_size (slab : slab_t) (class_index : Z) : Z :=
  if negb (initialized slab =? SLAB_MAGIC) then 0
  else if class_index >=? class_count slab then 0
  else slot_size (classes slab !!! Z.to_nat class_index).

Definition slab_owns (slab : slab_t) (ptr : Z) : bool :=
  if negb (initialized slab =? SLAB_MAGIC) || (ptr =? NULL) then false
  else negb (slab__find_class_for_ptr slab ptr =? NO_CLASS).

Definition slab_usable_size (slab : slab_t) (ptr : Z) : Z :=
  if negb (initialized slab =? SLAB_MAGIC) || (ptr =? NULL) then 0
  else
    let class_idx := slab__find_class_for_ptr slab ptr in
    if class_idx =? NO_CLASS then 0
    else slot_size (classes slab !!! Z.to_nat class_idx).

Definition slab_max_alloc (slab : slab_t) : Z :=
  if negb (initialized slab =? SLAB_MAGIC) || (class_count slab =? 0) then 0
  else slot_size (classes slab !!! Z.to_nat (size_sub (class_count slab) 1)).

Definition slab_class_stats (slab : slab_t) (class_index : Z) : slab_class_stats_t :=
  if negb (initialized slab =? SLAB_MAGIC) then mk_class_stats 0 0 0 0 0 0 0
  else if class_index >=? class_count slab then mk_class_stats 0 0 0 0 0 0 0
  else
    let cls := classes slab !!! Z.to_nat class_index in
    let used := size_sub (slot_count cls) (free_count cls) in
    mk_class_stats (slot_size cls) (slot_count cls) used (free_count cls) used 0 0.

Definition slab_destroy (slab : slab_t) : slab_t :=
  if negb (initialized slab =? SLAB_MAGIC) then slab else slab_zero.

(** The loop of [slab_reset] from class index [i], [n] rounds. *)
Fixpoint reset_classes (cls : list slab_class_t) (m : mem) (i n : nat)
  : list slab_class_t * mem :=
  match n with
  | O => (cls, m)
  | S n' =>
      let '(c, m') := slab__build_free_list (cls !!! i) m in
      reset_classes (<[i := c]> cls) m' (S i) n'
  end.

Definition slab_reset (slab : slab_t) (m : mem) : slab_t * mem :=
  if negb (initialized slab =? SLAB_MAGIC) then (slab, m)
  else
    let '(cls, m') := reset_classes (classes slab) m 0 (Z.to_nat (class_count slab)) in
    (mk_slab (buffer slab) (aligned_start slab) (capacity slab) (usable_capacity slab)
             cls (class_count slab) (initialized slab), m').

(** [struct slab_stats]. *)
Record slab_stats_t : Type := mk_slab_stats {
  slab_stats_class_count : Z;
  slab_stats_total_capacity : Z;
  slab_stats_usable_capacity : Z;
  slab_stats_total_slots : Z;
  slab_stats_used_slots : Z;
  slab_stats_free_slots : Z;
  slab_stats_peak_used : Z;
  slab_stats_total_alloc_count : Z;
  slab_stats_total_free_count : Z
}.

(** The loop of [slab_stats] from class index [i], [n] rounds, with the
    running [total_slots] and [free_slots]. *)
Fixpoint sum_slots_from (cls : list slab_class_t) (i n : nat) (total free : Z) : Z * Z :=
  match n with
  | O => (total, free)
  | S n' =>
      sum_slots_from cls (S i) n' (size_add total (slot_count (cls !!! i)))
                     (size_add free (free_count (cls !!! i)))
  end.

Definition slab_stats (slab : slab_t) : slab_stats_t :=
  if negb (initialized slab =? SLAB_MAGIC) then mk_slab_stats 0 0 0 0 0 0 0 0 0
  else
    let '(total, free) :=
      sum_slots_from (classes slab) 0 (Z.to_nat (class_count slab)) 0 0 in
    let used := size_sub total free in
    mk_slab_stats (class_count slab) (capacity slab) (usable_capacity slab)
                  total used free used 0 0.

Definition slab_calloc (slab : slab_t) (m : mem) (size : Z) : Z * slab_t * mem :=
  let '(ptr, slab') := slab_alloc slab m size in
  if negb (ptr =? NULL)
  then (ptr, slab', memset m ptr 0 (slab_usable_size slab' ptr))
  else (ptr, slab', m).

(** The loop of [slab_buffer_size_needed] over [count] sizes; [None]
    when one of them is [0]. *)
Fixpoint max_aligned_size_from (sizes : list Z) (count : nat) (max_aligned_size : Z)
  : option Z :=
  match count, sizes with
  | S count', sz :: sizes' =>
      if sz =? 0 then None
      else
        let aligned_size := SLAB_ALIGN_UP sz SLAB_ALIGNMENT in
        let aligned_size :=
          if aligned_size >? SLAB_MIN_SLOT_SIZE then aligned_size else SLAB_MIN_SLOT_SIZE in
        max_aligned_size_from sizes' count'
          (if aligned_size >? max_aligned_size then aligned_size else max_aligned_size)
  | _, _ => Some max_aligned_size
  end.

(** [slab_buffer_size_needed] for a non-null [sizes] array holding at
    least [count] entries. *)
Definition slab_buffer_size_needed (sizes : list Z) (count min_slots_each : Z) : Z :=
  if (count =? 0) || (count >? SLAB_MAX_CLASSES) then 0
  else
    let slots_needed := if min_slots_each =? 0 then 1 else min_slots_each in
    match max_aligned_size_from sizes (Z.to_nat count) 0 with
    | None => 0
    | Some max_aligned_size =>
        let region_size_needed := size_mul max_aligned_size slots_needed in
        let region_size_needed := SLAB_ALIGN_UP region_size_needed SLAB_ALIGNMENT in
        if region_size_needed >? SIZE_MAX / count then 0
        else
          let total := size_mul region_size_needed count in
          size_add total (SLAB_ALIGNMENT - 1)
    end.

End Slab.

(** ** Notions used to state the properties *)

(** Mathematical rounding of [v] up to a multiple of [a]. *)
Definition round_up (v a : Z) : Z := (v + a - 1) / a * a.

(** The byte ranges [p, p + n) and [q, q + k) share no byte. *)
Definition ranges_disjoint (p n q k : Z) : Prop := p + n <= q \/ q + k <= p.

(** Two stores hold the same bytes on [lo, hi). *)
Definition mem_agree (m m' : mem) (lo hi : Z) : Prop :=
  forall a, lo <= a < hi -> load8 m a = load8 m' a.

(** An initialized arena over a region that lies inside the address
    space. *)
Definition arena_ok (a : Arena.arena_t) : Prop :=
  Arena.initialized a = true /\
  in_size_t (Arena.buffer a) /\ in_size_t (Arena.capacity a) /\
  in_size_t (Arena.offset a) /\
  Arena.buffer a + Arena.capacity a <= SIZE_MOD.

(** A [(size, align)] request whose alignment passes the power-of-two
    test. *)
Definition arena_req_ok (r : Z * Z) : Prop :=
  in_size_t (fst r) /\ in_size_t (snd r) /\ is_power_of_two (snd r) = true.

(** No position at or above the watermark is both aligned and followed
    by [size] bytes of the region. *)
Definition arena_cannot_fit (a : Arena.arena_t) (size align : Z) : Prop :=
  Arena.capacity a < round_up (Arena.offset a) align + size.

(** Largest size of a C object. *)
Definition PTRDIFF_MAX : Z := 2 ^ 63 - 1.

(** The alignment [stack_alloc_aligned] works with after raising a small
    request to [STACK_MIN_ALIGNMENT]. *)
Definition stack_alignment (alignment : Z) : Z :=
  if alignment <? Stack.STACK_MIN_ALIGNMENT then Stack.STACK_MIN_ALIGNMENT else alignment.

(** An initialized stack over a region that is a C object: non-null,
    ending inside the address space, and small enough that the region
    plus one header is at most [PTRDIFF_MAX] bytes. *)
Definition stack_ok (s : Stack.stack_t) : Prop :=
  0 < Stack.buffer s /\
  0 <= Stack.offset s <= Stack.capacity s /\
  Stack.buffer s + Stack.capacity s < SIZE_MOD /\
  Stack.capacity s + Stack.STACK_HEADER_SIZE <= PTRDIFF_MAX.

Definition stack_req_ok (r : Z * Z) : Prop :=
  in_size_t (fst r) /\ in_size_t (snd r) /\
  is_power_of_two (stack_alignment (snd r)) = true.

(** Address of the user block [stack_alloc_aligned] aims at. *)
Definition stack_user_addr (s : Stack.stack_t) (alignment : Z) : Z :=
  round_up (Stack.buffer s + Stack.offset s + Stack.STACK_HEADER_SIZE)
           (stack_alignment alignment).

(** The header and [size] bytes after the aligned address do not fit
    below the end of the region. *)
Definition stack_cannot_fit (s : Stack.stack_t) (size alignment : Z) : Prop :=
  Stack.capacity s < stack_user_addr s alignment - Stack.buffer s + size.

(** A region handed to an init function: a non-null C object that ends
    inside the address space. *)
Definition region_ok (buf size : Z) : Prop :=
  0 < buf /\ 0 <= size /\ buf + size < SIZE_MOD.

(** Addresses [base + j * size] for [count] consecutive indices [j]
    starting at [first]. *)
Definition slot_addrs (base size : Z) (first count : nat) : list Z :=
  map (fun j => base + Z.of_nat j * size) (seq first count).

(** The words stored at the addresses of [l] link them, in this order,
    into a list that starts at [head] and ends with [NULL]. *)
Fixpoint chain (m : mem) (head : Z) (l : list Z) : Prop :=
  match l with
  | [] => head = NULL
  | p :: l' => head = p /\ p <> NULL /\ chain m (load_word m p) l'
  end.

(** Addresses of the slots of a pool, slot [0] first. *)
Definition pool_slots (s : Pool.pool_t) : list Z :=
  slot_addrs (Pool.buffer s) (Pool.slot_size s) 0 (Z.to_nat (Pool.slot_count s)).

Definition pool_layout_ok (s : Pool.pool_t) : Prop :=
  0 < Pool.buffer s /\ 8 <= Pool.slot_size s /\ 0 < Pool.slot_count s /\
  Pool.buffer_end s = Pool.buffer s + Pool.slot_count s * Pool.slot_size s /\
  Pool.buffer_end s < SIZE_MOD.

(** The pool invariant: the free list threads exactly the slots that are
    not live, each once, and [free_count] is its length. *)
Definition pool_inv (s : Pool.pool_t) (m : mem) (live : list Z) : Prop :=
  pool_layout_ok s /\
  exists fl, chain m (Pool.free_list s) fl /\
             Permutation (fl ++ live) (pool_slots s) /\
             Pool.free_count s = Z.of_nat (length fl).

(** States a pool goes through when its client keeps the contract: it
    frees only pointers it holds, and writes only into slots it holds.
    [live] lists the pointers handed out and not yet freed. *)
Inductive pool_reach : Pool.pool_t -> mem -> list Z -> Prop :=
| pool_reach_init pool0 m0 buf size slot_sz s m :
    region_ok buf size -> in_size_t size -> in_size_t slot_sz ->
    Pool.pool_init pool0 m0 buf size slot_sz = Done (Pool.POOL_OK, s, m) ->
    pool_reach s m []
| pool_reach_alloc s m live p s' :
    pool_reach s m live ->
    Pool.pool_alloc s m = (p, s') -> p <> NULL ->
    pool_reach s' m (p :: live)
| pool_reach_free s m live live' p e s' m' :
    pool_reach s m live ->
    Permutation live (p :: live') ->
    Pool.pool_free s m p = (e, s', m') ->
    pool_reach s' m' live'
| pool_reach_write s m live p a b :
    pool_reach s m live ->
    In p live -> p <= a < p + Pool.slot_size s ->
    pool_reach s (store8 m a b) live.

(** A run of [n] calls of [pool_alloc]. *)
Fixpoint pool_allocs (s : Pool.pool_t) (m : mem) (n : nat) : list Z * Pool.pool_t :=
  match n with
  | O => ([], s)
  | S n' =>
      let '(p, s') := Pool.pool_alloc s m in
      let '(ps, fin) := pool_allocs s' m n' in
      (p :: ps, fin)
  end.

(** Reference for [slab__sort_sizes]: insertion of [key] into an
    ascending list, and the sort that inserts the entries one by one. *)
Fixpoint insert_sorted (key : Z) (l : list Z) : list Z :=
  match l with
  | [] => [key]
  | a :: l' => if a >? key then key :: a :: l' else a :: insert_sorted key l'
  end.

Definition insert_all (pre suf : list Z) : list Z :=
  fold_left (fun acc x => insert_sorted x acc) suf pre.

(** No class of the slab has slots of [size] bytes or more. *)
Definition slab_class_absent (slab : Slab.slab_t) (size : Z) : Prop :=
  forall k : nat, (k < Z.to_nat (Slab.class_count slab))%nat ->
    Slab.slot_size (Slab.classes slab !!! k) < size.

(** Class [k] is the first one with slots of at least [size] bytes. *)
Definition slab_class_for (slab : Slab.slab_t) (size : Z) (k : nat) : Prop :=
  (k < Z.to_nat (Slab.class_count slab))%nat /\
  size <= Slab.slot_size (Slab.classes slab !!! k) /\
  forall j : nat, (j < k)%nat -> Slab.slot_size (Slab.classes slab !!! j) < size.

(** An arena of 100 bytes whose buffer starts at the odd address 4097. *)
Definition odd_arena : Arena.arena_t := Arena.mk_arena 4097 100 0 true.

(** A stack of 4096 bytes at address 4096 with nothing allocated. *)
Definition demo_stack : Stack.stack_t := Stack.mk_stack 4096 4096 0.

(** The pool [pool_init] builds in the 64 bytes at address 4096 for
    16-byte slots, and the store it leaves. *)
Definition demo_pool : Pool.pool_t * mem :=
  match Pool.pool_init Pool.pool_zero ∅ 4096 64 16 with
  | Done (_, s, m) => (s, m)
  | Abort => (Pool.pool_zero, ∅)
  end.

(** The slab [slab_init] builds in the 256 bytes at address 4096 for
    the size classes 32 and 64, and the store it leaves. *)
Definition demo_slab : Slab.slab_t * mem :=
  let '(_, slab, m) := Slab.slab_init Slab.slab_zero ∅ 4096 256 [32; 64] 2 in (slab, m).

(** A run of [n] calls of [slab_alloc] for [size] bytes. *)
Fixpoint slab_allocs (slab : Slab.slab_t) (m : mem) (size : Z) (n : nat)
  : list Z * Slab.slab_t :=
  match n with
  | O => ([], slab)
  | S n' =>
      let '(p, slab') := Slab.slab_alloc slab m size in
      let '(ps, fin) := slab_allocs slab' m size n' in
      (p :: ps, fin)
  end.

(** Addresses of the slots of a size class, slot [0] first. *)
Definition class_slots (c : Slab.slab_class_t) : list Z :=
  slot_addrs (Slab.region_start c) (Slab.slot_size c) 0 (Z.to_nat (Slab.slot_count c)).

Definition class_layout_ok (c : Slab.slab_class_t) : Prop :=
  0 < Slab.region_start c /\ 8 <= Slab.slot_size c /\ 0 < Slab.slot_count c /\
  Slab.region_end c = Slab.region_start c + Slab.slot_count c * Slab.slot_size c /\
  Slab.region_end c < SIZE_MOD.

(** [p] lies in the sub-region of class [c]. *)
Definition in_region (c : Slab.slab_class_t) (p : Z) : bool :=
  (p >=? Slab.region_start c) && (p <? Slab.region_end c).

(** The invariant of one class: its free list threads exactly its slots
    that are not live. *)
Definition class_inv (c : Slab.slab_class_t) (m : mem) (live : list Z) : Prop :=
  class_layout_ok c /\
  exists fl, chain m (Slab.free_list c) fl /\
             Permutation (fl ++ List.filter (in_region c) live) (class_slots c) /\
             Slab.free_count c = Z.of_nat (length fl).

(** The slot size [slab_init] gives a class of requested size [sz]. *)
Definition class_slot_size (sz : Z) : Z :=
  let a := Slab.SLAB_ALIGN_UP sz Slab.SLAB_ALIGNMENT in
  if a >? Slab.SLAB_MIN_SLOT_SIZE then a else Slab.SLAB_MIN_SLOT_SIZE.

(** The slab invariant: every class keeps its own invariant, the
    sub-regions follow one another without overlap, and every live
    pointer lies in one of them. *)
Definition slab_inv (slab : Slab.slab_t) (m : mem) (live : list Z) : Prop :=
  Slab.initialized slab = Slab.SLAB_MAGIC /\
  0 < Slab.class_count slab <= Slab.SLAB_MAX_CLASSES /\
  (Z.to_nat (Slab.class_count slab) <= length (Slab.classes slab))%nat /\
  (forall k : nat, (k < Z.to_nat (Slab.class_count slab))%nat ->
     class_inv (Slab.classes slab !!! k) m live) /\
  (forall j k : nat, (j < k < Z.to_nat (Slab.class_count slab))%nat ->
     Slab.region_end (Slab.classes slab !!! j) <=
     Slab.region_start (Slab.classes slab !!! k)) /\
  (forall p, In p live ->
     exists k : nat, (k < Z.to_nat (Slab.class_count slab))%nat /\
                     in_region (Slab.classes slab !!! k) p = true).

(** The slot sizes of the classes ascend with the class index. *)
Definition slab_sorted (slab : Slab.slab_t) : Prop :=
  forall j k : nat, (j <= k < Z.to_nat (Slab.class_count slab))%nat ->
    Slab.slot_size (Slab.classes slab !!! j) <= Slab.slot_size (Slab.classes slab !!! k).

(** Class [c'] has the slots of class [c]. *)
Definition same_layout (c c' : Slab.slab_class_t) : Prop :=
  Slab.slot_size c' = Slab.slot_size c /\
  Slab.region_start c' = Slab.region_start c /\
  Slab.region_end c' = Slab.region_end c /\
  Slab.slot_count c' = Slab.slot_count c.

(** Slab [s'] has the classes of slab [s], with the same slots. *)
Definition same_classes (s s' : Slab.slab_t) : Prop :=
  Slab.initialized s' = Slab.initialized s /\
  Slab.class_count s' = Slab.class_count s /\
  length (Slab.classes s') = length (Slab.classes s) /\
  forall j : nat, same_layout (Slab.classes s !!! j) (Slab.classes s' !!! j).

(** States a slab goes through when its client keeps the contract: no
    requested size is within [SLAB_ALIGNMENT - 1] of [SIZE_MAX], it
    frees only pointers it holds, and writes only into the usable bytes
    of slots it holds.  [live] lists the pointers handed out and not yet
    freed. *)
Inductive slab_reach : Slab.slab_t -> mem -> list Z -> Prop :=
| slab_reach_init slab0 m0 buf size sizes count s m :
    region_ok buf size -> in_size_t size -> Forall in_size_t sizes ->
    0 <= count -> (Z.to_nat count <= length sizes)%nat ->
    length (Slab.classes slab0) = Z.to_nat Slab.SLAB_MAX_CLASSES ->
    Forall (fun x => x <= SIZE_MAX - (Slab.SLAB_ALIGNMENT - 1))
           (firstn (Z.to_nat count) sizes) ->
    Slab.slab_init slab0 m0 buf size sizes count = (Slab.SLAB_OK, s, m) ->
    slab_reach s m []
| slab_reach_alloc s m live size p s' :
    slab_reach s m live ->
    Slab.slab_alloc s m size = (p, s') -> p <> NULL ->
    slab_reach s' m (p :: live)
| slab_reach_free s m live live' p s' m' :
    slab_reach s m live ->
    Permutation live (p :: live') ->
    Slab.slab_free s m p = Done (s', m') ->
    slab_reach s' m' live'
| slab_reach_write s m live p a b :
    slab_reach s m live ->
    In p live -> p <= a < p + Slab.slab_usable_size s p ->
    slab_reach s (store8 m a b) live.

(** The slot size [pool_init] and [pool_required_size] work with:
    [slot_sz] raised to a pointer's size and rounded up to [POOL_ALIGN]. *)
Definition pool_effective_slot_size (slot_sz : Z) : Z :=
  round_up (Z.max slot_sz Pool.POOL_ALIGN) Pool.POOL_ALIGN.

(** The sub-region size [slab_init] gives each of [count] classes in a
    buffer of [size] bytes at [buf]: an equal share of what lies behind
    the aligned start, rounded down to [SLAB_ALIGNMENT]. *)
Definition slab_region_size (buf size count : Z) : Z :=
  (size - (round_up buf Slab.SLAB_ALIGNMENT - buf)) / count / Slab.SLAB_ALIGNMENT
  * Slab.SLAB_ALIGNMENT.

(** The largest slot size among the classes of the requested sizes. *)
Definition slab_max_slot_size (l : list Z) : Z :=
  fold_right (fun sz acc => Z.max (class_slot_size sz) acc) 0 l.

(** The sum of [g k] over the [n] indices from [i] on. *)
Fixpoint index_sum (g : nat -> Z) (i n : nat) : Z :=
  match n with
  | O => 0
  | S n' => g i + index_sum g (S i) n'
  end.

(** * Properties *)

(** ** Machine arithmetic *)

Section MachFacts.

Lemma SIZE_MOD_val : SIZE_MOD = 18446744073709551616.
Proof. reflexivity. Qed.

Lemma wrap_in_size_t x : in_size_t (wrap x).
Proof. unfold in_size_t, wrap. apply Z.mod_pos_bound. rewrite SIZE_MOD_val. lia. Qed.

Lemma wrap_small x : in_size_t x -> wrap x = x.
Proof. unfold in_size_t, wrap. intros H. apply Z.mod_small. exact H. Qed.

Lemma wrap_shift x k : in_size_t (x + k * SIZE_MOD) -> wrap x = x + k * SIZE_MOD.
Proof.
  intros H. unfold wrap. rewrite <- (Z_mod_plus_full x k SIZE_MOD).
  apply Z.mod_small. exact H.
Qed.

Lemma wrap_above x : SIZE_MOD <= x < 2 * SIZE_MOD -> wrap x = x - SIZE_MOD.
Proof. intros H. rewrite (wrap_shift x (-1)); unfold in_size_t; lia. Qed.

Lemma wrap_below x : - SIZE_MOD <= x < 0 -> wrap x = x + SIZE_MOD.
Proof. intros H. rewrite (wrap_shift x 1); unfold in_size_t; lia. Qed.

Lemma wrap_wrap_add x y : wrap (wrap x + y) = wrap (x + y).
Proof. unfold wrap. apply Zplus_mod_idemp_l. Qed.

Lemma wrap_wrap_sub x y : wrap (wrap x - y) = wrap (x - y).
Proof. unfold wrap. apply Zminus_mod_idemp_l. Qed.

Lemma pow2_lt_size k : 0 <= k < 64 -> 0 < 2 ^ k < SIZE_MOD.
Proof.
  intros H. split; [apply Z.pow_pos_nonneg; lia|].
  unfold SIZE_MOD, SIZE_BITS. apply Z.pow_lt_mono_r; lia.
Qed.

Lemma pow2_le_half k : 0 <= k < 64 -> 2 ^ k <= 2 ^ 63.
Proof. intros H. apply Z.pow_le_mono_r; lia. Qed.

(** The bit test of the source recognises exactly the powers of two. *)
Lemma is_power_of_two_spec x :
  in_size_t x -> is_power_of_two x = true -> exists k, 0 <= k < 64 /\ x = 2 ^ k.
Proof.
  unfold is_power_of_two, size_and, size_sub. intros Hx H.
  apply andb_true_iff in H as [Hnz Hland].
  apply negb_true_iff, Z.eqb_neq in Hnz. apply Z.eqb_eq in Hland.
  assert (Hpos : 0 < x) by (unfold in_size_t in Hx; lia).
  rewrite wrap_small in Hland by (unfold in_size_t in *; lia).
  pose proof (Z.log2_spec x Hpos) as [Hlo Hhi].
  pose proof (Z.log2_nonneg x) as Hk.
  exists (Z.log2 x). split.
  - split; [exact Hk|].
    destruct (Z_lt_ge_dec (Z.log2 x) 64) as [|Hge]; [assumption|exfalso].
    assert (2 ^ 64 <= 2 ^ Z.log2 x) by (apply Z.pow_le_mono_r; lia).
    unfold in_size_t, SIZE_MOD, SIZE_BITS in Hx. lia.
  - destruct (Z.eq_dec x (2 ^ Z.log2 x)) as [|Hne]; [assumption|exfalso].
    assert (Hl : Z.log2 (x - 1) = Z.log2 x).
    { apply Z.log2_unique; [exact Hk|]. lia. }
    assert (Hb1 : Z.testbit x (Z.log2 x) = true) by (apply Z.bit_log2; exact Hpos).
    assert (Hb2 : Z.testbit (x - 1) (Z.log2 x) = true).
    { rewrite <- Hl. apply Z.bit_log2. lia. }
    assert (Hb : Z.testbit (Z.land x (x - 1)) (Z.log2 x) = true).
    { rewrite Z.land_spec, Hb1, Hb2. reflexivity. }
    rewrite Hland, Z.bits_0 in Hb. discriminate.
Qed.

Lemma land_wrap_r x y : in_size_t x -> Z.land x (wrap y) = Z.land x y.
Proof.
  intros Hx. unfold wrap, SIZE_MOD, SIZE_BITS.
  rewrite <- (Z.land_ones y 64) by lia.
  rewrite (Z.land_comm y), Z.land_assoc, Z.land_ones by lia.
  rewrite Z.mod_small; [reflexivity|exact Hx].
Qed.

(** The masking expression clears the low [k] bits of [value + align - 1]
    taken modulo [2^64]. *)
Lemma align_up_pow2 v k :
  0 <= k < 64 ->
  align_up v (2 ^ k) = wrap (v + 2 ^ k - 1) - wrap (v + 2 ^ k - 1) mod 2 ^ k.
Proof.
  intros Hk. pose proof (pow2_lt_size k Hk) as Ha.
  unfold align_up, size_and, size_sub, size_add, size_not.
  rewrite wrap_wrap_sub.
  rewrite (wrap_small (2 ^ k - 1)) by (unfold in_size_t; lia).
  rewrite land_wrap_r by apply wrap_in_size_t.
  replace (2 ^ k - 1) with (Z.ones k) by (rewrite Z.ones_equiv; lia).
  rewrite <- Z.ldiff_land, Z.ldiff_ones_r by lia.
  rewrite Z.shiftr_div_pow2, Z.shiftl_mul_pow2 by lia.
  set (x := wrap (v + 2 ^ k - 1)).
  pose proof (Z.div_mod x (2 ^ k)). lia.
Qed.

Lemma align_up_multiple v k : 0 <= k < 64 -> align_up v (2 ^ k) mod 2 ^ k = 0.
Proof.
  intros Hk. rewrite align_up_pow2 by exact Hk.
  pose proof (pow2_lt_size k Hk) as Ha.
  set (x := wrap (v + 2 ^ k - 1)).
  rewrite Zminus_mod_idemp_r, Z.sub_diag. apply Z.mod_0_l. lia.
Qed.

Lemma align_up_in_size_t v k : 0 <= k < 64 -> in_size_t (align_up v (2 ^ k)).
Proof.
  intros Hk. rewrite align_up_pow2 by exact Hk.
  pose proof (pow2_lt_size k Hk) as Ha.
  pose proof (wrap_in_size_t (v + 2 ^ k - 1)) as Hw.
  set (x := wrap (v + 2 ^ k - 1)) in *.
  pose proof (Z.mod_pos_bound x (2 ^ k) ltac:(lia)).
  pose proof (Z.mod_le x (2 ^ k) ltac:(unfold in_size_t in Hw; lia) ltac:(lia)).
  unfold in_size_t in *. lia.
Qed.

Lemma round_up_bounds v a : 0 < a -> v <= round_up v a < v + a.
Proof.
  intros Ha. unfold round_up.
  pose proof (Z.div_mod (v + a - 1) a ltac:(lia)).
  pose proof (Z.mod_pos_bound (v + a - 1) a Ha). lia.
Qed.

Lemma round_up_multiple v a : 0 < a -> round_up v a mod a = 0.
Proof. intros Ha. unfold round_up. apply Z_mod_mult. Qed.

(** [round_up] is the least multiple of [a] that is at least [v]. *)
Lemma round_up_least v a p : 0 < a -> v <= p -> p mod a = 0 -> round_up v a <= p.
Proof.
  intros Ha Hvp Hp. unfold round_up.
  apply Z.mod_divide in Hp as [q Hq]; [|lia]. subst p.
  apply Z.mul_le_mono_nonneg_r; [lia|].
  apply Z.lt_succ_r. apply Z.div_lt_upper_bound; [lia|]. lia.
Qed.

(** Without wrap-around the masking expression is [round_up]. *)
Lemma align_up_exact v k :
  0 <= k < 64 -> 0 <= v -> v + 2 ^ k - 1 < SIZE_MOD -> align_up v (2 ^ k) = round_up v (2 ^ k).
Proof.
  intros Hk Hv Hlt. rewrite align_up_pow2 by exact Hk.
  pose proof (pow2_lt_size k Hk) as Ha.
  rewrite wrap_small by (unfold in_size_t; lia).
  unfold round_up. pose proof (Z.div_mod (v + 2 ^ k - 1) (2 ^ k)). lia.
Qed.

(** With wrap-around it is [0]. *)
Lemma align_up_wrapped v k :
  0 <= k < 64 -> in_size_t v -> SIZE_MOD <= v + 2 ^ k - 1 -> align_up v (2 ^ k) = 0.
Proof.
  intros Hk Hv Hge. rewrite align_up_pow2 by exact Hk.
  pose proof (pow2_lt_size k Hk) as Ha.
  rewrite wrap_above by (unfold in_size_t in Hv; lia).
  rewrite (Z.mod_small (v + 2 ^ k - 1 - SIZE_MOD)); unfold in_size_t in Hv; lia.
Qed.

End MachFacts.

(** ** The byte store *)

Section MemoryFacts.

Lemma load8_store8_same m a b : load8 (store8 m a b) a = b mod 256.
Proof. unfold load8, store8. rewrite lookup_insert_eq. reflexivity. Qed.

Lemma load8_store8_other m a a' b : a <> a' -> load8 (store8 m a b) a' = load8 m a'.
Proof. intros H. unfold load8, store8. rewrite lookup_insert_ne by exact H. reflexivity. Qed.

Lemma load8_store_bytes_other bs : forall m a a',
  a' < a \/ a + Z.of_nat (length bs) <= a' ->
  load8 (store_bytes m a bs) a' = load8 m a'.
Proof.
  induction bs as [|b bs IH]; intros m a a' H; simpl; [reflexivity|].
  rewrite IH by (simpl length in H; lia).
  apply load8_store8_other. simpl length in H. lia.
Qed.

Lemma load_bytes_store_bytes_same bs : forall m a,
  load_bytes (store_bytes m a bs) a (length bs) = map (fun b => b mod 256) bs.
Proof.
  induction bs as [|b bs IH]; intros m a; simpl; [reflexivity|].
  rewrite load8_store_bytes_other by lia.
  rewrite load8_store8_same, IH. reflexivity.
Qed.

Lemma load_bytes_agree n : forall m m' a,
  mem_agree m m' a (a + Z.of_nat n) -> load_bytes m a n = load_bytes m' a n.
Proof.
  induction n as [|n IH]; intros m m' a H; simpl; [reflexivity|].
  rewrite (H a) by lia. f_equal. apply IH.
  intros a' Ha'. apply H. lia.
Qed.

Lemma load_word_agree m m' a : mem_agree m m' a (a + 8) -> load_word m a = load_word m' a.
Proof. intros H. unfold load_word. f_equal. apply load_bytes_agree. exact H. Qed.

Lemma mem_agree_refl m lo hi : mem_agree m m lo hi.
Proof. intros a _. reflexivity. Qed.

Lemma mem_agree_trans m1 m2 m3 lo hi :
  mem_agree m1 m2 lo hi -> mem_agree m2 m3 lo hi -> mem_agree m1 m3 lo hi.
Proof. intros H1 H2 a Ha. rewrite H1 by exact Ha. apply H2. exact Ha. Qed.

Lemma mem_agree_sub m m' lo hi lo' hi' :
  lo <= lo' -> hi' <= hi -> mem_agree m m' lo hi -> mem_agree m m' lo' hi'.
Proof. intros Hl Hh H a Ha. apply H. lia. Qed.

Lemma mem_agree_store_word m a v lo hi :
  hi <= a \/ a + 8 <= lo -> mem_agree m (store_word m a v) lo hi.
Proof.
  intros H x Hx. unfold store_word. symmetry.
  apply load8_store_bytes_other. simpl. lia.
Qed.

Lemma mem_agree_store8 m a b lo hi :
  a < lo \/ hi <= a -> mem_agree m (store8 m a b) lo hi.
Proof. intros H x Hx. symmetry. apply load8_store8_other. lia. Qed.

Lemma length_le_bytes n : forall v, length (le_bytes n v) = n.
Proof. induction n as [|n IH]; intros v; simpl; [reflexivity|]. rewrite IH. reflexivity. Qed.

Lemma le_bytes_mod n : forall v, map (fun b => b mod 256) (le_bytes n v) = le_bytes n v.
Proof.
  induction n as [|n IH]; intros v; simpl; [reflexivity|].
  rewrite Z.mod_mod by lia. rewrite IH. reflexivity.
Qed.

Lemma le_value_le_bytes n : forall v, le_value (le_bytes n v) = v mod 256 ^ Z.of_nat n.
Proof.
  induction n as [|n IH]; intros v.
  - simpl. rewrite Z.mod_1_r. reflexivity.
  - cbn [le_bytes le_value]. rewrite IH.
    rewrite Nat2Z.inj_succ, Z.pow_succ_r by lia.
    assert (Hp : 0 < 256 ^ Z.of_nat n) by (apply Z.pow_pos_nonneg; lia).
    rewrite (Z.rem_mul_r v 256 (256 ^ Z.of_nat n)) by lia. reflexivity.
Qed.

(** A stored word reads back. *)
Lemma load_word_store_word_same m a v : in_size_t v -> load_word (store_word m a v) a = v.
Proof.
  intros Hv. unfold load_word, store_word.
  pose proof (load_bytes_store_bytes_same (le_bytes 8 v) m a) as H.
  rewrite length_le_bytes in H. rewrite H, le_bytes_mod, le_value_le_bytes.
  apply Z.mod_small. exact Hv.
Qed.

(** A word is not changed by a word stored clear of it. *)
Lemma load_word_store_word_other m a v b :
  b + 8 <= a \/ a + 8 <= b -> load_word (store_word m a v) b = load_word m b.
Proof.
  intros H. symmetry. apply load_word_agree. apply mem_agree_store_word. lia.
Qed.

End MemoryFacts.

(** ** arena.h *)

Section ArenaFacts.

Import Arena.

Lemma arena_init_ok buf size a :
  in_size_t buf -> in_size_t size -> buf + size <= SIZE_MOD ->
  arena_init buf size = Some a -> arena_ok a /\ offset a = 0.
Proof.
  unfold arena_init. intros Hb Hs Hr H.
  destruct ((buf =? NULL) && (size >? 0)); [discriminate|].
  injection H as <-. unfold arena_ok, in_size_t in *; simpl. lia.
Qed.

(** What [arena__calc_aligned_offset] decides, in unbounded arithmetic. *)
Lemma calc_aligned_offset_spec cur k size cap :
  0 <= k < 64 -> in_size_t cur -> in_size_t size -> in_size_t cap ->
  arena__calc_aligned_offset cur (2 ^ k) size cap =
    if round_up cur (2 ^ k) + size <=? cap
    then Some (round_up cur (2 ^ k), round_up cur (2 ^ k) - cur)
    else None.
Proof.
  intros Hk Hcur Hsize Hcap.
  pose proof (pow2_lt_size k Hk) as Ha.
  pose proof (round_up_bounds cur (2 ^ k) ltac:(lia)) as Hr.
  unfold arena__calc_aligned_offset, arena__align_up.
  destruct (Z_lt_ge_dec (cur + 2 ^ k - 1) SIZE_MOD) as [Hno|Hwrap].
  - rewrite align_up_exact by (unfold in_size_t in *; lia).
    destruct (Z.ltb_spec (round_up cur (2 ^ k)) cur); [lia|].
    destruct (Z.gtb_spec (round_up cur (2 ^ k)) cap).
    { destruct (Z.leb_spec (round_up cur (2 ^ k) + size) cap);
        [unfold in_size_t in *; lia|reflexivity]. }
    unfold size_sub.
    rewrite !wrap_small by (unfold in_size_t in *; lia).
    destruct (Z.gtb_spec size (cap - round_up cur (2 ^ k)));
      destruct (Z.leb_spec (round_up cur (2 ^ k) + size) cap); try lia; reflexivity.
  - rewrite align_up_wrapped by (try assumption; lia).
    destruct (Z.ltb_spec 0 cur); [|unfold in_size_t in *; lia].
    destruct (Z.leb_spec (round_up cur (2 ^ k) + size) cap); [|reflexivity].
    exfalso.
    assert (SIZE_MOD <= round_up cur (2 ^ k)).
    { apply Z.nlt_ge. intros Hlt.
      assert (Hm : SIZE_MOD mod 2 ^ k = 0).
      { unfold SIZE_MOD, SIZE_BITS. replace 64 with ((64 - k) + k) by lia.
        rewrite Z.pow_add_r by lia. apply Z_mod_mult. }
      unfold round_up in *.
      apply Z.mod_divide in Hm as [q Hq]; [|lia].
      assert (q <= (cur + 2 ^ k - 1) / 2 ^ k).
      { apply Z.div_le_lower_bound; lia. }
      assert (q * 2 ^ k <= (cur + 2 ^ k - 1) / 2 ^ k * 2 ^ k).
      { apply Z.mul_le_mono_nonneg_r; lia. }
      lia. }
    unfold in_size_t in *. lia.
Qed.

(** One call of [arena__alloc] on a well-formed request. *)
Lemma arena__alloc_spec a size align :
  arena_ok a -> arena_req_ok (size, align) ->
  arena__alloc a size align =
    if size =? 0 then Done (ptr_add (buffer a) (offset a), a)
    else if round_up (offset a) align + size <=? capacity a
         then Done (buffer a + round_up (offset a) align,
                    mk_arena (buffer a) (capacity a)
                             (round_up (offset a) align + size) true)
         else Done (NULL, a).
Proof.
  intros (Hinit & Hb & Hc & Ho & Hr) (Hs & Hal & Hp). simpl in Hs, Hal, Hp.
  destruct (is_power_of_two_spec align Hal Hp) as (k & Hk & ->).
  unfold arena__alloc, arena__is_power_of_two, c_assert.
  rewrite Hinit, Hp. simpl.
  destruct (Z.eqb_spec size 0) as [|Hnz]; [reflexivity|].
  rewrite calc_aligned_offset_spec by assumption.
  pose proof (pow2_lt_size k Hk) as Ha.
  pose proof (round_up_bounds (offset a) (2 ^ k) ltac:(lia)) as Hru.
  destruct (Z.leb_spec (round_up (offset a) (2 ^ k) + size) (capacity a)); [|reflexivity].
  unfold ptr_add, size_add.
  rewrite !wrap_small by (unfold in_size_t in *; lia).
  reflexivity.
Qed.

Lemma arena__alloc_step a size align p a' :
  arena_ok a -> arena_req_ok (size, align) ->
  arena__alloc a size align = Done (p, a') ->
  arena_ok a' /\ buffer a' = buffer a /\ capacity a' = capacity a /\
  offset a <= offset a' /\
  (0 < size -> p <> NULL ->
     buffer a + offset a <= p /\ p + size = buffer a + offset a' /\
     (p - buffer a) mod align = 0).
Proof.
  intros Hok Hreq H. rewrite arena__alloc_spec in H by assumption.
  destruct Hok as (Hinit & Hb & Hc & Ho & Hr). destruct Hreq as (Hs & Hal & Hp).
  simpl in Hs, Hal, Hp.
  destruct (is_power_of_two_spec align Hal Hp) as (k & Hk & ->).
  pose proof (pow2_lt_size k Hk) as Ha.
  pose proof (round_up_bounds (offset a) (2 ^ k) ltac:(lia)) as Hru.
  destruct (Z.eqb_spec size 0) as [->|Hnz].
  { injection H as <- <-. unfold arena_ok, in_size_t in *.
    repeat split; try assumption; intros; lia. }
  destruct (Z.leb_spec (round_up (offset a) (2 ^ k) + size) (capacity a)).
  - injection H as <- <-. unfold arena_ok, in_size_t in *; simpl.
    repeat split; try assumption; try lia.
    replace (buffer a + round_up (offset a) (2 ^ k) - buffer a)
      with (round_up (offset a) (2 ^ k)) by lia.
    apply round_up_multiple. lia.
  - injection H as <- <-. unfold arena_ok, in_size_t, NULL in *.
    repeat split; try assumption; try lia; intros; congruence.
Qed.

End ArenaFacts.

(** ** arena.h: runs of allocations *)

Section ArenaRuns.

Import Arena.

Lemma arena_allocs_cons a size align reqs :
  arena_ok a -> arena_req_ok (size, align) ->
  exists p a', arena__alloc a size align = Done (p, a') /\
    arena_allocs a ((size, align) :: reqs) =
      ((p, size) :: fst (arena_allocs a' reqs), snd (arena_allocs a' reqs)).
Proof.
  intros Hok Hreq. pose proof (arena__alloc_spec a size align Hok Hreq) as Hs.
  assert (exists p a', arena__alloc a size align = Done (p, a')) as (p & a' & H).
  { rewrite Hs. destruct (size =? 0); [eauto|].
    destruct (_ <=? _); eauto. }
  exists p, a'. split; [exact H|]. simpl. rewrite H.
  destruct (arena_allocs a' reqs). reflexivity.
Qed.

(** Every block handed out by a run lies between the watermark before
    the run and the watermark after it. *)
Lemma arena_allocs_bounds reqs : forall a,
  arena_ok a -> Forall arena_req_ok reqs ->
  arena_ok (snd (arena_allocs a reqs)) /\
  buffer (snd (arena_allocs a reqs)) = buffer a /\
  offset a <= offset (snd (arena_allocs a reqs)) /\
  Forall (fun r => 0 < snd r -> fst r <> NULL ->
            buffer a + offset a <= fst r /\
            fst r + snd r <= buffer a + offset (snd (arena_allocs a reqs)))
         (fst (arena_allocs a reqs)).
Proof.
  induction reqs as [|[size align] reqs IH]; intros a Hok Hreqs.
  - simpl. split; [assumption|]. split; [reflexivity|]. split; [lia|]. constructor.
  - apply Forall_cons in Hreqs as [Hreq Hreqs].
    destruct (arena_allocs_cons a size align reqs Hok Hreq) as (p & a' & Hp & ->).
    destruct (arena__alloc_step a size align p a' Hok Hreq Hp)
      as (Hok' & Hb & Hc & Ho & Hblk).
    destruct (IH a' Hok' Hreqs) as (Hokf & Hbf & Hof & Hall).
    simpl. split; [assumption|]. split; [congruence|]. split; [lia|].
    constructor.
    + simpl. intros Hsz Hnn. destruct (Hblk Hsz Hnn) as (H1 & H2 & _). lia.
    + eapply Forall_impl; [exact Hall|]. intros [q n]; simpl.
      intros Hq Hn Hnn. specialize (Hq Hn Hnn). lia.
Qed.

(** Arena part of the non-overlap property: the earlier block ends
    before the later one starts. *)
Lemma arena_allocs_ordered reqs : forall a (i j : nat) p1 n1 p2 n2,
  arena_ok a -> Forall arena_req_ok reqs ->
  (i < j)%nat ->
  fst (arena_allocs a reqs) !! i = Some (p1, n1) ->
  fst (arena_allocs a reqs) !! j = Some (p2, n2) ->
  p1 <> NULL -> p2 <> NULL -> 0 < n1 -> 0 < n2 ->
  p1 + n1 <= p2.
Proof.
  induction reqs as [|[size align] reqs IH]; intros a i j p1 n1 p2 n2 Hok Hreqs Hij H1 H2.
  - simpl in H1. discriminate.
  - apply Forall_cons in Hreqs as [Hreq Hreqs].
    destruct (arena_allocs_cons a size align reqs Hok Hreq) as (p & a' & Hp & Heq).
    rewrite Heq in H1, H2. simpl in H1, H2.
    destruct (arena__alloc_step a size align p a' Hok Hreq Hp)
      as (Hok' & Hb & Hc & Ho & Hblk).
    destruct j as [|j]; [lia|]. simpl in H2.
    destruct i as [|i].
    + simpl in H1. injection H1 as -> ->. intros Hn1 Hn2 Hs1 Hs2.
      destruct (Hblk Hs1 Hn1) as (_ & Hend & _).
      destruct (arena_allocs_bounds reqs a' Hok' Hreqs) as (_ & _ & _ & Hall).
      rewrite Forall_forall in Hall.
      assert (Hin : (p2, n2) ∈ fst (arena_allocs a' reqs)).
      { apply list_elem_of_lookup. eauto. }
      specialize (Hall _ Hin Hs2 Hn2). simpl in Hall. lia.
    + simpl in H1. apply (IH a' i j); try assumption. lia.
Qed.

(** Arena part of the capacity-failure property. *)
Lemma arena__alloc_cannot_fit a size align :
  arena_ok a -> arena_req_ok (size, align) -> 0 < size ->
  arena_cannot_fit a size align ->
  arena__alloc a size align = Done (NULL, a).
Proof.
  intros Hok Hreq Hsz Hfit. rewrite arena__alloc_spec by assumption.
  destruct (Z.eqb_spec size 0); [lia|].
  unfold arena_cannot_fit in Hfit.
  destruct (Z.leb_spec (round_up (offset a) align + size) (capacity a)); [lia|reflexivity].
Qed.

(** Arena part of the alignment property: the offset from the base is
    aligned, the address is when the base is. *)
Lemma arena__alloc_aligned_offset a size align p a' :
  arena_ok a -> arena_req_ok (size, align) -> 0 < size ->
  arena__alloc a size align = Done (p, a') -> p <> NULL ->
  (p - buffer a) mod align = 0 /\ (buffer a mod align = 0 -> p mod align = 0).
Proof.
  intros Hok Hreq Hsz H Hnn.
  destruct (arena__alloc_step a size align p a' Hok Hreq H) as (_ & _ & _ & _ & Hblk).
  destruct (Hblk Hsz Hnn) as (_ & _ & Hmod). split; [exact Hmod|].
  intros Hbase. replace p with ((p - buffer a) + buffer a) by lia.
  rewrite Z.add_mod, Hmod, Hbase; [reflexivity|].
  destruct Hreq as (_ & Hal & Hp). simpl in *.
  destruct (is_power_of_two_spec align Hal Hp) as (k & Hk & ->).
  pose proof (pow2_lt_size k Hk). lia.
Qed.

End ArenaRuns.

(** ** stack.h *)

Section StackFacts.

Import Stack.

Lemma SIZE_MOD_multiple k : 0 <= k < 64 -> exists c, SIZE_MOD = c * 2 ^ k.
Proof.
  intros Hk. exists (2 ^ (64 - k)). unfold SIZE_MOD, SIZE_BITS.
  rewrite <- Z.pow_add_r by lia. f_equal. lia.
Qed.

(** Rounding a wrapped address agrees with rounding the address itself
    up to a multiple of [2^64]. *)
Lemma align_up_wrap_congr t k :
  0 <= k < 64 -> exists q, align_up (wrap t) (2 ^ k) = round_up t (2 ^ k) - q * SIZE_MOD.
Proof.
  intros Hk. rewrite align_up_pow2 by exact Hk.
  pose proof (pow2_lt_size k Hk) as Ha.
  destruct (SIZE_MOD_multiple k Hk) as (c & Hc).
  replace (wrap t + 2 ^ k - 1) with (wrap t + (2 ^ k - 1)) by lia.
  rewrite wrap_wrap_add.
  set (y := t + (2 ^ k - 1)).
  exists (y / SIZE_MOD).
  assert (Hw : wrap y = y - y / SIZE_MOD * SIZE_MOD).
  { unfold wrap. pose proof (Z.div_mod y SIZE_MOD). rewrite SIZE_MOD_val in *. lia. }
  assert (Hm : wrap y mod 2 ^ k = y mod 2 ^ k).
  { rewrite Hw, Hc. replace (y - y / (c * 2 ^ k) * (c * 2 ^ k))
      with (y + (- (y / (c * 2 ^ k)) * c) * 2 ^ k) by lia.
    apply Z_mod_plus_full. }
  rewrite Hm, Hw. unfold round_up.
  replace (t + 2 ^ k - 1) with y by (unfold y; lia).
  pose proof (Z.div_mod y (2 ^ k)). lia.
Qed.

Lemma stack_alignment_pow2 alignment :
  in_size_t alignment -> is_power_of_two (stack_alignment alignment) = true ->
  exists k, 3 <= k < 64 /\ stack_alignment alignment = 2 ^ k.
Proof.
  intros Hal Hp.
  assert (Hin : in_size_t (stack_alignment alignment)).
  { unfold stack_alignment, STACK_MIN_ALIGNMENT, WORD.
    destruct (alignment <? 8); [unfold in_size_t; rewrite SIZE_MOD_val; lia|exact Hal]. }
  destruct (is_power_of_two_spec _ Hin Hp) as (k & Hk & Heq).
  exists k. split; [|exact Heq]. split; [|lia].
  destruct (Z_lt_ge_dec k 3) as [Hlt|]; [exfalso|lia].
  assert (8 <= stack_alignment alignment).
  { unfold stack_alignment, STACK_MIN_ALIGNMENT, WORD.
    destruct (Z.ltb_spec alignment 8); lia. }
  assert (2 ^ k <= 2 ^ 2) by (apply Z.pow_le_mono_r; lia).
  rewrite Heq in *. change (2 ^ 2) with 4 in *. lia.
Qed.

(** One call of [stack_alloc_aligned] on a well-formed request. *)
Lemma stack_alloc_aligned_spec s m size alignment :
  stack_ok s -> stack_req_ok (size, alignment) ->
  stack_alloc_aligned s m size alignment =
    if size =? 0 then Done (NULL, s, m)
    else
      let u := stack_user_addr s alignment in
      if u - buffer s + size <=? capacity s
      then Done (u, mk_stack (buffer s) (capacity s) (u - buffer s + size),
                 store_word m (u - STACK_HEADER_SIZE) (offset s))
      else Done (NULL, s, m).
Proof.
  intros (Hb & Ho & Hr & Hc) (Hs & Hal & Hp). simpl in Hs, Hal, Hp.
  destruct (stack_alignment_pow2 alignment Hal Hp) as (k & Hk & Hk2).
  assert (Hk' : 0 <= k < 64) by lia.
  pose proof (pow2_lt_size k Hk') as Ha. pose proof (pow2_le_half k Hk') as Hh.
  unfold stack_alloc_aligned, c_assert, stack__is_power_of_two.
  destruct (Z.eqb_spec (buffer s) NULL) as [E|_]; [unfold NULL in E; lia|]. simpl.
  destruct (Z.eqb_spec size 0) as [|Hnz]; [reflexivity|].
  fold (stack_alignment alignment). rewrite Hp.
  fold (align_up (ptr_add (ptr_add (buffer s) (offset s)) STACK_HEADER_SIZE)
                 (stack_alignment alignment)).
  unfold stack_user_addr. rewrite Hk2.
  set (t := buffer s + offset s + STACK_HEADER_SIZE).
  assert (Ht : ptr_add (ptr_add (buffer s) (offset s)) STACK_HEADER_SIZE = wrap t).
  { unfold ptr_add. rewrite wrap_wrap_add. reflexivity. }
  rewrite Ht. destruct (align_up_wrap_congr t k Hk') as (q & ->).
  pose proof (round_up_bounds t (2 ^ k) ltac:(lia)) as Hru.
  set (u := round_up t (2 ^ k)) in *.
  unfold STACK_HEADER_SIZE, WORD, PTRDIFF_MAX in *. unfold t in Hru.
  assert (Huo : size_sub (u - q * SIZE_MOD) (buffer s) = u - buffer s).
  { unfold size_sub. rewrite (wrap_shift _ q); [lia|].
    unfold in_size_t. rewrite SIZE_MOD_val in *. lia. }
  rewrite Huo. cbv zeta.
  unfold size_add. unfold in_size_t in *.
  destruct (Z_lt_ge_dec (u - buffer s + size) SIZE_MOD) as [Hsmall|Hbig].
  - rewrite (wrap_small (u - buffer s + size)) by (unfold in_size_t; lia).
    destruct (Z.ltb_spec (u - buffer s + size) (u - buffer s)); [lia|]. simpl.
    destruct (Z.gtb_spec (u - buffer s + size) (capacity s));
      destruct (Z.leb_spec (u - buffer s + size) (capacity s)); try lia; [reflexivity|].
    unfold ptr_add, stack__get_header, STACK_HEADER_SIZE, WORD.
    replace (buffer s + (u - buffer s)) with u by lia.
    rewrite !wrap_small by (unfold in_size_t; lia). reflexivity.
  - rewrite (wrap_above (u - buffer s + size)) by (rewrite SIZE_MOD_val in *; lia).
    destruct (Z.ltb_spec (u - buffer s + size - SIZE_MOD) (u - buffer s)); [|lia]. simpl.
    destruct (Z.leb_spec (u - buffer s + size) (capacity s)); [lia|reflexivity].
Qed.

Lemma stack_alloc_aligned_step s m size alignment p s' m' :
  stack_ok s -> stack_req_ok (size, alignment) ->
  stack_alloc_aligned s m size alignment = Done (p, s', m') ->
  p <> NULL ->
  stack_ok s' /\ buffer s' = buffer s /\ capacity s' = capacity s /\
  0 < size /\
  buffer s + offset s + STACK_HEADER_SIZE <= p /\
  p + size = buffer s + offset s' /\
  p mod stack_alignment alignment = 0 /\
  m' = store_word m (p - STACK_HEADER_SIZE) (offset s).
Proof.
  intros Hok Hreq H Hnn. rewrite stack_alloc_aligned_spec in H by assumption.
  destruct Hok as (Hb & Ho & Hr & Hc). destruct Hreq as (Hs & Hal & Hp).
  simpl in Hs, Hal, Hp.
  destruct (stack_alignment_pow2 alignment Hal Hp) as (k & Hk & Hk2).
  pose proof (pow2_lt_size k ltac:(lia)) as Ha.
  destruct (Z.eqb_spec size 0); [injection H as <- _ _; congruence|].
  cbv zeta in H.
  destruct (Z.leb_spec (stack_user_addr s alignment - buffer s + size) (capacity s));
    [|injection H as <- _ _; congruence].
  injection H as <- <- <-.
  pose proof (round_up_bounds (buffer s + offset s + STACK_HEADER_SIZE)
                (stack_alignment alignment) ltac:(lia)) as Hru.
  fold (stack_user_addr s alignment) in Hru.
  unfold stack_ok, in_size_t, STACK_HEADER_SIZE, WORD in *. simpl.
  repeat split; try lia.
  unfold stack_user_addr. apply round_up_multiple. lia.
Qed.

End StackFacts.

(** ** stack.h: runs of allocations and frees *)

Section StackRuns.

Import Stack.

Lemma stack_alloc_aligned_null s m size alignment s' m' :
  stack_ok s -> stack_req_ok (size, alignment) ->
  stack_alloc_aligned s m size alignment = Done (NULL, s', m') ->
  s' = s /\ m' = m.
Proof.
  intros Hok Hreq H. rewrite stack_alloc_aligned_spec in H by assumption.
  destruct (size =? 0); [injection H as <- <-; auto|].
  cbv zeta in H. destruct (_ <=? _); [|injection H as <- <-; auto].
  exfalso. injection H as Hu _ _.
  destruct Hok as (Hb & Ho & Hr & Hc). destruct Hreq as (Hs & Hal & Hp).
  simpl in Hal, Hp.
  destruct (stack_alignment_pow2 alignment Hal Hp) as (k & Hk & Hk2).
  pose proof (pow2_lt_size k ltac:(lia)) as Ha.
  pose proof (round_up_bounds (buffer s + offset s + STACK_HEADER_SIZE)
                (stack_alignment alignment) ltac:(lia)) as Hru.
  fold (stack_user_addr s alignment) in Hru.
  unfold NULL, STACK_HEADER_SIZE, WORD in *. lia.
Qed.

(** The alignment property needs nothing of the region: whatever address
    comes back was produced by the masking expression. *)
Lemma stack_alloc_aligned_multiple s m size alignment p s' m' :
  in_size_t alignment -> is_power_of_two (stack_alignment alignment) = true ->
  stack_alloc_aligned s m size alignment = Done (p, s', m') -> p <> NULL ->
  p mod stack_alignment alignment = 0.
Proof.
  intros Hal Hp H Hnn.
  destruct (stack_alignment_pow2 alignment Hal Hp) as (k & Hk & Hk2).
  assert (Hk' : 0 <= k < 64) by lia.
  unfold stack_alloc_aligned, c_assert, stack__is_power_of_two in H.
  destruct (negb (buffer s =? NULL)); [|discriminate].
  destruct (size =? 0); [injection H as <- _ _; congruence|].
  fold (stack_alignment alignment) in H. rewrite Hp in H.
  fold (align_up (ptr_add (ptr_add (buffer s) (offset s)) STACK_HEADER_SIZE)
                 (stack_alignment alignment)) in H.
  cbv zeta in H. destruct (_ || _); [injection H as <- _ _; congruence|].
  injection H as <- _ _. rewrite Hk2 in *.
  set (x := align_up _ (2 ^ k)).
  assert (Hx : in_size_t x) by (apply align_up_in_size_t; exact Hk').
  unfold ptr_add, size_sub.
  rewrite Z.add_comm, wrap_wrap_add.
  replace (x - buffer s + buffer s) with x by lia.
  rewrite wrap_small by exact Hx. apply align_up_multiple. exact Hk'.
Qed.

Lemma stack_allocs_cons s m size alignment reqs res fin mfin :
  stack_allocs s m ((size, alignment) :: reqs) = Done (res, fin, mfin) ->
  exists p s1 m1 res',
    stack_alloc_aligned s m size alignment = Done (p, s1, m1) /\
    stack_allocs s1 m1 reqs = Done (res', fin, mfin) /\
    res = (p, size) :: res'.
Proof.
  cbn [stack_allocs]. unfold obind.
  destruct (stack_alloc_aligned s m size alignment) as [[[p s1] m1]|]; [|discriminate].
  destruct (stack_allocs s1 m1 reqs) as [[[res' fin'] mfin']|] eqn:E; [|discriminate].
  intros H. injection H as <- <- <-. exists p, s1, m1, res'. repeat split; reflexivity || exact E.
Qed.

Lemma stack_frees_app l1 : forall s m l2,
  stack_frees s m (l1 ++ l2) =
  obind (stack_frees s m l1) (fun s' => stack_frees s' m l2).
Proof.
  induction l1 as [|p l1 IH]; intros s m l2; simpl; [reflexivity|].
  destruct (stack_free s m p); simpl; [apply IH|reflexivity].
Qed.

(** Blocks handed out by a run lie between the two watermarks, and the
    run leaves the bytes below the first watermark alone. *)
Lemma stack_allocs_bounds reqs : forall s m res fin mfin,
  stack_ok s -> Forall stack_req_ok reqs ->
  stack_allocs s m reqs = Done (res, fin, mfin) ->
  stack_ok fin /\ buffer fin = buffer s /\ capacity fin = capacity s /\
  offset s <= offset fin /\
  (forall lo, mem_agree m mfin lo (buffer s + offset s)) /\
  Forall (fun r => fst r <> NULL ->
            0 < snd r /\
            buffer s + offset s + STACK_HEADER_SIZE <= fst r /\
            fst r + snd r <= buffer s + offset fin) res.
Proof.
  induction reqs as [|[size alignment] reqs IH]; intros s m res fin mfin Hok Hreqs H.
  - simpl in H. injection H as <- <- <-.
    split; [assumption|]. split; [reflexivity|]. split; [reflexivity|].
    split; [lia|]. split; [intros lo; apply mem_agree_refl|constructor].
  - apply Forall_cons in Hreqs as [Hreq Hreqs].
    apply stack_allocs_cons in H as (p & s1 & m1 & res' & Hp & Hrest & ->).
    destruct (Z.eq_dec p NULL) as [->|Hnn].
    + destruct (stack_alloc_aligned_null s m size alignment s1 m1 Hok Hreq Hp) as [-> ->].
      destruct (IH s m res' fin mfin Hok Hreqs Hrest) as (Hf & Hb & Hc & Ho & Hm & Hall).
      split; [assumption|]. split; [assumption|]. split; [assumption|].
      split; [assumption|]. split; [assumption|].
      constructor; [simpl; congruence|exact Hall].
    + destruct (stack_alloc_aligned_step s m size alignment p s1 m1 Hok Hreq Hp Hnn)
        as (Hok1 & Hb1 & Hc1 & Hsz & Hlo & Hhi & _ & Hm1).
      destruct (IH s1 m1 res' fin mfin Hok1 Hreqs Hrest) as (Hf & Hb & Hc & Ho & Hm & Hall).
      unfold STACK_HEADER_SIZE, WORD in *.
      split; [assumption|]. split; [congruence|]. split; [congruence|].
      split; [lia|]. split; [|constructor].
      * intros lo. apply (mem_agree_trans _ m1).
        -- subst m1. apply mem_agree_store_word. lia.
        -- eapply mem_agree_sub; [| |apply (Hm lo)]; lia.
      * simpl. intros _. lia.
      * eapply Forall_impl; [exact Hall|]. intros [q n]; simpl.
        intros Hq Hqn. specialize (Hq Hqn). lia.
Qed.

(** Stack part of the non-overlap property. *)
Lemma stack_allocs_ordered reqs : forall s m res fin mfin (i j : nat) p1 n1 p2 n2,
  stack_ok s -> Forall stack_req_ok reqs ->
  stack_allocs s m reqs = Done (res, fin, mfin) ->
  (i < j)%nat ->
  res !! i = Some (p1, n1) -> res !! j = Some (p2, n2) ->
  p1 <> NULL -> p2 <> NULL ->
  p1 + n1 <= p2.
Proof.
  induction reqs as [|[size alignment] reqs IH];
    intros s m res fin mfin i j p1 n1 p2 n2 Hok Hreqs H Hij H1 H2 Hn1 Hn2.
  - simpl in H. injection H as <- _ _. discriminate.
  - apply Forall_cons in Hreqs as [Hreq Hreqs].
    apply stack_allocs_cons in H as (p & s1 & m1 & res' & Hp & Hrest & ->).
    destruct j as [|j]; [lia|]. simpl in H2.
    assert (Hok1 : stack_ok s1).
    { destruct (Z.eq_dec p NULL) as [->|Hnn].
      - destruct (stack_alloc_aligned_null _ _ _ _ _ _ Hok Hreq Hp) as [-> _]. exact Hok.
      - apply (stack_alloc_aligned_step _ _ _ _ _ _ _ Hok Hreq Hp Hnn). }
    destruct i as [|i].
    + simpl in H1. injection H1 as -> ->.
      destruct (stack_alloc_aligned_step _ _ _ _ _ _ _ Hok Hreq Hp Hn1)
        as (_ & Hb1 & _ & _ & _ & Hhi & _).
      destruct (stack_allocs_bounds reqs s1 m1 res' fin mfin Hok1 Hreqs Hrest)
        as (_ & _ & _ & _ & _ & Hall).
      rewrite Forall_forall in Hall.
      assert (Hin : (p2, n2) ∈ res') by (apply list_elem_of_lookup; eauto).
      specialize (Hall _ Hin Hn2). simpl in Hall.
      unfold STACK_HEADER_SIZE, WORD in *. lia.
    + simpl in H1. apply (IH s1 m1 res' fin mfin i j p1 n1 p2 n2); try assumption. lia.
Qed.

(** Freeing the blocks of a run, last first, walks the watermark back
    through the headers to where the run started, whatever the client
    wrote into the blocks meanwhile. *)
Lemma stack_frees_unwind reqs : forall s m res fin mfin m',
  stack_ok s -> Forall stack_req_ok reqs ->
  stack_allocs s m reqs = Done (res, fin, mfin) ->
  Forall (fun r => fst r <> NULL) res ->
  Forall (fun r => mem_agree mfin m' (fst r - STACK_HEADER_SIZE) (fst r)) res ->
  stack_frees fin m' (rev (map fst res)) = Done s.
Proof.
  induction reqs as [|[size alignment] reqs IH];
    intros s m res fin mfin m' Hok Hreqs H Hnn Hhdr.
  - simpl in H. injection H as <- <- <-. reflexivity.
  - apply Forall_cons in Hreqs as [Hreq Hreqs].
    apply stack_allocs_cons in H as (p & s1 & m1 & res' & Hp & Hrest & ->).
    apply Forall_cons in Hnn as [Hpn Hnn]. apply Forall_cons in Hhdr as [Hph Hhdr].
    simpl in Hpn, Hph.
    destruct (stack_alloc_aligned_step s m size alignment p s1 m1 Hok Hreq Hp Hpn)
      as (Hok1 & Hb1 & Hc1 & Hsz & Hlo & Hhi & _ & Hm1).
    destruct (stack_allocs_bounds reqs s1 m1 res' fin mfin Hok1 Hreqs Hrest)
      as (_ & _ & _ & Hof & Hm & _).
    simpl. rewrite stack_frees_app.
    rewrite (IH s1 m1 res' fin mfin m' Hok1 Hreqs Hrest Hnn Hhdr). simpl.
    destruct Hok as (Hb & Ho & Hr & Hc). destruct Hok1 as (_ & Ho1 & _ & _).
    unfold stack_free, c_assert, stack__get_header, ptr_add, STACK_HEADER_SIZE, WORD in *.
    destruct (Z.eqb_spec p NULL); [contradiction|].
    rewrite Hb1, Hc1.
    rewrite (wrap_small (buffer s + capacity s)) by (unfold in_size_t; lia).
    destruct (Z.geb_spec p (buffer s)); [|lia].
    destruct (Z.ltb_spec p (buffer s + capacity s)); [|lia]. simpl.
    rewrite (wrap_small (p - 8)) by (unfold in_size_t; lia).
    assert (Hload : load_word m' (p - 8) = offset s).
    { rewrite <- (load_word_agree mfin m' (p - 8)).
      2:{ replace (p - 8 + 8) with p by lia. exact Hph. }
      rewrite <- (load_word_agree m1 mfin (p - 8)).
      2:{ eapply mem_agree_sub; [| |apply (Hm (p - 8))]; lia. }
      subst m1. apply load_word_store_word_same.
      unfold in_size_t. lia. }
    rewrite Hload.
    destruct (Z.leb_spec (offset s) (offset s1)); [|lia].
    destruct s; reflexivity.
Qed.

(** Stack part of the capacity-failure property. *)
Lemma stack_alloc_aligned_cannot_fit s m size alignment :
  stack_ok s -> stack_req_ok (size, alignment) ->
  stack_cannot_fit s size alignment ->
  stack_alloc_aligned s m size alignment = Done (NULL, s, m).
Proof.
  intros Hok Hreq Hfit. rewrite stack_alloc_aligned_spec by assumption.
  destruct (size =? 0); [reflexivity|]. cbv zeta.
  unfold stack_cannot_fit in Hfit.
  destruct (Z.leb_spec (stack_user_addr s alignment - buffer s + size) (capacity s));
    [lia|reflexivity].
Qed.

End StackRuns.

(** ** Slots and free-list chains *)

Section SlotFacts.

Lemma in_slot_addrs base size first count p :
  In p (slot_addrs base size first count) <->
  exists j : nat, (first <= j < first + count)%nat /\ p = base + Z.of_nat j * size.
Proof.
  unfold slot_addrs. rewrite in_map_iff. split.
  - intros (j & <- & Hj). apply in_seq in Hj. eauto.
  - intros (j & Hj & ->). exists j. split; [reflexivity|]. apply in_seq. exact Hj.
Qed.

Lemma slot_addrs_cons base size first count :
  slot_addrs base size first (S count) =
  (base + Z.of_nat first * size) :: slot_addrs base size (S first) count.
Proof. reflexivity. Qed.

Lemma length_slot_addrs base size first count :
  length (slot_addrs base size first count) = count.
Proof. unfold slot_addrs. rewrite length_map, length_seq. reflexivity. Qed.

Lemma NoDup_slot_addrs base size first count :
  0 < size -> List.NoDup (slot_addrs base size first count).
Proof.
  intros Hs. unfold slot_addrs. apply Finite.Injective_map_NoDup.
  - intros i j H. nia.
  - apply seq_NoDup.
Qed.

(** Two different slots are at least a slot apart. *)
Lemma slots_apart base size first count p q :
  0 < size -> In p (slot_addrs base size first count) ->
  In q (slot_addrs base size first count) -> p <> q ->
  p + size <= q \/ q + size <= p.
Proof.
  intros Hs Hp Hq Hne.
  apply in_slot_addrs in Hp as (i & _ & ->). apply in_slot_addrs in Hq as (j & _ & ->).
  assert (i <> j) by congruence. nia.
Qed.

Lemma chain_agree l : forall m m' head,
  chain m head l ->
  (forall q, In q l -> mem_agree m m' q (q + 8)) ->
  chain m' head l.
Proof.
  induction l as [|p l IH]; intros m m' head H Hag; simpl in *; [exact H|].
  destruct H as (Hh & Hp & Hc). repeat split; try assumption.
  rewrite <- (load_word_agree m m' p) by (apply Hag; left; reflexivity).
  apply (IH m); [exact Hc|]. intros q Hq. apply Hag. right. exact Hq.
Qed.

Lemma chain_nil_iff m head : chain m head [] <-> head = NULL.
Proof. reflexivity. Qed.

Lemma chain_head_null m l : chain m NULL l -> l = [].
Proof. destruct l as [|p l]; [reflexivity|]. simpl. intros (<- & Hp & _). congruence. Qed.

Lemma chain_head_nonnull m head l :
  chain m head l -> head <> NULL -> exists l', l = head :: l' /\ chain m (load_word m head) l'.
Proof.
  destruct l as [|p l]; simpl; [congruence|].
  intros (-> & _ & Hc) _. eauto.
Qed.

End SlotFacts.

(** ** pool.h: initialisation *)

Section PoolFacts.

Import Pool.

Lemma pool__slot_ptr_exact pool (i : nat) :
  0 < buffer pool -> 0 <= slot_size pool ->
  buffer pool + slot_count pool * slot_size pool < SIZE_MOD ->
  Z.of_nat i <= slot_count pool ->
  pool__slot_ptr pool (Z.of_nat i) = buffer pool + Z.of_nat i * slot_size pool.
Proof.
  intros Hb Hs Hfit Hi. unfold pool__slot_ptr, ptr_add, size_mul.
  assert (Z.of_nat i * slot_size pool <= slot_count pool * slot_size pool)
    by (apply Z.mul_le_mono_nonneg_r; lia).
  assert (0 <= Z.of_nat i * slot_size pool) by (apply Z.mul_nonneg_nonneg; lia).
  rewrite (wrap_small (Z.of_nat i * slot_size pool)) by (unfold in_size_t; lia).
  apply wrap_small. unfold in_size_t. lia.
Qed.

(** The construction loop threads the slots in ascending order. *)
Lemma build_free_list_loop_chain pool :
  0 < buffer pool -> 8 <= slot_size pool -> 0 <= slot_count pool ->
  buffer pool + slot_count pool * slot_size pool < SIZE_MOD ->
  forall (i : nat) head m,
    (i <= Z.to_nat (slot_count pool))%nat -> in_size_t head ->
    chain m head (slot_addrs (buffer pool) (slot_size pool) i
                             (Z.to_nat (slot_count pool) - i)) ->
    chain (snd (build_free_list_loop pool i head m))
          (fst (build_free_list_loop pool i head m))
          (pool_slots pool).
Proof.
  intros Hb Hs Hn Hfit. unfold pool_slots.
  induction i as [|i IH]; intros head m Hi Hh Hc.
  - simpl. rewrite Nat.sub_0_r in Hc. exact Hc.
  - cbn [build_free_list_loop].
    rewrite pool__slot_ptr_exact by (try assumption; lia).
    set (slot := buffer pool + Z.of_nat i * slot_size pool).
    assert (Hslot : in_size_t slot) by (unfold in_size_t, slot; nia).
    apply IH; [lia|exact Hslot|].
    replace (Z.to_nat (slot_count pool) - i)%nat
      with (S (Z.to_nat (slot_count pool) - S i)) by lia.
    rewrite slot_addrs_cons. fold slot. cbn [chain].
    split; [reflexivity|]. split; [unfold NULL, slot; nia|].
    rewrite load_word_store_word_same by exact Hh.
    apply (chain_agree _ m); [exact Hc|].
    intros q Hq. apply mem_agree_store_word. right.
    apply in_slot_addrs in Hq as (j & Hj & ->). unfold slot. nia.
Qed.

(** A successful [pool_init] establishes the invariant with no live
    slot. *)
Lemma pool_init_inv pool0 m0 buf size slot_sz s m :
  region_ok buf size -> in_size_t size -> in_size_t slot_sz ->
  pool_init pool0 m0 buf size slot_sz = Done (POOL_OK, s, m) ->
  pool_inv s m [].
Proof.
  intros (Hb & Hs0 & Hr) Hsz Hss H. unfold pool_init in H.
  destruct (buf =? NULL); [discriminate|].
  destruct (Z.eqb_spec slot_sz 0); [discriminate|].
  change (negb (size_and POOL_ALIGN (size_sub POOL_ALIGN 1) =? 0)) with false in H.
  cbv iota zeta in H.
  unfold pool__align_up, pool__align_ptr, POOL_ALIGN, WORD in H.
  change 8 with (2 ^ 3) in H.
  set (eff0 := if slot_sz <? 2 ^ 3 then 2 ^ 3 else slot_sz) in *.
  assert (He0 : 8 <= eff0 < SIZE_MOD).
  { unfold eff0. change (2 ^ 3) with 8. unfold in_size_t in Hss.
    destruct (Z.ltb_spec slot_sz 8); rewrite SIZE_MOD_val in *; lia. }
  destruct (Z.geb_spec (ptr_diff (align_up buf (2 ^ 3)) buf) size) as [|Hov];
    [discriminate|].
  destruct (Z_lt_ge_dec (buf + 2 ^ 3 - 1) SIZE_MOD) as [Hbn|Hbw].
  2:{ exfalso. rewrite align_up_wrapped in Hov
        by (unfold in_size_t; rewrite ?SIZE_MOD_val in *; lia).
      unfold ptr_diff in Hov. rewrite wrap_below in Hov; lia. }
  rewrite (align_up_exact buf 3) in H, Hov by lia.
  pose proof (round_up_bounds buf (2 ^ 3) ltac:(lia)) as Hru.
  pose proof (round_up_multiple buf (2 ^ 3) ltac:(lia)) as Hrm.
  set (start := round_up buf (2 ^ 3)) in *. change (2 ^ 3) with 8 in Hru, Hbn.
  assert (Hd : ptr_diff start buf = start - buf).
  { unfold ptr_diff. apply wrap_small. unfold in_size_t. lia. }
  rewrite Hd in H, Hov.
  assert (Hu : size_sub size (start - buf) = size - (start - buf)).
  { unfold size_sub. apply wrap_small. unfold in_size_t in *. lia. }
  rewrite Hu in H.
  destruct (Z_lt_ge_dec (eff0 + 2 ^ 3 - 1) SIZE_MOD) as [Hen|Hew].
  2:{ rewrite (align_up_wrapped eff0 3) in H by (unfold in_size_t; lia). discriminate. }
  rewrite (align_up_exact eff0 3) in H by lia.
  pose proof (round_up_bounds eff0 (2 ^ 3) ltac:(lia)) as Heu.
  set (eff := round_up eff0 (2 ^ 3)) in *. change (2 ^ 3) with 8 in Heu, Hen.
  destruct (Z.eqb_spec eff 0); [lia|].
  set (usable := size - (start - buf)) in *.
  destruct (Z.eqb_spec (usable / eff) 0) as [|Hcnt]; [discriminate|].
  set (cnt := usable / eff) in *.
  assert (Hcnt' : 0 < cnt /\ cnt * eff <= usable).
  { pose proof (Z.div_mod usable eff ltac:(lia)).
    pose proof (Z.mod_pos_bound usable eff ltac:(lia)).
    assert (0 <= cnt) by (apply Z.div_pos; unfold usable; lia).
    fold cnt in H0. split; nia. }
  assert (Hm : size_mul cnt eff = cnt * eff).
  { unfold size_mul. apply wrap_small. unfold in_size_t, usable in *. lia. }
  assert (He : ptr_add start (cnt * eff) = start + cnt * eff).
  { unfold ptr_add. apply wrap_small. unfold in_size_t, usable in *. lia. }
  rewrite Hm, He in H. unfold pool__build_free_list in H. cbn [slot_count] in H.
  set (pool := mk_pool start (start + cnt * eff) (free_list pool_zero) eff cnt
                       (free_count pool_zero)) in *.
  pose proof (build_free_list_loop_chain pool) as Hloop. cbn [buffer slot_size slot_count pool] in Hloop.
  specialize (Hloop ltac:(lia) ltac:(lia) ltac:(lia) ltac:(unfold usable in *; lia)
                    (Z.to_nat cnt) NULL m0 ltac:(lia)
                    ltac:(unfold in_size_t, NULL; rewrite SIZE_MOD_val; lia)).
  rewrite Nat.sub_diag in Hloop. specialize (Hloop eq_refl).
  destruct (build_free_list_loop pool (Z.to_nat cnt) NULL m0) as [head m'].
  cbn [buffer buffer_end slot_size slot_count pool] in H.
  injection H as <- <-. simpl in Hloop.
  split.
  - unfold pool_layout_ok; simpl. unfold usable in *. lia.
  - exists (pool_slots pool). simpl. split; [exact Hloop|]. split.
    + rewrite app_nil_r. apply Permutation_refl.
    + unfold pool_slots. rewrite length_slot_addrs. simpl. lia.
Qed.

End PoolFacts.

(** ** pool.h: the invariant is kept *)

Section PoolSteps.

Import Pool.

Lemma NoDup_app_disjoint (l1 l2 : list Z) a :
  List.NoDup (l1 ++ l2) -> In a l1 -> In a l2 -> False.
Proof.
  intros Hnd H1 H2. apply in_split in H2 as (l2a & l2b & ->).
  rewrite app_assoc in Hnd. apply NoDup_remove_2 in Hnd.
  apply Hnd. apply in_or_app. left. apply in_or_app. left. exact H1.
Qed.

Lemma in_pool_slots s p :
  0 <= slot_count s ->
  In p (pool_slots s) <->
  exists j, 0 <= j < slot_count s /\ p = buffer s + j * slot_size s.
Proof.
  intros Hn. unfold pool_slots. rewrite in_slot_addrs. split.
  - intros (j & Hj & ->). exists (Z.of_nat j). split; [lia|reflexivity].
  - intros (j & Hj & ->). exists (Z.to_nat j). split; [lia|].
    rewrite Z2Nat.id by lia. reflexivity.
Qed.

Lemma pool_slot_range s p :
  pool_layout_ok s -> In p (pool_slots s) ->
  buffer s <= p /\ p + slot_size s <= buffer_end s.
Proof.
  intros (Hb & Hs & Hn & He & Hfit) Hp.
  apply in_pool_slots in Hp as (j & Hj & ->); [|lia]. rewrite He. nia.
Qed.

(** [pool_owns] recognises exactly the slot addresses. *)
Lemma pool_owns_spec s p :
  pool_layout_ok s -> in_size_t p ->
  pool_owns s p = true <-> In p (pool_slots s).
Proof.
  intros Hl Hp. pose proof Hl as (Hb & Hs & Hn & He & Hfit).
  rewrite in_pool_slots by lia. unfold pool_owns, ptr_diff, NULL.
  split.
  - destruct (Z.eqb_spec p 0); [discriminate|].
    destruct (Z.ltb_spec p (buffer s)); [discriminate|].
    destruct (Z.geb_spec p (buffer_end s)); [discriminate|]. simpl.
    rewrite wrap_small by (unfold in_size_t in *; lia).
    destruct (Z.eqb_spec ((p - buffer s) mod slot_size s) 0) as [Hm|]; [|discriminate].
    intros _. exists ((p - buffer s) / slot_size s).
    pose proof (Z.div_mod (p - buffer s) (slot_size s) ltac:(lia)) as Hdm.
    rewrite Hm in Hdm.
    assert (0 <= (p - buffer s) / slot_size s) by (apply Z.div_pos; lia).
    split; [|lia]. split; [lia|].
    apply Z.div_lt_upper_bound; lia.
  - intros (j & Hj & ->).
    assert (j * slot_size s < slot_count s * slot_size s)
      by (apply Z.mul_lt_mono_pos_r; lia).
    assert (0 <= j * slot_size s) by (apply Z.mul_nonneg_nonneg; lia).
    destruct (Z.eqb_spec (buffer s + j * slot_size s) 0); [lia|].
    destruct (Z.ltb_spec (buffer s + j * slot_size s) (buffer s)); [lia|].
    destruct (Z.geb_spec (buffer s + j * slot_size s) (buffer_end s)); [lia|]. simpl.
    replace (buffer s + j * slot_size s - buffer s) with (j * slot_size s) by lia.
    rewrite wrap_small by (unfold in_size_t; lia).
    rewrite Z_mod_mult. reflexivity.
Qed.

Lemma pool_inv_facts s m live :
  pool_inv s m live ->
  List.NoDup live /\ (forall p, In p live -> In p (pool_slots s)) /\
  Z.of_nat (length live) <= slot_count s.
Proof.
  intros (Hl & fl & Hc & Hperm & Hfc). pose proof Hl as (Hb & Hs & Hn & He & Hfit).
  assert (Hnd : List.NoDup (fl ++ live)).
  { apply (Permutation_NoDup (Permutation_sym Hperm)).
    apply NoDup_slot_addrs. lia. }
  split; [apply NoDup_app_remove_l in Hnd; exact Hnd|]. split.
  - intros p Hp. apply (Permutation_in _ Hperm). apply in_or_app. right. exact Hp.
  - apply Permutation_length in Hperm. unfold pool_slots in Hperm.
    rewrite length_app, length_slot_addrs in Hperm. lia.
Qed.

Lemma pool_alloc_null s m s' : pool_alloc s m = (NULL, s') -> s' = s.
Proof.
  unfold pool_alloc. destruct (Z.eqb_spec (free_list s) NULL) as [|Hne].
  - intros H. injection H as <-. reflexivity.
  - intros H. injection H as Hp _. contradiction.
Qed.

(** [pool_alloc] moves the head of the free list to the live slots. *)
Lemma pool_alloc_inv s m live p s' :
  pool_inv s m live -> pool_alloc s m = (p, s') -> p <> NULL ->
  pool_inv s' m (p :: live) /\ pool_slots s' = pool_slots s /\
  slot_size s' = slot_size s.
Proof.
  intros (Hl & fl & Hc & Hperm & Hfc) H Hnn. unfold pool_alloc in H.
  destruct (Z.eqb_spec (free_list s) NULL) as [|Hne];
    [injection H as <- _; contradiction|].
  injection H as <- <-.
  destruct (chain_head_nonnull m _ fl Hc Hne) as (fl' & -> & Hc').
  split; [|split; reflexivity].
  split; [exact Hl|]. exists fl'. cbn [free_list free_count].
  split; [exact Hc'|]. split.
  - apply (Permutation_trans (Permutation_sym (Permutation_middle fl' live (free_list s)))).
    exact Hperm.
  - rewrite Hfc. simpl length. unfold size_sub.
    pose proof Hl as (Hb & Hs & Hn & He & Hfit).
    apply Permutation_length in Hperm. unfold pool_slots in Hperm.
    rewrite length_app, length_slot_addrs in Hperm. simpl length in Hperm.
    rewrite wrap_small; [lia|]. unfold in_size_t. nia.
Qed.

Lemma chain_head_in_size_t s m live fl :
  pool_layout_ok s -> chain m (free_list s) fl ->
  Permutation (fl ++ live) (pool_slots s) -> in_size_t (free_list s).
Proof.
  intros Hl Hc Hperm. destruct fl as [|q fl]; simpl in Hc.
  - rewrite Hc. unfold in_size_t, NULL. rewrite SIZE_MOD_val. lia.
  - destruct Hc as (-> & _ & _).
    assert (Hq : In q (pool_slots s)).
    { apply (Permutation_in _ Hperm). left. reflexivity. }
    pose proof (pool_slot_range s q Hl Hq). destruct Hl as (Hb & Hs & Hn & He & Hfit).
    unfold in_size_t. lia.
Qed.

(** [pool_free] of a live slot succeeds and puts it at the head of the
    free list. *)
Lemma pool_free_inv s m live live' p e s' m' :
  pool_inv s m live -> Permutation live (p :: live') ->
  pool_free s m p = (e, s', m') ->
  e = POOL_OK /\ pool_inv s' m' live' /\ pool_slots s' = pool_slots s /\
  slot_size s' = slot_size s.
Proof.
  intros Hinv Hlive H. pose proof (pool_inv_facts s m live Hinv) as (Hnd & Hsl & _).
  destruct Hinv as (Hl & fl & Hc & Hperm & Hfc).
  pose proof Hl as (Hb & Hs & Hn & He & Hfit).
  assert (Hpl : In p live).
  { apply (Permutation_in _ (Permutation_sym Hlive)). left. reflexivity. }
  assert (Hps : In p (pool_slots s)) by (apply Hsl; exact Hpl).
  pose proof (pool_slot_range s p Hl Hps) as Hpr.
  assert (Hpin : in_size_t p) by (unfold in_size_t; lia).
  unfold pool_free in H.
  destruct (Z.eqb_spec p NULL) as [E|_]; [unfold NULL in E; lia|].
  rewrite (proj2 (pool_owns_spec s p Hl Hpin) Hps) in H. simpl in H.
  injection H as <- <- <-.
  split; [reflexivity|]. split; [|split; reflexivity].
  split; [exact Hl|]. exists (p :: fl). cbn [free_list free_count].
  assert (Hperm' : Permutation ((p :: fl) ++ live') (pool_slots s)).
  { apply (Permutation_trans (l' := fl ++ live)); [|exact Hperm].
    simpl. apply (Permutation_trans (Permutation_middle fl live' p)).
    apply Permutation_app_head. apply Permutation_sym. exact Hlive. }
  split; [|split; [exact Hperm'|]].
  - cbn [chain]. split; [reflexivity|]. split; [unfold NULL; lia|].
    rewrite load_word_store_word_same
      by (eapply chain_head_in_size_t; eassumption).
    apply (chain_agree _ m); [exact Hc|].
    intros q Hq. apply mem_agree_store_word.
    assert (Hqs : In q (pool_slots s)).
    { apply (Permutation_in _ Hperm). apply in_or_app. left. exact Hq. }
    assert (Hne : p <> q).
    { intros ->. assert (Hnd' : List.NoDup (fl ++ live)).
      { apply (Permutation_NoDup (Permutation_sym Hperm)). apply NoDup_slot_addrs. lia. }
      apply (NoDup_app_disjoint _ _ q Hnd'); assumption. }
    pose proof (slots_apart (buffer s) (slot_size s) _ _ p q ltac:(lia) Hps Hqs Hne). lia.
  - rewrite Hfc. simpl length. unfold size_add.
    apply Permutation_length in Hperm'. unfold pool_slots in Hperm'.
    rewrite length_app, length_slot_addrs in Hperm'. simpl length in Hperm'.
    rewrite wrap_small; [lia|]. unfold in_size_t. nia.
Qed.

(** A write into a live slot does not touch the free list. *)
Lemma pool_write_inv s m live p a b :
  pool_inv s m live -> In p live -> p <= a < p + slot_size s ->
  pool_inv s (store8 m a b) live.
Proof.
  intros Hinv Hpl Ha. pose proof (pool_inv_facts s m live Hinv) as (Hnd & Hsl & _).
  destruct Hinv as (Hl & fl & Hc & Hperm & Hfc).
  pose proof Hl as (Hb & Hs & Hn & He & Hfit).
  split; [exact Hl|]. exists fl. split; [|split; assumption].
  apply (chain_agree _ m); [exact Hc|].
  intros q Hq. apply mem_agree_store8.
  assert (Hqs : In q (pool_slots s)).
  { apply (Permutation_in _ Hperm). apply in_or_app. left. exact Hq. }
  assert (Hne : p <> q).
  { intros ->. assert (Hnd' : List.NoDup (fl ++ live)).
    { apply (Permutation_NoDup (Permutation_sym Hperm)). apply NoDup_slot_addrs. lia. }
    apply (NoDup_app_disjoint _ _ q Hnd'); assumption. }
  pose proof (slots_apart (buffer s) (slot_size s) _ _ p q ltac:(lia) (Hsl p Hpl) Hqs Hne). lia.
Qed.

(** Every reachable state satisfies the invariant. *)
Lemma pool_reach_inv s m live : pool_reach s m live -> pool_inv s m live.
Proof.
  induction 1 as [pool0 m0 buf size slot_sz s m Hreg Hsz Hss Hinit
                 |s m live p s' _ IH Hal Hnn
                 |s m live live' p e s' m' _ IH Hperm Hfr
                 |s m live p a b _ IH Hp Ha].
  - eapply pool_init_inv; eassumption.
  - apply (pool_alloc_inv s m live p s' IH Hal Hnn).
  - apply (pool_free_inv s m live live' p e s' m' IH Hperm Hfr).
  - apply (pool_write_inv s m live p a b IH Hp Ha).
Qed.

End PoolSteps.

(** ** pool.h: runs of allocations *)

Section PoolRuns.

Import Pool.

(** Slots handed out by a run are slots nobody held before it. *)
Lemma pool_allocs_fresh n : forall s m live,
  pool_inv s m live ->
  Forall (fun q => q <> NULL -> In q (pool_slots s) /\ ~ In q live)
         (fst (pool_allocs s m n)).
Proof.
  induction n as [|n IH]; intros s m live Hinv; [constructor|].
  cbn [pool_allocs].
  destruct (pool_alloc s m) as [p s'] eqn:Hal.
  destruct (pool_allocs s' m n) as [ps fin] eqn:Hrest. cbn [fst].
  destruct (Z.eq_dec p NULL) as [->|Hnn].
  - apply pool_alloc_null in Hal as ->.
    constructor; [congruence|]. specialize (IH s m live Hinv).
    rewrite Hrest in IH. exact IH.
  - destruct (pool_alloc_inv s m live p s' Hinv Hal Hnn) as (Hinv' & Hsl & _).
    pose proof (pool_inv_facts s' m (p :: live) Hinv') as (Hnd & Hin & _).
    constructor.
    + intros _. split.
      * rewrite <- Hsl. apply Hin. left. reflexivity.
      * apply NoDup_cons_iff in Hnd as [Hnp _]. exact Hnp.
    + specialize (IH s' m (p :: live) Hinv'). rewrite Hrest in IH. cbn [fst] in IH.
      eapply Forall_impl; [exact IH|]. intros q Hq Hqn.
      destruct (Hq Hqn) as [Hq1 Hq2]. rewrite <- Hsl. split; [exact Hq1|].
      intros Hc. apply Hq2. right. exact Hc.
Qed.

(** Pool part of the non-overlap property. *)
Lemma pool_allocs_disjoint n : forall s m live (i j : nat) p1 p2,
  pool_inv s m live ->
  (i < j)%nat ->
  fst (pool_allocs s m n) !! i = Some p1 ->
  fst (pool_allocs s m n) !! j = Some p2 ->
  p1 <> NULL -> p2 <> NULL ->
  ranges_disjoint p1 (slot_size s) p2 (slot_size s).
Proof.
  induction n as [|n IH]; intros s m live i j p1 p2 Hinv Hij H1 H2 Hn1 Hn2.
  - simpl in H1. discriminate.
  - cbn [pool_allocs] in H1, H2.
    destruct (pool_alloc s m) as [p s'] eqn:Hal.
    destruct (pool_allocs s' m n) as [ps fin] eqn:Hrest. cbn [fst] in H1, H2.
    destruct j as [|j]; [lia|]. simpl in H2.
    destruct i as [|i].
    + simpl in H1. injection H1 as ->.
      destruct (pool_alloc_inv s m live p1 s' Hinv Hal Hn1) as (Hinv' & Hsl & _).
      pose proof (pool_allocs_fresh n s' m (p1 :: live) Hinv') as Hfresh.
      rewrite Hrest in Hfresh. cbn [fst] in Hfresh.
      rewrite Forall_forall in Hfresh.
      assert (Hin : p2 ∈ ps) by (apply list_elem_of_lookup; eauto).
      destruct (Hfresh p2 Hin Hn2) as [Hp2 Hnew].
      pose proof (pool_inv_facts s' m (p1 :: live) Hinv') as (_ & Hlive & _).
      assert (Hp1 : In p1 (pool_slots s')) by (apply Hlive; left; reflexivity).
      rewrite Hsl in Hp1, Hp2.
      assert (Hne : p1 <> p2) by (intros ->; apply Hnew; left; reflexivity).
      destruct Hinv as ((Hb & Hs & _) & _).
      apply (slots_apart (buffer s) (slot_size s) 0 (Z.to_nat (slot_count s)) p1 p2);
        try assumption. lia.
    + simpl in H1.
      assert (Hstep : pool_inv s' m (if decide (p = NULL) then live else p :: live) /\
                      slot_size s' = slot_size s).
      { destruct (decide (p = NULL)) as [->|Hnn].
        - apply pool_alloc_null in Hal as ->. auto.
        - destruct (pool_alloc_inv s m live p s' Hinv Hal Hnn) as (? & _ & ?). auto. }
      destruct Hstep as [Hinv' Hsz]. rewrite <- Hsz.
      apply (IH s' m _ i j p1 p2 Hinv'); try (rewrite Hrest; assumption); try assumption.
      lia.
Qed.

(** Pool part of the capacity-failure property: with no free slot left
    the call returns null and the descriptor is the one passed in. *)
Lemma pool_alloc_exhausted s m live :
  pool_inv s m live -> pool_available s = 0 -> pool_alloc s m = (NULL, s).
Proof.
  intros (_ & fl & Hc & _ & Hfc) Hz. unfold pool_available in Hz.
  destruct fl as [|q fl]; [|simpl length in Hfc; lia].
  simpl in Hc. unfold pool_alloc. rewrite Hc. reflexivity.
Qed.

Lemma pool_free_ok_head s m p s' m' :
  pool_free s m p = (POOL_OK, s', m') -> free_list s' = p /\ p <> NULL.
Proof.
  unfold pool_free. destruct (Z.eqb_spec p NULL); [discriminate|].
  destruct (pool_owns s p); simpl; [|discriminate].
  intros H. injection H as <- _. auto.
Qed.

End PoolRuns.

(** ** slab.h: sorting and the equal-size check *)

Section SortFacts.

Import Slab.

Lemma insert_sorted_app_gt key a l :
  key < a -> insert_sorted key (l ++ [a]) = insert_sorted key l ++ [a].
Proof.
  intros Hlt. induction l as [|b l IH]; simpl.
  - destruct (Z.gtb_spec a key); [reflexivity|lia].
  - destruct (b >? key); [reflexivity|]. rewrite IH. reflexivity.
Qed.

Lemma insert_sorted_all_le key l :
  Forall (fun b => b <= key) l -> insert_sorted key l = l ++ [key].
Proof.
  induction 1 as [|b l Hb _ IH]; simpl; [reflexivity|].
  destruct (Z.gtb_spec b key); [lia|]. rewrite IH. reflexivity.
Qed.

Lemma length_insert_sorted key l : length (insert_sorted key l) = S (length l).
Proof.
  induction l as [|b l IH]; simpl; [reflexivity|].
  destruct (b >? key); simpl; [reflexivity|]. rewrite IH. reflexivity.
Qed.

Lemma insert_sorted_perm key l : Permutation (insert_sorted key l) (key :: l).
Proof.
  induction l as [|b l IH]; simpl; [apply Permutation_refl|].
  destruct (b >? key); [apply Permutation_refl|].
  apply (Permutation_trans (l' := b :: key :: l)).
  - apply perm_skip. exact IH.
  - apply perm_swap.
Qed.

Lemma insert_sorted_sorted key l :
  StronglySorted Z.le l -> StronglySorted Z.le (insert_sorted key l).
Proof.
  induction 1 as [|b l Hs IH Hb]; simpl.
  - constructor; constructor.
  - destruct (Z.gtb_spec b key).
    + constructor; [constructor; assumption|].
      constructor; [lia|].
      eapply List.Forall_impl; [|exact Hb]. simpl. intros; lia.
    + constructor; [exact IH|].
      apply (Permutation_Forall (Permutation_sym (insert_sorted_perm key l))).
      constructor; [lia|exact Hb].
Qed.

Lemma StronglySorted_snoc l a :
  StronglySorted Z.le (l ++ [a]) ->
  StronglySorted Z.le l /\ Forall (fun b => b <= a) l.
Proof.
  induction l as [|b l IH]; simpl; intros H.
  - split; constructor.
  - apply StronglySorted_inv in H as [Hs Hb].
    destruct (IH Hs) as [Hs' Hle]. split.
    + constructor; [exact Hs'|].
      apply Forall_app in Hb as [Hb _]. exact Hb.
    + constructor; [|exact Hle].
      apply Forall_app in Hb as [_ Hb]. apply Forall_inv in Hb. exact Hb.
Qed.

(** The shifting loop inserts [key] into the sorted prefix that ends
    just before index [j]. *)
Lemma sort_shift_insert pre : forall x suf key,
  StronglySorted Z.le pre ->
  sort_shift (pre ++ x :: suf) (length pre) key = insert_sorted key pre ++ suf.
Proof.
  induction pre as [|a pre IH] using rev_ind; intros x suf key Hs.
  - reflexivity.
  - apply StronglySorted_snoc in Hs as [Hs Hle].
    rewrite length_app. simpl length. rewrite Nat.add_1_r. cbn [sort_shift].
    rewrite <- app_assoc. simpl app.
    rewrite (list_lookup_total_middle pre (x :: suf) a (length pre) eq_refl).
    replace (S (length pre)) with (length pre + 1)%nat by lia.
    rewrite !insert_app_r. simpl.
    destruct (Z.gtb_spec a key) as [Hgt|Hle'].
    + rewrite IH by exact Hs.
      rewrite insert_sorted_app_gt by lia. rewrite <- app_assoc. reflexivity.
    + rewrite insert_sorted_all_le.
      * rewrite <- !app_assoc. reflexivity.
      * apply Forall_app. split; [|constructor; [lia|constructor]].
        eapply List.Forall_impl; [|exact Hle]. simpl. intros; lia.
Qed.

Lemma sort_from_insert suf : forall pre,
  StronglySorted Z.le pre ->
  sort_from (pre ++ suf) (length pre) (length suf) = insert_all pre suf.
Proof.
  induction suf as [|x suf IH]; intros pre Hs.
  - simpl. apply app_nil_r.
  - cbn [length sort_from].
    rewrite (list_lookup_total_middle pre suf x (length pre) eq_refl).
    rewrite sort_shift_insert by exact Hs.
    rewrite <- (length_insert_sorted x pre).
    rewrite IH by (apply insert_sorted_sorted; exact Hs). reflexivity.
Qed.

Lemma insert_all_sorted suf : forall pre,
  StronglySorted Z.le pre ->
  StronglySorted Z.le (insert_all pre suf) /\ Permutation (insert_all pre suf) (pre ++ suf).
Proof.
  induction suf as [|x suf IH]; intros pre Hs; simpl.
  - rewrite app_nil_r. split; [exact Hs|apply Permutation_refl].
  - destruct (IH (insert_sorted x pre) (insert_sorted_sorted x pre Hs)) as [H1 H2].
    split; [exact H1|].
    apply (Permutation_trans H2).
    apply (Permutation_trans (l' := (x :: pre) ++ suf)).
    + apply Permutation_app_tail. apply insert_sorted_perm.
    + apply Permutation_middle.
Qed.

(** [slab__sort_sizes] sorts: its result is ascending and a permutation
    of the array it was given. *)
Lemma slab__sort_sizes_sorted arr :
  StronglySorted Z.le (slab__sort_sizes arr (length arr)) /\
  Permutation (slab__sort_sizes arr (length arr)) arr.
Proof.
  unfold slab__sort_sizes. destruct arr as [|a arr].
  - simpl. split; [constructor|apply Permutation_refl].
  - simpl length. rewrite Nat.sub_succ, Nat.sub_0_r.
    pose proof (sort_from_insert arr [a]) as H. simpl in H.
    rewrite H by (constructor; constructor).
    apply (insert_all_sorted arr [a]). constructor; constructor.
Qed.

(** In an ascending array without equal neighbours no value occurs
    twice. *)
Lemma has_equal_neighbours_false l :
  StronglySorted Z.le l -> has_equal_neighbours l = false -> List.NoDup l.
Proof.
  induction 1 as [|a l Hs IH Ha]; intros Hn; [constructor|].
  destruct l as [|b l]; [constructor; [intros []|constructor]|].
  cbn [has_equal_neighbours] in Hn.
  apply orb_false_iff in Hn as [Hab Hn]. apply Z.eqb_neq in Hab.
  constructor; [|apply IH; exact Hn].
  apply Forall_inv in Ha as Hle.
  apply StronglySorted_inv in Hs as [_ Hb].
  intros [->|Hin]; [congruence|].
  rewrite List.Forall_forall in Hb. specialize (Hb a Hin). lia.
Qed.

Lemma copy_sizes_some sizes : forall n l,
  (n <= length sizes)%nat -> copy_sizes sizes n = Some l -> l = firstn n sizes.
Proof.
  induction sizes as [|sz sizes IH]; intros n l Hn H.
  - destruct n; simpl in *; [|lia]. injection H as <-. reflexivity.
  - destruct n as [|n]; simpl in *; [injection H as <-; reflexivity|].
    destruct (sz =? 0); [discriminate|].
    destruct (copy_sizes sizes n) as [l'|] eqn:E; [|discriminate].
    injection H as <-. f_equal. apply IH; [lia|exact E].
Qed.

End SortFacts.

Section SlabFacts.

Import Slab.

(** Two equal entries among the first [count] sizes make [slab_init]
    fail with the invalid-size code before it writes anything. *)
Lemma slab_init_equal_sizes slab m buf size sizes count :
  buf <> NULL -> size <> 0 -> 0 < count <= SLAB_MAX_CLASSES ->
  (Z.to_nat count <= length sizes)%nat ->
  initialized slab <> SLAB_MAGIC ->
  ~ List.NoDup (firstn (Z.to_nat count) sizes) ->
  slab_init slab m buf size sizes count = (SLAB_ERR_INVALID_SIZE, slab, m).
Proof.
  intros Hb Hs Hc Hlen Hinit Hdup. unfold slab_init.
  destruct (Z.eqb_spec buf NULL); [contradiction|].
  destruct (Z.eqb_spec size 0); [contradiction|].
  destruct (Z.eqb_spec count 0); [lia|]. simpl.
  destruct (Z.gtb_spec count SLAB_MAX_CLASSES); [lia|].
  destruct (Z.eqb_spec (initialized slab) SLAB_MAGIC); [contradiction|].
  destruct (copy_sizes sizes (Z.to_nat count)) as [l|] eqn:E; [|reflexivity].
  apply copy_sizes_some in E; [|exact Hlen]. subst l.
  set (l := firstn (Z.to_nat count) sizes) in *.
  assert (Hl : length l = Z.to_nat count) by (unfold l; rewrite length_firstn; lia).
  rewrite <- Hl.
  destruct (slab__sort_sizes_sorted l) as [Hsorted Hperm].
  destruct (has_equal_neighbours (slab__sort_sizes l (length l))) eqn:Hn; [reflexivity|].
  exfalso. apply Hdup.
  apply (Permutation_NoDup Hperm).
  apply has_equal_neighbours_false; assumption.
Qed.

End SlabFacts.

(** ** slab.h: dispatch to a size class *)

Section SlabDispatch.

Import Slab.

Lemma find_class_for_size_from_none cls size n : forall i,
  (forall k : nat, (i <= k < i + n)%nat -> slot_size (cls !!! k) < size) ->
  find_class_for_size_from cls size i n = NO_CLASS.
Proof.
  induction n as [|n IH]; intros i H; simpl; [reflexivity|].
  destruct (Z.geb_spec (slot_size (cls !!! i)) size) as [Hge|_].
  - specialize (H i ltac:(lia)). lia.
  - apply IH. intros k Hk. apply H. lia.
Qed.

Lemma find_class_for_size_from_first cls size n : forall i k,
  (i <= k < i + n)%nat -> size <= slot_size (cls !!! k) ->
  (forall j : nat, (i <= j < k)%nat -> slot_size (cls !!! j) < size) ->
  find_class_for_size_from cls size i n = Z.of_nat k.
Proof.
  induction n as [|n IH]; intros i k Hk Hge Hlt; [lia|]. simpl.
  destruct (Z.geb_spec (slot_size (cls !!! i)) size) as [Hi|Hi].
  - destruct (Nat.eq_dec i k) as [->|Hne]; [reflexivity|].
    specialize (Hlt i ltac:(lia)). lia.
  - destruct (Nat.eq_dec i k) as [->|Hne]; [lia|].
    apply IH; [lia|exact Hge|]. intros j Hj. apply Hlt. lia.
Qed.

Lemma slab__find_class_for_size_absent slab size :
  slab_class_absent slab size -> slab__find_class_for_size slab size = NO_CLASS.
Proof.
  intros H. unfold slab__find_class_for_size.
  apply find_class_for_size_from_none. intros k Hk. apply H. lia.
Qed.

Lemma slab__find_class_for_size_first slab size k :
  slab_class_for slab size k -> slab__find_class_for_size slab size = Z.of_nat k.
Proof.
  intros (Hk & Hge & Hlt). unfold slab__find_class_for_size.
  apply find_class_for_size_from_first; [lia|exact Hge|].
  intros j Hj. apply Hlt. lia.
Qed.

(** Slab part of the capacity-failure property, and of the no-spill
    rule: once the first sufficient class is empty, the call fails
    whatever the later classes hold. *)
Lemma slab_alloc_no_class slab m size :
  slab_class_absent slab size \/
  (exists k, slab_class_for slab size k /\ free_list (classes slab !!! k) = NULL) ->
  slab_alloc slab m size = (NULL, slab).
Proof.
  intros H. unfold slab_alloc.
  destruct (negb (initialized slab =? SLAB_MAGIC) || (size =? 0)); [reflexivity|].
  destruct H as [Habs|(k & Hk & Hfl)].
  - rewrite slab__find_class_for_size_absent by exact Habs.
    rewrite Z.eqb_refl. reflexivity.
  - rewrite (slab__find_class_for_size_first slab size k Hk).
    destruct (Z.of_nat k =? NO_CLASS); [reflexivity|].
    rewrite Nat2Z.id, Hfl. reflexivity.
Qed.

End SlabDispatch.

(** ** slab.h: building a size class *)

Section SlabClassFacts.

Import Slab.

Lemma class_slot_size_ge sz : in_size_t sz -> 8 <= class_slot_size sz < SIZE_MOD.
Proof.
  intros Hsz. unfold class_slot_size, SLAB_ALIGN_UP.
  change SLAB_MIN_SLOT_SIZE with 8. change SLAB_ALIGNMENT with 8.
  pose proof (align_up_in_size_t sz 3 ltac:(lia)) as Ha. change (2 ^ 3) with 8 in Ha.
  destruct (Z.gtb_spec (align_up sz 8) 8); unfold in_size_t in *;
    rewrite ?SIZE_MOD_val in *; lia.
Qed.

(** Without wrap-around the slot size grows with the requested size. *)
Lemma class_slot_size_mono a b :
  0 <= a <= b -> b <= SIZE_MAX - (SLAB_ALIGNMENT - 1) ->
  class_slot_size a <= class_slot_size b.
Proof.
  intros Hab Hb. unfold class_slot_size, SLAB_ALIGN_UP.
  change SLAB_MIN_SLOT_SIZE with 8. change SLAB_ALIGNMENT with 8 in *.
  unfold SIZE_MAX in Hb.
  change (align_up a 8) with (align_up a (2 ^ 3)).
  change (align_up b 8) with (align_up b (2 ^ 3)).
  rewrite !align_up_exact by (change (2 ^ 3) with 8; lia).
  change (2 ^ 3) with 8.
  assert (round_up a 8 <= round_up b 8).
  { unfold round_up. apply Z.mul_le_mono_nonneg_r; [lia|].
    apply Z.div_le_mono; lia. }
  destruct (Z.gtb_spec (round_up a 8) 8); destruct (Z.gtb_spec (round_up b 8) 8); lia.
Qed.

Lemma class_slot_ptr_exact c (i : nat) :
  0 < region_start c -> 0 <= slot_size c ->
  region_start c + slot_count c * slot_size c < SIZE_MOD ->
  Z.of_nat i <= slot_count c ->
  ptr_add (region_start c) (size_mul (Z.of_nat i) (slot_size c)) =
  region_start c + Z.of_nat i * slot_size c.
Proof.
  intros Hb Hs Hfit Hi. unfold ptr_add, size_mul.
  assert (Z.of_nat i * slot_size c <= slot_count c * slot_size c)
    by (apply Z.mul_le_mono_nonneg_r; lia).
  assert (0 <= Z.of_nat i * slot_size c) by (apply Z.mul_nonneg_nonneg; lia).
  rewrite (wrap_small (Z.of_nat i * slot_size c)) by (unfold in_size_t; lia).
  apply wrap_small. unfold in_size_t. lia.
Qed.

(** The construction loop of a class threads its slots in ascending
    order and writes inside the class's slots only. *)
Lemma slab_build_loop_chain c :
  0 < region_start c -> 8 <= slot_size c -> 0 <= slot_count c ->
  region_start c + slot_count c * slot_size c < SIZE_MOD ->
  forall (i : nat) prev m,
    (i <= Z.to_nat (slot_count c))%nat -> in_size_t prev ->
    chain m prev (slot_addrs (region_start c) (slot_size c) i
                             (Z.to_nat (slot_count c) - i)) ->
    chain (snd (build_free_list_loop c i prev m))
          (fst (build_free_list_loop c i prev m))
          (class_slots c) /\
    (forall lo hi, hi <= region_start c \/
                   region_start c + slot_count c * slot_size c <= lo ->
       mem_agree m (snd (build_free_list_loop c i prev m)) lo hi).
Proof.
  intros Hb Hs Hn Hfit. unfold class_slots.
  induction i as [|i IH]; intros prev m Hi Hh Hc.
  - simpl. rewrite Nat.sub_0_r in Hc. split; [exact Hc|].
    intros lo hi _. apply mem_agree_refl.
  - cbn [build_free_list_loop].
    rewrite class_slot_ptr_exact by (try assumption; lia).
    set (slot := region_start c + Z.of_nat i * slot_size c).
    assert (Hi0 : 0 <= Z.of_nat i * slot_size c) by (apply Z.mul_nonneg_nonneg; lia).
    assert (Hi1 : (Z.of_nat i + 1) * slot_size c <= slot_count c * slot_size c)
      by (apply Z.mul_le_mono_nonneg_r; lia).
    assert (Hslot : in_size_t slot) by (unfold in_size_t, slot; lia).
    destruct (IH slot (store_word m slot prev)) as [IH1 IH2]; [lia|exact Hslot| |].
    + replace (Z.to_nat (slot_count c) - i)%nat
        with (S (Z.to_nat (slot_count c) - S i)) by lia.
      rewrite slot_addrs_cons. fold slot. cbn [chain].
      split; [reflexivity|]. split; [unfold NULL, slot; lia|].
      rewrite load_word_store_word_same by exact Hh.
      apply (chain_agree _ m); [exact Hc|].
      intros q Hq. apply mem_agree_store_word. right.
      apply in_slot_addrs in Hq as (j & Hj & ->). unfold slot. nia.
    + split; [exact IH1|]. intros lo hi Hout.
      apply (mem_agree_trans _ (store_word m slot prev)); [|apply IH2; exact Hout].
      apply mem_agree_store_word. unfold slot. lia.
Qed.

(** [slab__build_free_list] on a class with a sound layout establishes
    the class invariant with no live slot. *)
Lemma slab__build_free_list_inv c m :
  class_layout_ok c ->
  class_inv (fst (slab__build_free_list c m)) (snd (slab__build_free_list c m)) [] /\
  slot_size (fst (slab__build_free_list c m)) = slot_size c /\
  region_start (fst (slab__build_free_list c m)) = region_start c /\
  region_end (fst (slab__build_free_list c m)) = region_end c /\
  (forall lo hi, hi <= region_start c \/ region_end c <= lo ->
     mem_agree m (snd (slab__build_free_list c m)) lo hi).
Proof.
  intros (Hb & Hs & Hn & He & Hfit). unfold slab__build_free_list. cbn [slot_count].
  destruct (Z.eqb_spec (slot_count c) 0); [lia|].
  set (c0 := mk_class (slot_size c) NULL (region_start c) (region_end c)
                      (slot_count c) (slot_count c)).
  pose proof (slab_build_loop_chain c0) as Hloop.
  cbn [region_start slot_size slot_count c0] in Hloop.
  specialize (Hloop ltac:(lia) ltac:(lia) ltac:(lia) ltac:(lia)
                    (Z.to_nat (slot_count c)) NULL m ltac:(lia)
                    ltac:(unfold in_size_t, NULL; rewrite SIZE_MOD_val; lia)).
  rewrite Nat.sub_diag in Hloop. specialize (Hloop eq_refl).
  destruct (build_free_list_loop c0 (Z.to_nat (slot_count c)) NULL m) as [prev m'].
  destruct Hloop as [Hchain Hagree]. cbn [fst snd] in *.
  split; [|split; [reflexivity|split; [reflexivity|split; [reflexivity|]]]].
  - split; [unfold class_layout_ok; simpl; lia|].
    exists (class_slots c0). cbn [free_list free_count List.filter].
    split; [exact Hchain|]. split.
    + rewrite app_nil_r. apply Permutation_refl.
    + unfold class_slots. rewrite length_slot_addrs. simpl. lia.
  - intros lo hi Hout. apply Hagree. lia.
Qed.

End SlabClassFacts.

(** ** slab.h: the class loop of slab_init *)

Section SlabInitFacts.

Import Slab.

Lemma in_class_slots c p :
  0 <= slot_count c ->
  In p (class_slots c) <->
  exists j, 0 <= j < slot_count c /\ p = region_start c + j * slot_size c.
Proof.
  intros Hn. unfold class_slots. rewrite in_slot_addrs. split.
  - intros (j & Hj & ->). exists (Z.of_nat j). split; [lia|reflexivity].
  - intros (j & Hj & ->). exists (Z.to_nat j). split; [lia|].
    rewrite Z2Nat.id by lia. reflexivity.
Qed.

Lemma class_slot_range c p :
  class_layout_ok c -> In p (class_slots c) ->
  region_start c <= p /\ p + slot_size c <= region_end c.
Proof.
  intros (Hb & Hs & Hn & He & Hfit) Hp.
  apply in_class_slots in Hp as (j & Hj & ->); [|lia]. rewrite He. nia.
Qed.

Lemma class_slot_in_region c p :
  class_layout_ok c -> In p (class_slots c) -> in_region c p = true.
Proof.
  intros Hl Hp. pose proof (class_slot_range c p Hl Hp).
  destruct Hl as (Hb & Hs & _). unfold in_region.
  apply andb_true_iff. split; [apply Z.geb_le|apply Z.ltb_lt]; lia.
Qed.

(** The class invariant only reads the bytes of the class's region. *)
Lemma class_inv_agree c m m' live :
  class_inv c m live ->
  mem_agree m m' (region_start c) (region_end c) ->
  class_inv c m' live.
Proof.
  intros (Hl & fl & Hc & Hperm & Hfc) Hag. split; [exact Hl|].
  exists fl. split; [|split; assumption].
  apply (chain_agree _ m); [exact Hc|]. intros q Hq.
  assert (Hqs : In q (class_slots c)).
  { apply (Permutation_in _ Hperm). apply in_or_app. left. exact Hq. }
  pose proof (class_slot_range c q Hl Hqs). destruct Hl as (_ & Hs & _).
  eapply mem_agree_sub; [| |exact Hag]; lia.
Qed.

(** What the class loop of [slab_init] builds from index [i] on. *)
Lemma init_classes_spec rs sorted : forall (i : nat) rp cls m cls' m',
  8 <= rs -> 0 < rp -> rp + Z.of_nat (length sorted) * rs < SIZE_MOD ->
  Forall in_size_t sorted ->
  (i + length sorted <= length cls)%nat ->
  init_classes sorted i rs rp cls m = (Some cls', m') ->
  length cls' = length cls /\
  (forall k : nat, (k < i)%nat -> cls' !!! k = cls !!! k) /\
  (forall k : nat, (k < length sorted)%nat ->
     class_inv (cls' !!! (i + k)%nat) m' [] /\
     slot_size (cls' !!! (i + k)%nat) = class_slot_size (sorted !!! k) /\
     region_start (cls' !!! (i + k)%nat) = rp + Z.of_nat k * rs /\
     region_end (cls' !!! (i + k)%nat) <= rp + Z.of_nat k * rs + rs) /\
  (forall lo hi, hi <= rp -> mem_agree m m' lo hi).
Proof.
  induction sorted as [|sz sorted IH]; intros i rp cls m cls' m' Hrs Hrp Hfit Hin Hlen H.
  - simpl in H. injection H as <- <-.
    split; [reflexivity|]. split; [reflexivity|].
    split; [simpl; intros; lia|]. intros. apply mem_agree_refl.
  - apply Forall_cons in Hin as [Hsz Hin]. simpl length in Hfit, Hlen.
    cbn [init_classes] in H. fold (class_slot_size sz) in H.
    pose proof (class_slot_size_ge sz Hsz) as Hss.
    set (ss := class_slot_size sz) in *.
    destruct (Z.eqb_spec (rs / ss) 0) as [|Hslots]; [discriminate|].
    set (slots := rs / ss) in *.
    assert (Hsl : 0 < slots /\ slots * ss <= rs).
    { pose proof (Z.div_mod rs ss ltac:(lia)) as Hdm.
      pose proof (Z.mod_pos_bound rs ss ltac:(lia)).
      assert (0 <= slots) by (apply Z.div_pos; lia).
      fold slots in Hdm. split; nia. }
    assert (Hrsn : 0 <= Z.of_nat (length sorted) * rs) by (apply Z.mul_nonneg_nonneg; lia).
    assert (Hm : size_mul slots ss = slots * ss).
    { unfold size_mul. apply wrap_small. unfold in_size_t. lia. }
    assert (He : ptr_add rp (slots * ss) = rp + slots * ss).
    { unfold ptr_add. apply wrap_small. unfold in_size_t. lia. }
    assert (Hn : ptr_add rp rs = rp + rs).
    { unfold ptr_add. apply wrap_small. unfold in_size_t. lia. }
    rewrite Hm, He, Hn in H.
    set (c := mk_class ss (free_list (cls !!! i)) rp (rp + slots * ss) slots
                       (free_count (cls !!! i))) in *.
    assert (Hcl : class_layout_ok c) by (unfold class_layout_ok; simpl; lia).
    destruct (slab__build_free_list_inv c m Hcl) as (Hinv & Hs1 & Hr1 & Hr2 & Hag1).
    destruct (slab__build_free_list c m) as [c1 m1]. cbn [fst snd] in *.
    destruct (IH (S i) (rp + rs) (<[i:=c1]> cls) m1 cls' m') as (Hl' & Hlow & Hhigh & Hag2);
      try assumption; try lia.
    { rewrite length_insert. lia. }
    rewrite length_insert in Hl'.
    assert (Hci : cls' !!! i = c1).
    { rewrite Hlow by lia. apply list_lookup_total_insert_eq. lia. }
    split; [exact Hl'|]. split; [|split].
    + intros k Hk. rewrite Hlow by lia. apply list_lookup_total_insert_ne. lia.
    + intros k Hk. destruct k as [|k].
      * rewrite Nat.add_0_r, Hci. simpl.
        split; [|split; [exact Hs1|split; [rewrite Hr1; simpl; lia|rewrite Hr2; simpl; lia]]].
        apply (class_inv_agree c1 m1); [exact Hinv|].
        apply Hag2. rewrite Hr2. simpl. lia.
      * simpl length in Hk. destruct (Hhigh k ltac:(lia)) as (H1 & H2 & H3 & H4).
        replace (i + S k)%nat with (S i + k)%nat by lia.
        split; [exact H1|]. split; [exact H2|]. split; lia.
    + intros lo hi Hhi. apply (mem_agree_trans _ m1).
      * apply Hag1. simpl. lia.
      * apply Hag2. lia.
Qed.

Lemma clear_classes_lookup n : forall cls (i k : nat),
  (k < i)%nat -> clear_classes cls i n !!! k = cls !!! k.
Proof.
  induction n as [|n IH]; intros cls i k Hk; [reflexivity|]. simpl.
  rewrite IH by lia. apply list_lookup_total_insert_ne. lia.
Qed.

End SlabInitFacts.

(** ** slab.h: initialisation *)

Section SlabInit.

Import Slab.

Lemma length_clear_classes n : forall cls i, length (clear_classes cls i n) = length cls.
Proof.
  induction n as [|n IH]; intros cls i; [reflexivity|]. simpl.
  rewrite IH. apply length_insert.
Qed.

Lemma StronglySorted_lookup (l : list Z) : forall j k : nat,
  StronglySorted Z.le l -> (j <= k < length l)%nat -> l !!! j <= l !!! k.
Proof.
  induction l as [|a l IH]; intros j k Hs Hjk; [simpl in Hjk; lia|].
  apply StronglySorted_inv in Hs as [Hs Ha].
  destruct k as [|k]; [replace j with 0%nat by lia; lia|].
  destruct j as [|j].
  - change ((a :: l) !!! 0%nat) with a. change ((a :: l) !!! S k) with (l !!! k).
    apply (Forall_lookup_total_1 _ l k Ha). simpl in Hjk. lia.
  - change ((a :: l) !!! S j) with (l !!! j). change ((a :: l) !!! S k) with (l !!! k).
    apply IH; [exact Hs|simpl in Hjk; lia].
Qed.

(** A successful [slab_init] establishes the slab invariant with no
    live pointer; when no requested size wraps in the rounding, the slot
    sizes ascend. *)
Lemma slab_init_inv slab0 m0 buf size sizes count s m :
  region_ok buf size -> in_size_t size -> Forall in_size_t sizes ->
  0 <= count -> (Z.to_nat count <= length sizes)%nat ->
  length (classes slab0) = Z.to_nat SLAB_MAX_CLASSES ->
  slab_init slab0 m0 buf size sizes count = (SLAB_OK, s, m) ->
  slab_inv s m [] /\
  (Forall (fun x => x <= SIZE_MAX - (SLAB_ALIGNMENT - 1)) (firstn (Z.to_nat count) sizes) ->
   slab_sorted s).
Proof.
  intros (Hb & Hs0 & Hr) Hsz Hsizes Hc0 Hlen Hcls H. unfold slab_init in H.
  unfold SLAB_OK, SLAB_ERR_NULL_PARAM, SLAB_ERR_ZERO_SIZE, SLAB_ERR_TOO_MANY,
    SLAB_ERR_ALREADY_INIT, SLAB_ERR_INVALID_SIZE, SLAB_ERR_BUFFER_SMALL in H.
  destruct (buf =? NULL); [discriminate|].
  destruct (Z.eqb_spec size 0) as [|Hsnz]; [discriminate|].
  destruct (Z.eqb_spec count 0) as [|Hcnz]; [discriminate|]. cbn [orb] in H.
  destruct (Z.gtb_spec count SLAB_MAX_CLASSES) as [|Hcmax]; [discriminate|].
  destruct (initialized slab0 =? SLAB_MAGIC); [discriminate|].
  destruct (copy_sizes sizes (Z.to_nat count)) as [l|] eqn:E; [|discriminate].
  apply copy_sizes_some in E; [|exact Hlen].
  assert (Hll : length l = Z.to_nat count) by (subst l; rewrite length_firstn; lia).
  replace (slab__sort_sizes l (Z.to_nat count)) with (slab__sort_sizes l (length l)) in H
    by (rewrite Hll; reflexivity).
  destruct (slab__sort_sizes_sorted l) as [Hsorted Hperm].
  set (sorted := slab__sort_sizes l (length l)) in *.
  destruct (has_equal_neighbours sorted); [discriminate|].
  cbv zeta in H. cbn [buffer aligned_start capacity usable_capacity classes class_count
                      initialized] in H.
  unfold SLAB_ALIGN_UP, SLAB_ALIGNMENT in H. change 8 with (2 ^ 3) in H.
  destruct (Z.geb_spec (ptr_diff (align_up buf (2 ^ 3)) buf) size) as [|Hov];
    [discriminate|].
  destruct (Z_lt_ge_dec (buf + 2 ^ 3 - 1) SIZE_MOD) as [Hbn|Hbw].
  2:{ exfalso. rewrite align_up_wrapped in Hov
        by (unfold in_size_t; rewrite ?SIZE_MOD_val in *; lia).
      unfold ptr_diff in Hov. rewrite wrap_below in Hov; lia. }
  rewrite (align_up_exact buf 3) in H, Hov by lia.
  pose proof (round_up_bounds buf (2 ^ 3) ltac:(lia)) as Hru.
  set (start := round_up buf (2 ^ 3)) in *. change (2 ^ 3) with 8 in *.
  assert (Hd : ptr_diff start buf = start - buf).
  { unfold ptr_diff. apply wrap_small. unfold in_size_t. lia. }
  rewrite Hd in H, Hov.
  assert (Hst : ptr_add buf (start - buf) = start).
  { unfold ptr_add. replace (buf + (start - buf)) with start by lia.
    apply wrap_small. unfold in_size_t. lia. }
  assert (Hu : size_sub size (start - buf) = size - (start - buf)).
  { unfold size_sub. apply wrap_small. unfold in_size_t in *. lia. }
  rewrite Hst, Hu in H.
  set (usable := size - (start - buf)) in *.
  assert (Hcpos : 0 < count) by lia.
  assert (Hq : 0 <= usable / count /\ count * (usable / count) <= usable).
  { pose proof (Z.div_mod usable count ltac:(lia)).
    pose proof (Z.mod_pos_bound usable count ltac:(lia)).
    split; [apply Z.div_pos; unfold usable; lia|lia]. }
  set (q := usable / count) in *.
  assert (Hq8 : 0 <= q / 8 /\ q / 8 * 8 <= q).
  { pose proof (Z.div_mod q 8 ltac:(lia)). pose proof (Z.mod_pos_bound q 8 ltac:(lia)).
    split; [apply Z.div_pos; lia|lia]. }
  assert (Hrs : size_mul (q / 8) 8 = q / 8 * 8).
  { unfold size_mul. apply wrap_small. unfold in_size_t, usable in *. nia. }
  rewrite Hrs in H. set (rs := q / 8 * 8) in *.
  destruct (Z.ltb_spec rs 8) as [|Hrs8]; [discriminate|].
  destruct (init_classes sorted 0 rs start (classes slab0) m0) as [[cls|] m'] eqn:Einit;
    cbv beta iota in H; [|discriminate].
  injection H as <- <-.
  assert (Hsl : length sorted = Z.to_nat count).
  { rewrite <- Hll. apply Permutation_length. exact Hperm. }
  assert (Hcrs : count * rs <= usable) by (unfold rs; nia).
  assert (P1 : start + Z.of_nat (length sorted) * rs < SIZE_MOD).
  { rewrite Hsl, Z2Nat.id by lia. unfold usable in *. lia. }
  assert (P2 : Forall in_size_t sorted).
  { apply (Permutation_Forall (Permutation_sym Hperm)). subst l.
    apply Forall_take. exact Hsizes. }
  assert (P3 : (0 + length sorted <= length (classes slab0))%nat).
  { rewrite Hsl, Hcls. unfold SLAB_MAX_CLASSES in *. lia. }
  destruct (init_classes_spec rs sorted 0 start (classes slab0) m0 cls m'
              Hrs8 ltac:(lia) P1 P2 P3 Einit) as (Hlen' & _ & Hhigh & _).
  assert (Hget : forall k : nat, (k < Z.to_nat count)%nat ->
            clear_classes cls (Z.to_nat count) (Z.to_nat (SLAB_MAX_CLASSES - count)) !!! k
            = cls !!! k).
  { intros k Hk. apply clear_classes_lookup. exact Hk. }
  split.
  - unfold slab_inv. cbn [initialized class_count classes].
    split; [reflexivity|]. split; [lia|]. split.
    { rewrite length_clear_classes, Hlen', Hcls. unfold SLAB_MAX_CLASSES in *. lia. }
    split; [|split].
    + intros k Hk. rewrite Hget by exact Hk.
      apply (Hhigh k). lia.
    + intros j k Hjk. rewrite !Hget by lia.
      destruct (Hhigh j ltac:(lia)) as (_ & _ & _ & Hje).
      destruct (Hhigh k ltac:(lia)) as (_ & _ & Hks & _).
      simpl in Hje, Hks. rewrite Hks. nia.
    + intros p [].
  - intros Hnw j k Hjk. cbn [class_count classes] in *.
    rewrite !Hget by lia.
    destruct (Hhigh j ltac:(lia)) as (_ & Hj & _).
    destruct (Hhigh k ltac:(lia)) as (_ & Hk & _).
    simpl in Hj, Hk. rewrite Hj, Hk.
    assert (Hall : Forall (fun x => 0 <= x <= SIZE_MAX - (SLAB_ALIGNMENT - 1)) sorted).
    { apply (Permutation_Forall (Permutation_sym Hperm)). subst l.
      apply Forall_and. split; [|exact Hnw].
      apply Forall_take. eapply Forall_impl; [exact Hsizes|].
      unfold in_size_t. intros; lia. }
    apply class_slot_size_mono.
    + split.
      * apply (Forall_lookup_total_1 _ sorted j Hall). lia.
      * apply StronglySorted_lookup; [exact Hsorted|lia].
    + apply (Forall_lookup_total_1 _ sorted k Hall). lia.
Qed.

End SlabInit.

(** ** slab.h: classes and their regions *)

Section SlabSteps.

Import Slab.

Lemma Permutation_filter (f : Z -> bool) l l' :
  Permutation l l' -> Permutation (List.filter f l) (List.filter f l').
Proof.
  induction 1 as [|x l l' _ IH|x y l|l l' l'' _ IH1 _ IH2]; simpl.
  - constructor.
  - destruct (f x); [constructor|]; exact IH.
  - destruct (f x), (f y); try apply Permutation_refl. apply perm_swap.
  - exact (Permutation_trans IH1 IH2).
Qed.

Lemma same_layout_refl c : same_layout c c.
Proof. repeat split. Qed.

Lemma same_layout_in_region c c' p : same_layout c c' -> in_region c' p = in_region c p.
Proof. intros (_ & H1 & H2 & _). unfold in_region. rewrite H1, H2. reflexivity. Qed.

Lemma same_layout_slots c c' : same_layout c c' -> class_slots c' = class_slots c.
Proof. intros (H0 & H1 & _ & H3). unfold class_slots. rewrite H0, H1, H3. reflexivity. Qed.

Lemma insert_same_layout (cls : list slab_class_t) (k : nat) c' :
  same_layout (cls !!! k) c' ->
  forall j : nat, same_layout (cls !!! j) (<[k:=c']> cls !!! j).
Proof.
  intros H j. destruct (Nat.eq_dec k j) as [->|Hne].
  - destruct (Nat.lt_ge_cases j (length cls)).
    + rewrite list_lookup_total_insert_eq by lia. exact H.
    + rewrite list_insert_ge by lia. apply same_layout_refl.
  - rewrite list_lookup_total_insert_ne by exact Hne. apply same_layout_refl.
Qed.

Lemma find_class_for_size_from_cases cls size n : forall i,
  find_class_for_size_from cls size i n = NO_CLASS \/
  exists k : nat, (i <= k < i + n)%nat /\
    find_class_for_size_from cls size i n = Z.of_nat k /\
    size <= slot_size (cls !!! k) /\
    forall j : nat, (i <= j < k)%nat -> slot_size (cls !!! j) < size.
Proof.
  induction n as [|n IH]; intros i; simpl; [left; reflexivity|].
  destruct (Z.geb_spec (slot_size (cls !!! i)) size) as [Hge|Hlt].
  - right. exists i. split; [lia|]. split; [reflexivity|]. split; [lia|].
    intros j Hj. lia.
  - destruct (IH (S i)) as [Hn|(k & Hk & Hf & Hge & Hlow)]; [left; exact Hn|].
    right. exists k. split; [lia|]. split; [exact Hf|]. split; [exact Hge|].
    intros j Hj. destruct (Nat.eq_dec j i) as [->|]; [lia|]. apply Hlow. lia.
Qed.

Lemma find_class_for_ptr_from_first cls p n : forall i k : nat,
  (i <= k < i + n)%nat -> in_region (cls !!! k) p = true ->
  (forall j : nat, (i <= j < k)%nat -> in_region (cls !!! j) p = false) ->
  find_class_for_ptr_from cls p i n = Z.of_nat k.
Proof.
  induction n as [|n IH]; intros i k Hk Hin Hout; [lia|]. simpl.
  fold (in_region (cls !!! i) p).
  destruct (Nat.eq_dec i k) as [->|Hne].
  - rewrite Hin. reflexivity.
  - rewrite (Hout i) by lia. apply IH; [lia|exact Hin|].
    intros j Hj. apply Hout. lia.
Qed.

(** In a slab that satisfies the invariant, a slot of class [k] lies in
    the sub-region of class [k] and of no other class. *)
Lemma slab_slot_region s m live (k : nat) p :
  slab_inv s m live -> (k < Z.to_nat (class_count s))%nat ->
  In p (class_slots (classes s !!! k)) ->
  p <> NULL /\ in_size_t p /\
  in_region (classes s !!! k) p = true /\
  forall j : nat, (j < Z.to_nat (class_count s))%nat -> j <> k ->
    in_region (classes s !!! j) p = false /\
    (region_end (classes s !!! j) <= p \/
     p + slot_size (classes s !!! k) <= region_start (classes s !!! j)).
Proof.
  intros (_ & _ & _ & Hcls & Hord & _) Hk Hp.
  destruct (Hcls k Hk) as (Hl & _).
  pose proof (class_slot_range _ p Hl Hp) as Hr.
  pose proof Hl as (Hb & Hs & Hn & He & Hfit).
  split; [unfold NULL; lia|]. split; [unfold in_size_t; lia|].
  split; [apply class_slot_in_region; assumption|].
  intros j Hj Hne. unfold in_region.
  destruct (Hcls j Hj) as ((Hbj & Hsj & Hnj & Hej & Hfitj) & _).
  assert (Hge : 0 <= slot_count (classes s !!! j) * slot_size (classes s !!! j))
    by (apply Z.mul_nonneg_nonneg; lia).
  destruct (Nat.lt_ge_cases j k) as [Hlt|Hge'].
  - pose proof (Hord j k ltac:(lia)).
    destruct (Z.ltb_spec p (region_end (classes s !!! j))); [lia|].
    rewrite andb_false_r. split; [reflexivity|lia].
  - pose proof (Hord k j ltac:(lia)).
    destruct (Z.geb_spec p (region_start (classes s !!! j))); [lia|].
    split; [reflexivity|lia].
Qed.

Lemma slab__find_class_for_ptr_slot s m live (k : nat) p :
  slab_inv s m live -> (k < Z.to_nat (class_count s))%nat ->
  In p (class_slots (classes s !!! k)) ->
  slab__find_class_for_ptr s p = Z.of_nat k.
Proof.
  intros Hinv Hk Hp.
  destruct (slab_slot_region s m live k p Hinv Hk Hp) as (_ & _ & Hin & Hout).
  unfold slab__find_class_for_ptr.
  apply find_class_for_ptr_from_first; [lia|exact Hin|].
  intros j Hj. apply Hout; lia.
Qed.

Lemma class_index_not_NO_CLASS s (k : nat) :
  class_count s <= SLAB_MAX_CLASSES -> (k < Z.to_nat (class_count s))%nat ->
  (Z.of_nat k =? NO_CLASS) = false.
Proof.
  intros Hc Hk. apply Z.eqb_neq. unfold NO_CLASS, SIZE_MAX, SLAB_MAX_CLASSES in *.
  rewrite SIZE_MOD_val. lia.
Qed.

(** The usable size of a slot is the slot size of its class. *)
Lemma slab_usable_size_slot s m live (k : nat) p :
  slab_inv s m live -> (k < Z.to_nat (class_count s))%nat ->
  In p (class_slots (classes s !!! k)) ->
  slab_usable_size s p = slot_size (classes s !!! k).
Proof.
  intros Hinv Hk Hp.
  destruct (slab_slot_region s m live k p Hinv Hk Hp) as (Hnn & _).
  pose proof Hinv as (Hi & Hc & _).
  unfold slab_usable_size. rewrite Hi, Z.eqb_refl.
  destruct (Z.eqb_spec p NULL); [contradiction|]. simpl.
  rewrite (slab__find_class_for_ptr_slot s m live k p Hinv Hk Hp).
  rewrite (class_index_not_NO_CLASS s k) by (try assumption; lia).
  rewrite Nat2Z.id. reflexivity.
Qed.

End SlabSteps.

(** ** slab.h: allocation keeps the invariant *)

Section SlabAlloc.

Import Slab.

Lemma same_classes_sorted s s' : same_classes s s' -> slab_sorted s -> slab_sorted s'.
Proof.
  intros (_ & Hc & _ & Hl) Hs j k Hjk. rewrite Hc in Hjk.
  destruct (Hl j) as (-> & _). destruct (Hl k) as (-> & _). apply Hs. exact Hjk.
Qed.

(** The class invariant of a class untouched by a step that changes the
    live pointers only inside another class's region. *)
Lemma class_inv_other c m m' live live' :
  class_inv c m live ->
  mem_agree m m' (region_start c) (region_end c) ->
  Permutation (List.filter (in_region c) live) (List.filter (in_region c) live') ->
  class_inv c m' live'.
Proof.
  intros Hinv Hag Hlive. apply (class_inv_agree c m m') in Hinv; [|exact Hag].
  destruct Hinv as (Hl & fl & Hc & Hperm & Hfc). split; [exact Hl|].
  exists fl. split; [exact Hc|]. split; [|exact Hfc].
  apply (Permutation_trans (l' := fl ++ List.filter (in_region c) live)); [|exact Hperm].
  apply Permutation_app_head. apply Permutation_sym. exact Hlive.
Qed.

(** [slab_alloc] takes the head of the free list of the first class
    whose slots are large enough, and that slot becomes live. *)
Lemma slab_alloc_inv s m live size p s' :
  slab_inv s m live -> slab_alloc s m size = (p, s') -> p <> NULL ->
  exists k : nat,
    slab_class_for s size k /\ In p (class_slots (classes s !!! k)) /\
    slab_inv s' m (p :: live) /\ same_classes s s'.
Proof.
  intros Hinv H Hnn. pose proof Hinv as (Hi & Hc & Hlen & Hcls & Hord & Hlive).
  unfold slab_alloc in H.
  destruct (negb (initialized s =? SLAB_MAGIC) || (size =? 0));
    [injection H as <- _; contradiction|].
  unfold slab__find_class_for_size in H.
  destruct (find_class_for_size_from_cases (classes s) size (Z.to_nat (class_count s)) 0)
    as [Hno|(k & Hk & Hf & Hge & Hlow)].
  { rewrite Hno, Z.eqb_refl in H. injection H as <- _. contradiction. }
  rewrite Hf in H.
  rewrite (class_index_not_NO_CLASS s k) in H by (try assumption; lia).
  rewrite Nat2Z.id in H.
  destruct (Z.eqb_spec (free_list (classes s !!! k)) NULL) as [|Hne];
    [injection H as <- _; contradiction|].
  injection H as <- <-.
  pose proof (Hcls k ltac:(lia)) as (Hl & fl & Hchain & Hperm & Hfc).
  destruct (chain_head_nonnull m _ fl Hchain Hne) as (fl' & -> & Hchain').
  assert (Hp : In (free_list (classes s !!! k)) (class_slots (classes s !!! k))).
  { apply (Permutation_in _ Hperm). left. reflexivity. }
  destruct (slab_slot_region s m live k _ Hinv ltac:(lia) Hp) as (_ & _ & Hin & Hout).
  remember (classes s !!! k) as c eqn:Ec.
  set (c' := mk_class (slot_size c) (load_word m (free_list c)) (region_start c)
                      (region_end c) (slot_count c) (size_sub (free_count c) 1)).
  assert (Hsame : same_layout c c') by (repeat split).
  assert (Hlay : forall j : nat, same_layout (classes s !!! j) (<[k:=c']> (classes s) !!! j)).
  { apply insert_same_layout. rewrite <- Ec. exact Hsame. }
  exists k. rewrite <- Ec. split; [|split; [exact Hp|split]].
  - split; [lia|]. split; [rewrite <- Ec; exact Hge|]. intros j Hj. apply Hlow. lia.
  - unfold slab_inv. cbn [initialized class_count classes].
    split; [exact Hi|]. split; [exact Hc|].
    split; [rewrite length_insert; exact Hlen|]. split; [|split].
    + intros j Hj. destruct (Nat.eq_dec j k) as [->|Hjk].
      * rewrite list_lookup_total_insert_eq by lia.
        split; [unfold class_layout_ok in *; simpl; exact Hl|].
        exists fl'. cbn [free_list free_count].
        split; [exact Hchain'|]. split.
        -- rewrite (same_layout_slots c c' Hsame).
           cbn [List.filter]. rewrite (same_layout_in_region c c' _ Hsame), Hin.
           apply (Permutation_trans (Permutation_sym (Permutation_middle _ _ _))).
           exact Hperm.
        -- unfold c'. cbn [free_count]. rewrite Hfc. simpl length. unfold size_sub.
           apply Permutation_length in Hperm. unfold class_slots in Hperm.
           rewrite length_app, length_slot_addrs in Hperm. simpl length in Hperm.
           destruct Hl as (Hb & Hs & Hn & He & Hfit).
           rewrite wrap_small; [lia|]. unfold in_size_t. nia.
      * rewrite list_lookup_total_insert_ne by lia.
        apply (class_inv_other _ m m live); [apply Hcls; exact Hj|apply mem_agree_refl|].
        cbn [List.filter]. rewrite (proj1 (Hout j Hj Hjk)). apply Permutation_refl.
    + intros i j Hij.
      destruct (Hlay i) as (_ & _ & -> & _). destruct (Hlay j) as (_ & -> & _ & _).
      apply Hord. exact Hij.
    + intros q [<-|Hq].
      * exists k. split; [lia|]. rewrite (same_layout_in_region _ _ _ (Hlay k)).
        rewrite <- Ec. exact Hin.
      * destruct (Hlive q Hq) as (j & Hj & Hjin). exists j. split; [exact Hj|].
        rewrite (same_layout_in_region _ _ _ (Hlay j)). exact Hjin.
  - split; [reflexivity|]. split; [reflexivity|].
    split; [cbn [classes]; apply length_insert|exact Hlay].
Qed.

Lemma slab_alloc_null s m size s' : slab_alloc s m size = (NULL, s') -> s' = s.
Proof.
  unfold slab_alloc.
  destruct (negb (initialized s =? SLAB_MAGIC) || (size =? 0)); [congruence|].
  destruct (slab__find_class_for_size s size =? NO_CLASS); [congruence|].
  destruct (Z.eqb_spec (free_list (classes s !!! Z.to_nat (slab__find_class_for_size s size)))
                       NULL); [congruence|].
  intros H. injection H as Hp _. contradiction.
Qed.

(** The dispatch rule on a slab whose slot sizes ascend: the slot
    returned for [size] bytes belongs to the first class large enough,
    its usable size is that class's slot size, and no class large enough
    has smaller slots. *)
Lemma slab_alloc_smallest_class s m live size p s' :
  slab_inv s m live -> slab_sorted s ->
  slab_alloc s m size = (p, s') -> p <> NULL ->
  exists k : nat,
    slab_class_for s size k /\
    slab_usable_size s' p = slot_size (classes s !!! k) /\
    forall j : nat, (j < Z.to_nat (class_count s))%nat ->
      size <= slot_size (classes s !!! j) ->
      slot_size (classes s !!! k) <= slot_size (classes s !!! j).
Proof.
  intros Hinv Hsorted H Hnn.
  destruct (slab_alloc_inv s m live size p s' Hinv H Hnn)
    as (k & Hfor & Hp & Hinv' & Hsame).
  exists k. split; [exact Hfor|]. split.
  - destruct Hsame as (_ & Hc & _ & Hlay).
    destruct Hfor as (Hk & _). rewrite <- Hc in Hk.
    rewrite (slab_usable_size_slot s' m (p :: live) k p Hinv' Hk).
    + apply (Hlay k).
    + rewrite (same_layout_slots _ _ (Hlay k)). exact Hp.
  - intros j Hj Hge. destruct Hfor as (Hk & _ & Hlow).
    destruct (Nat.lt_ge_cases j k) as [Hlt|Hge'].
    + specialize (Hlow j Hlt). lia.
    + apply Hsorted. lia.
Qed.

End SlabAlloc.

(** ** slab.h: frees and writes keep the invariant *)

Section SlabFree.

Import Slab.

(** A live pointer is a slot of the class whose sub-region holds it. *)
Lemma slab_live_slot s m live p :
  slab_inv s m live -> In p live ->
  exists k : nat, (k < Z.to_nat (class_count s))%nat /\
                  In p (class_slots (classes s !!! k)).
Proof.
  intros (_ & _ & _ & Hcls & _ & Hlive) Hp.
  destruct (Hlive p Hp) as (k & Hk & Hin). exists k. split; [exact Hk|].
  destruct (Hcls k Hk) as (_ & fl & _ & Hperm & _).
  apply (Permutation_in _ Hperm). apply in_or_app. right.
  apply List.filter_In. split; assumption.
Qed.

(** [slab__validate_ptr_in_class] accepts the slots of the class. *)
Lemma slab__validate_ptr_in_class_slot c p :
  class_layout_ok c -> In p (class_slots c) -> slab__validate_ptr_in_class c p = true.
Proof.
  intros Hl Hp. pose proof Hl as (Hb & Hs & Hn & He & Hfit).
  apply in_class_slots in Hp as (j & Hj & ->); [|lia].
  assert (j * slot_size c < slot_count c * slot_size c)
    by (apply Z.mul_lt_mono_pos_r; lia).
  assert (0 <= j * slot_size c) by (apply Z.mul_nonneg_nonneg; lia).
  unfold slab__validate_ptr_in_class, ptr_diff.
  destruct (Z.ltb_spec (region_start c + j * slot_size c) (region_start c)); [lia|].
  destruct (Z.geb_spec (region_start c + j * slot_size c) (region_end c)); [lia|]. simpl.
  replace (region_start c + j * slot_size c - region_start c) with (j * slot_size c) by lia.
  rewrite wrap_small by (unfold in_size_t; lia).
  rewrite Z_mod_mult. reflexivity.
Qed.

Lemma class_chain_head_in_size_t c m live :
  class_inv c m live -> in_size_t (free_list c).
Proof.
  intros (Hl & fl & Hc & Hperm & _). destruct fl as [|q fl]; simpl in Hc.
  - rewrite Hc. unfold in_size_t, NULL. rewrite SIZE_MOD_val. lia.
  - destruct Hc as (-> & _ & _).
    assert (Hq : In q (class_slots c)).
    { apply (Permutation_in _ Hperm). left. reflexivity. }
    pose proof (class_slot_range c q Hl Hq). destruct Hl as (Hb & Hs & Hn & He & Hfit).
    unfold in_size_t. lia.
Qed.

(** [slab_free] of a live pointer returns, puts the slot at the head of
    the free list of its class and leaves the other classes alone. *)
Lemma slab_free_inv s m live live' p :
  slab_inv s m live -> Permutation live (p :: live') ->
  exists s' m', slab_free s m p = Done (s', m') /\
                slab_inv s' m' live' /\ same_classes s s'.
Proof.
  intros Hinv Hlive.
  assert (Hpl : In p live).
  { apply (Permutation_in _ (Permutation_sym Hlive)). left. reflexivity. }
  destruct (slab_live_slot s m live p Hinv Hpl) as (k & Hk & Hps).
  destruct (slab_slot_region s m live k p Hinv Hk Hps) as (Hnn & Hpin & Hin & Hout).
  pose proof (slab__find_class_for_ptr_slot s m live k p Hinv Hk Hps) as Hfind.
  pose proof Hinv as (Hi & Hc & Hlen & Hcls & Hord & Hlv).
  pose proof (Hcls k Hk) as Hck.
  pose proof (class_chain_head_in_size_t _ _ _ Hck) as Hhead.
  pose proof Hck as (Hl & fl & Hchain & Hperm & Hfc).
  pose proof (class_slot_range _ p Hl Hps) as Hpr.
  unfold slab_free. destruct (Z.eqb_spec p NULL); [contradiction|].
  rewrite Hi, Z.eqb_refl, Hfind.
  rewrite (class_index_not_NO_CLASS s k) by (try assumption; lia).
  rewrite Nat2Z.id.
  rewrite (slab__validate_ptr_in_class_slot _ p Hl Hps). cbn [c_assert negb].
  remember (classes s !!! k) as c eqn:Ec.
  set (c' := mk_class (slot_size c) p (region_start c) (region_end c)
                      (slot_count c) (size_add (free_count c) 1)).
  set (m' := store_word m p (free_list c)).
  assert (Hsame : same_layout c c') by (repeat split).
  assert (Hlay : forall j : nat, same_layout (classes s !!! j) (<[k:=c']> (classes s) !!! j)).
  { apply insert_same_layout. rewrite <- Ec. exact Hsame. }
  assert (Hfilt : forall d, Permutation (List.filter (in_region d) live)
                                        (List.filter (in_region d) (p :: live'))).
  { intros d. apply Permutation_filter. exact Hlive. }
  eexists _, _. split; [reflexivity|]. split.
  - unfold slab_inv. cbn [initialized class_count classes].
    split; [reflexivity|]. split; [exact Hc|].
    split; [rewrite length_insert; exact Hlen|]. split; [|split].
    + intros j Hj. destruct (Nat.eq_dec j k) as [->|Hjk].
      * rewrite list_lookup_total_insert_eq by lia.
        split; [unfold class_layout_ok in *; simpl; exact Hl|].
        exists (p :: fl). unfold c'. cbn [free_list free_count].
        assert (Hperm' : Permutation ((p :: fl) ++ List.filter (in_region c) live')
                                     (class_slots c)).
        { apply (Permutation_trans (l' := fl ++ List.filter (in_region c) live));
            [|exact Hperm].
          apply (Permutation_trans (l' := fl ++ p :: List.filter (in_region c) live')).
          - simpl. apply Permutation_middle.
          - apply Permutation_app_head. apply Permutation_sym.
            specialize (Hfilt c). cbn [List.filter] in Hfilt. rewrite Hin in Hfilt.
            exact Hfilt. }
        split; [|split].
        -- cbn [chain]. split; [reflexivity|]. split; [exact Hnn|].
           fold m'. unfold m'. rewrite load_word_store_word_same by exact Hhead.
           apply (chain_agree _ m); [exact Hchain|].
           intros q Hq. apply mem_agree_store_word.
           assert (Hqs : In q (class_slots c)).
           { apply (Permutation_in _ Hperm). apply in_or_app. left. exact Hq. }
           assert (Hne : p <> q).
           { intros ->.
             assert (Hnd : List.NoDup (fl ++ List.filter (in_region c) live)).
             { apply (Permutation_NoDup (Permutation_sym Hperm)).
               apply NoDup_slot_addrs. destruct Hl as (_ & Hs & _). lia. }
             apply (NoDup_app_disjoint _ _ q Hnd); [exact Hq|].
             apply List.filter_In. split; assumption. }
           destruct Hl as (_ & Hs & _).
           pose proof (slots_apart (region_start c) (slot_size c) _ _ p q
                         ltac:(lia) Hps Hqs Hne). lia.
        -- exact Hperm'.
        -- rewrite Hfc. simpl length. unfold size_add.
           apply Permutation_length in Hperm'. unfold class_slots in Hperm'.
           rewrite length_app, length_slot_addrs in Hperm'. simpl length in Hperm'.
           destruct Hl as (Hb & Hs & Hn & He & Hfit).
           rewrite wrap_small; [lia|]. unfold in_size_t. nia.
      * rewrite list_lookup_total_insert_ne by lia.
        destruct (Hout j Hj Hjk) as (Hnot & Hfar).
        apply (class_inv_other _ m m' live); [apply Hcls; exact Hj| |].
        -- apply mem_agree_store_word. destruct Hl as (_ & Hs & _). lia.
        -- specialize (Hfilt (classes s !!! j)). cbn [List.filter] in Hfilt.
           rewrite Hnot in Hfilt. exact Hfilt.
    + intros i j Hij.
      destruct (Hlay i) as (_ & _ & -> & _). destruct (Hlay j) as (_ & -> & _ & _).
      apply Hord. exact Hij.
    + intros q Hq.
      assert (Hql : In q live).
      { apply (Permutation_in _ (Permutation_sym Hlive)). right. exact Hq. }
      destruct (Hlv q Hql) as (j & Hj & Hjin). exists j. split; [exact Hj|].
      rewrite (same_layout_in_region _ _ _ (Hlay j)). exact Hjin.
  - split; [symmetry; exact Hi|]. split; [reflexivity|].
    split; [cbn [classes]; apply length_insert|exact Hlay].
Qed.

(** A write into a live slot does not touch any free list. *)
Lemma slab_write_inv s m live p a b :
  slab_inv s m live -> In p live -> p <= a < p + slab_usable_size s p ->
  slab_inv s (store8 m a b) live.
Proof.
  intros Hinv Hpl Ha.
  destruct (slab_live_slot s m live p Hinv Hpl) as (k & Hk & Hps).
  rewrite (slab_usable_size_slot s m live k p Hinv Hk Hps) in Ha.
  destruct (slab_slot_region s m live k p Hinv Hk Hps) as (_ & _ & Hin & Hout).
  pose proof Hinv as (Hi & Hc & Hlen & Hcls & Hord & Hlv).
  split; [exact Hi|]. split; [exact Hc|]. split; [exact Hlen|].
  split; [|split; assumption].
  intros j Hj. destruct (Nat.eq_dec j k) as [->|Hjk].
  - destruct (Hcls k Hk) as (Hl & fl & Hchain & Hperm & Hfc).
    split; [exact Hl|]. exists fl. split; [|split; assumption].
    apply (chain_agree _ m); [exact Hchain|].
    intros q Hq. apply mem_agree_store8.
    assert (Hqs : In q (class_slots (classes s !!! k))).
    { apply (Permutation_in _ Hperm). apply in_or_app. left. exact Hq. }
    assert (Hne : p <> q).
    { intros ->.
      assert (Hnd : List.NoDup (fl ++ List.filter (in_region (classes s !!! k)) live)).
      { apply (Permutation_NoDup (Permutation_sym Hperm)).
        apply NoDup_slot_addrs. destruct Hl as (_ & Hs & _). lia. }
      apply (NoDup_app_disjoint _ _ q Hnd); [exact Hq|].
      apply List.filter_In. split; assumption. }
    destruct Hl as (_ & Hs & _).
    pose proof (fun H => slots_apart _ _ _ _ p q H Hps Hqs Hne) as Hap.
    specialize (Hap ltac:(lia)). lia.
  - destruct (Hout j Hj Hjk) as (_ & Hfar).
    apply (class_inv_agree _ m); [apply Hcls; exact Hj|].
    apply mem_agree_store8. lia.
Qed.

(** Every reachable slab satisfies the invariant, and its slot sizes
    ascend. *)
Lemma slab_reach_inv s m live : slab_reach s m live -> slab_inv s m live /\ slab_sorted s.
Proof.
  induction 1 as [slab0 m0 buf size sizes count s m Hreg Hsz Hsizes Hc Hlen Hcls Hfit Hinit
                 |s m live size p s' _ [IH IHs] Hal Hnn
                 |s m live live' p s' m' _ [IH IHs] Hperm Hfr
                 |s m live p a b _ [IH IHs] Hp Ha].
  - destruct (slab_init_inv slab0 m0 buf size sizes count s m) as (Hinv & Hsorted);
      try assumption.
    split; [exact Hinv|apply Hsorted; exact Hfit].
  - destruct (slab_alloc_inv s m live size p s' IH Hal Hnn) as (k & _ & _ & Hinv & Hsame).
    split; [exact Hinv|exact (same_classes_sorted s s' Hsame IHs)].
  - destruct (slab_free_inv s m live live' p IH Hperm) as (s2 & m2 & Hfr' & Hinv & Hsame).
    rewrite Hfr in Hfr'. injection Hfr' as <- <-.
    split; [exact Hinv|exact (same_classes_sorted s s' Hsame IHs)].
  - split; [exact (slab_write_inv s m live p a b IH Hp Ha)|exact IHs].
Qed.

(** In a reachable slab a free of a pointer the client holds returns. *)
Lemma slab_reach_free_returns s m live p :
  slab_reach s m live -> In p live -> exists s' m', slab_free s m p = Done (s', m').
Proof.
  intros Hr Hp. destruct (slab_reach_inv s m live Hr) as (Hinv & _).
  apply in_split in Hp as (l1 & l2 & ->).
  destruct (slab_free_inv s m _ (l1 ++ l2) p Hinv) as (s' & m' & Hfr & _).
  - apply Permutation_sym. apply Permutation_middle.
  - exists s', m'. exact Hfr.
Qed.

(** The dispatch rule in every reachable slab: the usable size of the
    slot returned for [size] bytes is the least slot size that is at
    least [size]. *)
Lemma slab_reach_alloc_smallest_class s m live size p s' :
  slab_reach s m live -> slab_alloc s m size = (p, s') -> p <> NULL ->
  exists k : nat,
    (k < Z.to_nat (class_count s))%nat /\
    slab_usable_size s' p = slot_size (classes s !!! k) /\
    size <= slot_size (classes s !!! k) /\
    forall j : nat, (j < Z.to_nat (class_count s))%nat ->
      size <= slot_size (classes s !!! j) ->
      slot_size (classes s !!! k) <= slot_size (classes s !!! j).
Proof.
  intros Hr H Hnn. destruct (slab_reach_inv s m live Hr) as (Hinv & Hsorted).
  destruct (slab_alloc_smallest_class s m live size p s' Hinv Hsorted H Hnn)
    as (k & (Hk & Hge & _) & Hus & Hmin).
  exists k. split; [exact Hk|]. split; [exact Hus|]. split; [exact Hge|exact Hmin].
Qed.

End SlabFree.

(** ** Where allocations are placed *)

Section PlacementClaims.

Ltac range := unfold in_size_t; rewrite ?SIZE_MOD_val; lia.

Lemma stack_init_ok buf size s :
  region_ok buf size -> size + Stack.STACK_HEADER_SIZE <= PTRDIFF_MAX ->
  Stack.stack_init buf size = Some s -> stack_ok s /\ Stack.offset s = 0.
Proof.
  intros (Hb & Hs & Hr) Hp H. unfold Stack.stack_init in H.
  destruct (Z.eqb_spec size 0) as [|Hnz]; [rewrite orb_true_r in H; discriminate|].
  destruct (buf =? NULL); [discriminate|]. injection H as <-.
  unfold stack_ok; simpl. repeat split; lia.
Qed.

Lemma demo_pool_reach : pool_reach (fst demo_pool) (snd demo_pool) [].
Proof.
  apply (pool_reach_init Pool.pool_zero ∅ 4096 64 16).
  - unfold region_ok. rewrite SIZE_MOD_val. lia.
  - range.
  - range.
  - vm_compute. reflexivity.
Qed.

(** A multiple of a power of two is a multiple of every smaller one. *)
Lemma pow2_multiple_le p k k' :
  0 <= k <= k' -> p mod 2 ^ k' = 0 -> p mod 2 ^ k = 0.
Proof.
  intros Hk Hp.
  assert (0 < 2 ^ k) by (apply Z.pow_pos_nonneg; lia).
  assert (0 < 2 ^ k') by (apply Z.pow_pos_nonneg; lia).
  apply Z.mod_divide in Hp as [q ->]; [|lia].
  replace k' with ((k' - k) + k) by lia. rewrite Z.pow_add_r by lia.
  rewrite Z.mul_assoc. apply Z_mod_mult.
Qed.

(** C1: two successful allocations of nonzero size made by one
    allocator, with only allocation calls between them, occupy disjoint
    byte ranges.  Arena without chaining and stack: blocks [(p1, n1)] and
    [(p2, n2)] returned at positions [i < j] of a run of allocation
    calls.  Pool: slots [p1] and [p2] returned at positions [i < j] of a
    run of [pool_alloc] calls from a reachable state; a pool block has
    [slot_size] bytes. *)
Theorem allocations_do_not_overlap :
  (forall a reqs (i j : nat) p1 n1 p2 n2,
     arena_ok a -> Forall arena_req_ok reqs -> (i < j)%nat ->
     fst (Arena.arena_allocs a reqs) !! i = Some (p1, n1) ->
     fst (Arena.arena_allocs a reqs) !! j = Some (p2, n2) ->
     p1 <> NULL -> p2 <> NULL -> 0 < n1 -> 0 < n2 ->
     ranges_disjoint p1 n1 p2 n2) /\
  (forall s m reqs res fin mfin (i j : nat) p1 n1 p2 n2,
     stack_ok s -> Forall stack_req_ok reqs ->
     Stack.stack_allocs s m reqs = Done (res, fin, mfin) -> (i < j)%nat ->
     res !! i = Some (p1, n1) -> res !! j = Some (p2, n2) ->
     p1 <> NULL -> p2 <> NULL ->
     ranges_disjoint p1 n1 p2 n2) /\
  (forall s m live n (i j : nat) p1 p2,
     pool_reach s m live -> (i < j)%nat ->
     fst (pool_allocs s m n) !! i = Some p1 ->
     fst (pool_allocs s m n) !! j = Some p2 ->
     p1 <> NULL -> p2 <> NULL ->
     ranges_disjoint p1 (Pool.slot_size s) p2 (Pool.slot_size s)).
Proof.
  split; [|split].
  - intros a reqs i j p1 n1 p2 n2 Hok Hreqs Hij H1 H2 Hn1 Hn2 Hs1 Hs2. left.
    eapply arena_allocs_ordered; eassumption.
  - intros s m reqs res fin mfin i j p1 n1 p2 n2 Hok Hreqs H Hij H1 H2 Hn1 Hn2. left.
    eapply stack_allocs_ordered; eassumption.
  - intros s m live n i j p1 p2 Hreach Hij H1 H2 Hn1 Hn2.
    eapply pool_allocs_disjoint; try eassumption.
    apply pool_reach_inv. exact Hreach.
Qed.

Lemma allocations_do_not_overlap_witness :
  (arena_ok odd_arena /\ Forall arena_req_ok [(8, 16); (30, 32)] /\
   ranges_disjoint 4097 8 4129 30) /\
  (stack_ok demo_stack /\ Forall stack_req_ok [(64, 8); (128, 64)] /\
   ranges_disjoint 4104 64 4224 128) /\
  (pool_reach (fst demo_pool) (snd demo_pool) [] /\
   ranges_disjoint 4096 16 4112 16).
Proof.
  destruct allocations_do_not_overlap as (Harena & Hstack & Hpool).
  assert (Ha : arena_ok odd_arena).
  { unfold arena_ok, in_size_t; simpl. rewrite SIZE_MOD_val. lia. }
  assert (Har : Forall arena_req_ok [(8, 16); (30, 32)]).
  { repeat constructor; simpl; range. }
  assert (Hs : stack_ok demo_stack).
  { unfold stack_ok, PTRDIFF_MAX, Stack.STACK_HEADER_SIZE, WORD; simpl.
    rewrite SIZE_MOD_val. lia. }
  assert (Hsr : Forall stack_req_ok [(64, 8); (128, 64)]).
  { repeat constructor; simpl; range. }
  split; [|split].
  - split; [exact Ha|]. split; [exact Har|].
    apply (Harena odd_arena [(8, 16); (30, 32)] 0%nat 1%nat 4097 8 4129 30 Ha Har);
      try reflexivity; try lia; unfold NULL; lia.
  - split; [exact Hs|]. split; [exact Hsr|].
    refine (Hstack demo_stack ∅ [(64, 8); (128, 64)] _ _ _ 0%nat 1%nat 4104 64 4224 128
                   Hs Hsr _ _ _ _ _ _);
      [vm_compute; reflexivity|lia|reflexivity|reflexivity|unfold NULL; lia|unfold NULL; lia].
  - split; [exact demo_pool_reach|].
    apply (Hpool (fst demo_pool) (snd demo_pool) [] 2%nat 0%nat 1%nat 4096 4112
                 demo_pool_reach); try reflexivity; try lia; unfold NULL; lia.
Defined.

(** C2 fails on the code for the arena: [arena__alloc] rounds the
    offset up and returns [buffer + aligned_offset] (arena.h:542), so on
    the 100-byte buffer at the odd address 4097 an [arena_alloc_aligned]
    of 8 bytes for 16-byte alignment succeeds and returns 4097, which is
    no multiple of 16.  [stack_alloc_aligned] rounds the address itself
    and returns 4112 for the same request on the same buffer. *)
Theorem arena_alloc_aligned_misaligned_address :
  arena_ok odd_arena /\ arena_req_ok (8, 16) /\
  Arena.arena_alloc_aligned odd_arena 8 16 =
    Done (4097, Arena.mk_arena 4097 100 8 true) /\
  4097 mod 16 = 1 /\
  Stack.stack_alloc_aligned (Stack.mk_stack 4097 100 0) ∅ 8 16 =
    Done (4112, Stack.mk_stack 4097 100 23, store_word ∅ 4104 0) /\
  4112 mod 16 = 0.
Proof.
  split; [unfold arena_ok, in_size_t; simpl; rewrite SIZE_MOD_val; lia|].
  split; [repeat split; simpl; range|].
  split; [reflexivity|]. split; [reflexivity|].
  split; [vm_compute; reflexivity|reflexivity].
Qed.

(** The alignment the two allocators do give: a pointer returned by
    [stack_alloc_aligned] for a power-of-two alignment [a] is a multiple
    of [a], whatever the buffer; a pointer returned by
    [arena_alloc_aligned] lies a multiple of [a] above the buffer base,
    so it is a multiple of [a] when the base is. *)
Lemma allocation_alignment :
  (forall s m size a p s' m',
     in_size_t a -> is_power_of_two a = true ->
     Stack.stack_alloc_aligned s m size a = Done (p, s', m') -> p <> NULL ->
     p mod a = 0) /\
  (forall ar size a p ar',
     arena_ok ar -> arena_req_ok (size, a) -> 0 < size ->
     Arena.arena_alloc_aligned ar size a = Done (p, ar') -> p <> NULL ->
     (p - Arena.buffer ar) mod a = 0 /\
     (Arena.buffer ar mod a = 0 -> p mod a = 0)).
Proof.
  split.
  - intros s m size a p s' m' Ha Hp H Hnn.
    destruct (is_power_of_two_spec a Ha Hp) as (k & Hk & ->).
    destruct (Z.ltb_spec (2 ^ k) Stack.STACK_MIN_ALIGNMENT) as [Hsmall|Hbig].
    + assert (Hal : stack_alignment (2 ^ k) = 2 ^ 3).
      { unfold stack_alignment. destruct (Z.ltb_spec (2 ^ k) Stack.STACK_MIN_ALIGNMENT);
          [reflexivity|lia]. }
      assert (Hk3 : k <= 3).
      { destruct (Z_le_gt_dec k 3); [assumption|exfalso].
        assert (2 ^ 3 <= 2 ^ k) by (apply Z.pow_le_mono_r; lia).
        unfold Stack.STACK_MIN_ALIGNMENT, WORD in Hsmall. change (2 ^ 3) with 8 in *. lia. }
      apply (pow2_multiple_le p k 3); [lia|]. rewrite <- Hal.
      apply (stack_alloc_aligned_multiple s m size (2 ^ k) p s' m'); try assumption.
      rewrite Hal. reflexivity.
    + assert (Hal : stack_alignment (2 ^ k) = 2 ^ k).
      { unfold stack_alignment. destruct (Z.ltb_spec (2 ^ k) Stack.STACK_MIN_ALIGNMENT);
          [lia|reflexivity]. }
      rewrite <- Hal.
      apply (stack_alloc_aligned_multiple s m size (2 ^ k) p s' m'); try assumption.
      rewrite Hal. exact Hp.
  - intros ar size a p ar' Hok Hreq Hsz H Hnn.
    apply (arena__alloc_aligned_offset ar size a p ar'); assumption.
Qed.

Lemma allocation_alignment_witness :
  (in_size_t 4 /\ is_power_of_two 4 = true /\ 4104 mod 4 = 0) /\
  (arena_ok odd_arena /\ arena_req_ok (8, 16) /\ (4097 - 4097) mod 16 = 0).
Proof.
  destruct allocation_alignment as (Hstack & Harena).
  assert (Ha : arena_ok odd_arena).
  { unfold arena_ok, in_size_t; simpl. rewrite SIZE_MOD_val. lia. }
  assert (Har : arena_req_ok (8, 16)) by (repeat split; simpl; range).
  split.
  - split; [range|]. split; [reflexivity|].
    refine (Hstack demo_stack ∅ 64 4 4104 _ _ _ eq_refl _ _);
      [range|vm_compute; reflexivity|unfold NULL; lia].
  - split; [exact Ha|]. split; [exact Har|].
    refine (proj1 (Harena odd_arena 8 16 4097 _ Ha Har _ _ _));
      [lia|reflexivity|unfold NULL; lia].
Defined.

End PlacementClaims.

(** ** Allocations that do not fit *)

Section FailureClaims.

Ltac range := unfold in_size_t; rewrite ?SIZE_MOD_val; lia.

(** C3: an allocation that cannot be served for lack of room returns
    null and leaves the descriptor, and the byte store, exactly as they
    were; every query on the descriptor (watermark, free-list head,
    [free_count], capacity, statistics) therefore answers as before.
    Arena without chaining: no aligned position at or above the
    watermark leaves [size] bytes.  Stack: header and block do not fit.
    Pool: no free slot.  Slab: no class is large enough, or the first
    class that is has an empty free list. *)
Theorem failed_allocation_leaves_state :
  (forall a size align,
     arena_ok a -> arena_req_ok (size, align) -> 0 < size ->
     arena_cannot_fit a size align ->
     Arena.arena__alloc a size align = Done (NULL, a)) /\
  (forall s m size alignment,
     stack_ok s -> stack_req_ok (size, alignment) ->
     stack_cannot_fit s size alignment ->
     Stack.stack_alloc_aligned s m size alignment = Done (NULL, s, m)) /\
  (forall s m live,
     pool_reach s m live -> Pool.pool_available s = 0 ->
     Pool.pool_alloc s m = (NULL, s)) /\
  (forall slab m size,
     slab_class_absent slab size \/
     (exists k, slab_class_for slab size k /\
                Slab.free_list (Slab.classes slab !!! k) = NULL) ->
     Slab.slab_alloc slab m size = (NULL, slab)).
Proof.
  split; [|split; [|split]].
  - intros a size align Hok Hreq Hsz Hfit.
    apply arena__alloc_cannot_fit; assumption.
  - intros s m size alignment Hok Hreq Hfit.
    apply stack_alloc_aligned_cannot_fit; assumption.
  - intros s m live Hreach Hz.
    apply (pool_alloc_exhausted s m live); [apply pool_reach_inv|]; assumption.
  - intros slab m size H. apply slab_alloc_no_class. exact H.
Qed.

Lemma failed_allocation_leaves_state_witness :
  (arena_ok odd_arena /\ arena_req_ok (200, 16) /\ arena_cannot_fit odd_arena 200 16 /\
   Arena.arena__alloc odd_arena 200 16 = Done (NULL, odd_arena)) /\
  (stack_ok demo_stack /\ stack_req_ok (5000, 8) /\ stack_cannot_fit demo_stack 5000 8 /\
   Stack.stack_alloc_aligned demo_stack ∅ 5000 8 = Done (NULL, demo_stack, ∅)) /\
  (exists s live, pool_reach s (snd demo_pool) live /\ Pool.pool_available s = 0 /\
                  Pool.pool_alloc s (snd demo_pool) = (NULL, s)) /\
  (slab_class_absent (fst demo_slab) 100 /\
   Slab.slab_alloc (fst demo_slab) (snd demo_slab) 100 = (NULL, fst demo_slab)).
Proof.
  destruct failed_allocation_leaves_state as (Harena & Hstack & Hpool & Hslab).
  assert (Ha : arena_ok odd_arena).
  { unfold arena_ok, in_size_t; simpl. rewrite SIZE_MOD_val. lia. }
  assert (Har : arena_req_ok (200, 16)) by (repeat split; simpl; range).
  assert (Haf : arena_cannot_fit odd_arena 200 16) by (vm_compute; reflexivity).
  assert (Hs : stack_ok demo_stack).
  { unfold stack_ok, PTRDIFF_MAX, Stack.STACK_HEADER_SIZE, WORD; simpl.
    rewrite SIZE_MOD_val. lia. }
  assert (Hsr : stack_req_ok (5000, 8)) by (repeat split; simpl; range).
  assert (Hsf : stack_cannot_fit demo_stack 5000 8) by (vm_compute; reflexivity).
  assert (Habs : slab_class_absent (fst demo_slab) 100).
  { intros k Hk. change (Z.to_nat (Slab.class_count (fst demo_slab))) with 2%nat in Hk.
    destruct k as [|[|k]]; [vm_compute; reflexivity|vm_compute; reflexivity|lia]. }
  split; [|split; [|split]].
  - split; [exact Ha|]. split; [exact Har|]. split; [exact Haf|].
    apply (Harena odd_arena 200 16 Ha Har); [lia|exact Haf].
  - split; [exact Hs|]. split; [exact Hsr|]. split; [exact Hsf|].
    apply (Hstack demo_stack ∅ 5000 8 Hs Hsr Hsf).
  - pose (m := snd demo_pool).
    pose (s1 := snd (Pool.pool_alloc (fst demo_pool) m)).
    pose (s2 := snd (Pool.pool_alloc s1 m)).
    pose (s3 := snd (Pool.pool_alloc s2 m)).
    pose (s4 := snd (Pool.pool_alloc s3 m)).
    assert (R : pool_reach s4 m [4144; 4128; 4112; 4096]).
    { apply (pool_reach_alloc s3 m _ 4144 s4); [|vm_compute; reflexivity|discriminate].
      apply (pool_reach_alloc s2 m _ 4128 s3); [|vm_compute; reflexivity|discriminate].
      apply (pool_reach_alloc s1 m _ 4112 s2); [|vm_compute; reflexivity|discriminate].
      apply (pool_reach_alloc (fst demo_pool) m _ 4096 s1);
        [exact demo_pool_reach|vm_compute; reflexivity|discriminate]. }
    assert (Z : Pool.pool_available s4 = 0) by (vm_compute; reflexivity).
    exists s4, [4144; 4128; 4112; 4096].
    exact (conj R (conj Z (Hpool s4 m _ R Z))).
  - split; [exact Habs|]. apply Hslab. left. exact Habs.
Defined.

End FailureClaims.

(** ** Zero-size aliasing in the arena, LIFO discipline of the stack *)

Section ArenaStackClaims.

Ltac range := unfold in_size_t; rewrite ?SIZE_MOD_val; lia.

Lemma ARENA_DEFAULT_ALIGN_pow2 : is_power_of_two Arena.ARENA_DEFAULT_ALIGN = true.
Proof. reflexivity. Qed.

Lemma arena__alloc_zero_size a align :
  Arena.initialized a = true -> is_power_of_two align = true ->
  Arena.arena__alloc a 0 align = Done (ptr_add (Arena.buffer a) (Arena.offset a), a).
Proof.
  intros Hi Hp. unfold Arena.arena__alloc, Arena.arena__is_power_of_two, c_assert.
  rewrite Hi, Hp. reflexivity.
Qed.

(** C7: on an initialized arena [arena_alloc] with size 0 returns
    [buffer + offset] and leaves the descriptor as it was; so every call
    of a run of zero-size allocations, whatever their power-of-two
    alignments, returns that same pointer. *)
Theorem arena_zero_size_alloc_aliases a reqs :
  Arena.initialized a = true ->
  Forall (fun r => fst r = 0 /\ is_power_of_two (snd r) = true) reqs ->
  Arena.arena_alloc a 0 = Done (ptr_add (Arena.buffer a) (Arena.offset a), a) /\
  Arena.arena_allocs a reqs =
    (map (fun _ => (ptr_add (Arena.buffer a) (Arena.offset a), 0)) reqs, a).
Proof.
  intros Hi Hreqs. split.
  - apply arena__alloc_zero_size; [exact Hi|reflexivity].
  - induction Hreqs as [|[size align] reqs [Hsz Hp] _ IH]; [reflexivity|].
    simpl in Hsz, Hp. subst size. cbn [Arena.arena_allocs map].
    rewrite arena__alloc_zero_size by assumption. rewrite IH. reflexivity.
Qed.

Lemma arena_zero_size_alloc_aliases_witness :
  Arena.initialized (Arena.mk_arena 4096 4096 24 true) = true /\
  Arena.arena_alloc (Arena.mk_arena 4096 4096 24 true) 0 =
    Done (4120, Arena.mk_arena 4096 4096 24 true) /\
  Arena.arena_allocs (Arena.mk_arena 4096 4096 24 true) [(0, 32); (0, 1)] =
    ([(4120, 0); (4120, 0)], Arena.mk_arena 4096 4096 24 true).
Proof.
  split; [reflexivity|].
  apply (arena_zero_size_alloc_aliases (Arena.mk_arena 4096 4096 24 true) [(0, 32); (0, 1)]).
  - reflexivity.
  - repeat constructor.
Defined.

(** C8: on a stack fresh from [stack_init], after a run of allocations
    that all succeeded, freeing the returned pointers last first brings
    [used] back to 0.  [m'] is the store at the time of the frees: the
    client may have written anything into its blocks, the header words
    in front of them are those the allocations wrote. *)
Theorem stack_reverse_frees_restore_empty buf size m reqs s0 res fin mfin m' :
  region_ok buf size -> size + Stack.STACK_HEADER_SIZE <= PTRDIFF_MAX ->
  Stack.stack_init buf size = Some s0 ->
  Forall stack_req_ok reqs ->
  Stack.stack_allocs s0 m reqs = Done (res, fin, mfin) ->
  Forall (fun r => fst r <> NULL) res ->
  Forall (fun r => mem_agree mfin m' (fst r - Stack.STACK_HEADER_SIZE) (fst r)) res ->
  exists s', Stack.stack_frees fin m' (rev (map fst res)) = Done s' /\
             Stack.stats_used (Stack.stack_stats s') = 0.
Proof.
  intros Hreg Hmax Hinit Hreqs Hrun Hnn Hhdr.
  destruct (stack_init_ok buf size s0 Hreg Hmax Hinit) as [Hok Hoff].
  exists s0. split; [|exact Hoff].
  apply (stack_frees_unwind reqs s0 m res fin mfin m'); assumption.
Qed.

Lemma stack_reverse_frees_restore_empty_witness :
  region_ok 4096 4096 /\ 4096 + Stack.STACK_HEADER_SIZE <= PTRDIFF_MAX /\
  Forall stack_req_ok [(64, 8); (128, 8); (256, 8)] /\
  exists fin mfin s',
    Stack.stack_allocs demo_stack ∅ [(64, 8); (128, 8); (256, 8)] =
      Done ([(4104, 64); (4176, 128); (4312, 256)], fin, mfin) /\
    Stack.stack_frees fin mfin [4312; 4176; 4104] = Done s' /\
    Stack.stats_used (Stack.stack_stats s') = 0.
Proof.
  assert (Hreg : region_ok 4096 4096) by (unfold region_ok; rewrite SIZE_MOD_val; lia).
  assert (Hmax : 4096 + Stack.STACK_HEADER_SIZE <= PTRDIFF_MAX)
    by (unfold Stack.STACK_HEADER_SIZE, WORD, PTRDIFF_MAX; lia).
  assert (Hreqs : Forall stack_req_ok [(64, 8); (128, 8); (256, 8)])
    by (repeat constructor; simpl; range).
  split; [exact Hreg|]. split; [exact Hmax|]. split; [exact Hreqs|].
  pose (r := match Stack.stack_allocs demo_stack ∅ [(64, 8); (128, 8); (256, 8)] with
             | Done x => x
             | Abort => ([], demo_stack, ∅)
             end).
  assert (E : Stack.stack_allocs demo_stack ∅ [(64, 8); (128, 8); (256, 8)] =
              Done ([(4104, 64); (4176, 128); (4312, 256)], snd (fst r), snd r))
    by (vm_compute; reflexivity).
  destruct (stack_reverse_frees_restore_empty 4096 4096 ∅ [(64, 8); (128, 8); (256, 8)]
              demo_stack _ (snd (fst r)) (snd r) (snd r) Hreg Hmax eq_refl Hreqs E)
    as (s' & Hfree & Hused).
  - repeat constructor; simpl; unfold NULL; lia.
  - repeat constructor; apply mem_agree_refl.
  - exists (snd (fst r)), (snd r), s'.
    split; [exact E|]. split; [exact Hfree|exact Hused].
Defined.

(** C10: an alignment below [sizeof(size_t)] is raised to it, so on an
    initialized stack the call does what the same call with alignment
    [sizeof(size_t)] does, and it is not aborted by the power-of-two
    assertion. *)
Theorem stack_small_alignment_raised s m size a :
  Stack.buffer s <> NULL -> 0 < size -> 0 < a < Stack.STACK_MIN_ALIGNMENT ->
  Stack.stack_alloc_aligned s m size a =
    Stack.stack_alloc_aligned s m size Stack.STACK_MIN_ALIGNMENT /\
  exists r, Stack.stack_alloc_aligned s m size a = Done r.
Proof.
  intros Hb Hsz Ha.
  assert (Hlt : (a <? Stack.STACK_MIN_ALIGNMENT) = true) by (apply Z.ltb_lt; lia).
  split.
  - unfold Stack.stack_alloc_aligned. rewrite Hlt. reflexivity.
  - unfold Stack.stack_alloc_aligned, c_assert. rewrite Hlt.
    destruct (Z.eqb_spec (Stack.buffer s) NULL); [contradiction|]. cbn [negb].
    destruct (Z.eqb_spec size 0); [lia|].
    change (Stack.stack__is_power_of_two Stack.STACK_MIN_ALIGNMENT) with true.
    cbv iota zeta. destruct (_ || _); eauto.
Qed.

Lemma stack_small_alignment_raised_witness :
  Stack.buffer demo_stack <> NULL /\ 0 < 64 /\ 0 < 3 < Stack.STACK_MIN_ALIGNMENT /\
  Stack.stack_alloc_aligned demo_stack ∅ 64 3 = Stack.stack_alloc_aligned demo_stack ∅ 64 8.
Proof.
  assert (Hb : Stack.buffer demo_stack <> NULL) by (unfold NULL; simpl; lia).
  assert (Ha : 0 < 3 < Stack.STACK_MIN_ALIGNMENT)
    by (unfold Stack.STACK_MIN_ALIGNMENT, WORD; lia).
  split; [exact Hb|]. split; [lia|]. split; [exact Ha|].
  apply (stack_small_alignment_raised demo_stack ∅ 64 3 Hb ltac:(lia) Ha).
Defined.

End ArenaStackClaims.

(** ** Ownership and reuse in the pool, size classes of the slab *)

Section PoolSlabClaims.

Ltac range := unfold in_size_t; rewrite ?SIZE_MOD_val; lia.

(** C5, as stated, fails: right after [pool_init], with nothing
    allocated, [pool_owns] already answers true for the address of
    slot 0. *)
Lemma pool_owns_free_slot_counterexample :
  ~ (forall s m live p,
       pool_reach s m live -> (Pool.pool_owns s p = true <-> In p live)).
Proof.
  intros H.
  destruct (H (fst demo_pool) (snd demo_pool) [] 4096 demo_pool_reach) as [Hin _].
  apply Hin. vm_compute. reflexivity.
Qed.

(** C5, amended: in every reachable state [pool_owns] answers true
    exactly for the addresses of the pool's slots, allocated or free; so
    it is true for every pointer handed out by [pool_alloc] and not yet
    freed, and stays true after the free. *)
Theorem pool_owns_iff_slot_address s m live p :
  pool_reach s m live -> in_size_t p ->
  (Pool.pool_owns s p = true <-> In p (pool_slots s)) /\
  (In p live -> Pool.pool_owns s p = true).
Proof.
  intros Hreach Hp. apply pool_reach_inv in Hreach.
  pose proof (pool_inv_facts s m live Hreach) as (_ & Hlive & _).
  destruct Hreach as (Hl & _).
  split; [apply pool_owns_spec; assumption|].
  intros Hin. apply pool_owns_spec; [assumption|assumption|]. apply Hlive. exact Hin.
Qed.

Lemma pool_owns_iff_slot_address_witness :
  pool_reach (fst demo_pool) (snd demo_pool) [] /\ in_size_t 4112 /\
  (Pool.pool_owns (fst demo_pool) 4112 = true <-> In 4112 (pool_slots (fst demo_pool))).
Proof.
  assert (Hp : in_size_t 4112) by range.
  split; [exact demo_pool_reach|]. split; [exact Hp|].
  exact (proj1 (pool_owns_iff_slot_address (fst demo_pool) (snd demo_pool) [] 4112
                  demo_pool_reach Hp)).
Defined.

(** C9: right after a [pool_free] that returned [POOL_OK], the next
    [pool_alloc] returns the pointer just freed. *)
Theorem pool_free_then_alloc_returns_same s m p s' m' :
  Pool.pool_free s m p = (Pool.POOL_OK, s', m') ->
  fst (Pool.pool_alloc s' m') = p.
Proof.
  intros H. apply pool_free_ok_head in H as [Hhead Hnn].
  unfold Pool.pool_alloc. rewrite Hhead.
  destruct (Z.eqb_spec p NULL); [contradiction|]. reflexivity.
Qed.

Lemma pool_free_then_alloc_returns_same_witness :
  exists s s' m',
    pool_reach s (snd demo_pool) [4112; 4096] /\
    Pool.pool_free s (snd demo_pool) 4096 = (Pool.POOL_OK, s', m') /\
    fst (Pool.pool_alloc s' m') = 4096.
Proof.
  pose (m := snd demo_pool).
  pose (s1 := snd (Pool.pool_alloc (fst demo_pool) m)).
  pose (s2 := snd (Pool.pool_alloc s1 m)).
  pose (r := Pool.pool_free s2 m 4096).
  assert (R : pool_reach s2 m [4112; 4096]).
  { apply (pool_reach_alloc s1 m _ 4112 s2); [|vm_compute; reflexivity|discriminate].
    apply (pool_reach_alloc (fst demo_pool) m _ 4096 s1);
      [exact demo_pool_reach|vm_compute; reflexivity|discriminate]. }
  assert (F : Pool.pool_free s2 m 4096 = (Pool.POOL_OK, snd (fst r), snd r))
    by (vm_compute; reflexivity).
  exists s2, (snd (fst r)), (snd r).
  exact (conj R (conj F (pool_free_then_alloc_returns_same s2 m 4096 _ _ F))).
Defined.

Lemma equal_entries_not_NoDup (l : list Z) : forall (i j : nat) x,
  (i < j)%nat -> l !! i = Some x -> l !! j = Some x -> ~ List.NoDup l.
Proof.
  induction l as [|a l IH]; intros i j x Hij Hi Hj Hnd; [discriminate|].
  apply NoDup_cons_iff in Hnd as [Hna Hnd].
  destruct j as [|j]; [lia|]. simpl in Hj.
  destruct i as [|i].
  - simpl in Hi. injection Hi as ->. apply Hna.
    apply list_elem_of_In, list_elem_of_lookup. eauto.
  - simpl in Hi. apply (IH i j x); [lia|assumption|assumption|exact Hnd].
Qed.

(** C6 fails on the code at sizes that differ as given and meet after
    rounding: the duplicate test of [slab_init] compares the sorted
    sizes before they are rounded (slab.h:331-333).  For the sizes 1 and
    2, which both round up to 8, [slab_init] on a zeroed descriptor
    returns [SLAB_OK] and builds two classes of 16 slots of 8 bytes.
    The second class is dead: sixteen allocations of 8 bytes empty class
    0, the seventeenth returns null while class 1 still has all its 16
    slots free.  The sizes 2 and 2 are refused. *)
Theorem slab_init_rounded_duplicates :
  let '(e, slab, m) := Slab.slab_init Slab.slab_zero ∅ 4096 256 [1; 2] 2 in
  let '(ps, full) := slab_allocs slab m 8 16 in
  let '(p, slab') := Slab.slab_alloc full m 8 in
  Slab.SLAB_ALIGN_UP 1 Slab.SLAB_ALIGNMENT = Slab.SLAB_ALIGN_UP 2 Slab.SLAB_ALIGNMENT /\
  e = Slab.SLAB_OK /\ Slab.initialized slab = Slab.SLAB_MAGIC /\
  Slab.slab_class_count slab = 2 /\
  Slab.slab_class_slot_size slab 0 = 8 /\ Slab.slab_class_slot_size slab 1 = 8 /\
  ps = slot_addrs 4096 8 0 16 /\
  p = NULL /\ slab' = full /\
  Slab.free_count (Slab.classes full !!! 0%nat) = 0 /\
  Slab.free_count (Slab.classes full !!! 1%nat) = 16 /\
  Slab.slab_init Slab.slab_zero ∅ 4096 256 [2; 2] 2 =
    (Slab.SLAB_ERR_INVALID_SIZE, Slab.slab_zero, ∅).
Proof.
  vm_compute. repeat (split; [reflexivity|]). reflexivity.
Qed.

(** What the duplicate test of [slab_init] does reject: when two of the
    [count] entries of [sizes] are equal as given, before any rounding,
    [slab_init] on a zeroed descriptor returns the invalid-size error
    and leaves descriptor and store as they were. *)
Lemma slab_init_rejects_equal_sizes m buf size sizes count (i j : nat) x :
  buf <> NULL -> size <> 0 -> 0 < count <= Slab.SLAB_MAX_CLASSES ->
  (Z.to_nat count <= length sizes)%nat ->
  (i < j < Z.to_nat count)%nat ->
  sizes !! i = Some x -> sizes !! j = Some x ->
  Slab.slab_init Slab.slab_zero m buf size sizes count =
    (Slab.SLAB_ERR_INVALID_SIZE, Slab.slab_zero, m).
Proof.
  intros Hb Hs Hc Hlen Hij Hi Hj.
  apply slab_init_equal_sizes; try assumption; [discriminate|].
  apply (equal_entries_not_NoDup _ i j x); [lia| |].
  - change firstn with (@take Z). rewrite lookup_take_lt by lia. exact Hi.
  - change firstn with (@take Z). rewrite lookup_take_lt by lia. exact Hj.
Qed.

Lemma slab_init_rejects_equal_sizes_witness :
  4096 <> NULL /\ 4096 <> 0 /\ 0 < 4 <= Slab.SLAB_MAX_CLASSES /\
  Slab.slab_init Slab.slab_zero ∅ 4096 4096 [32; 64; 64; 128] 4 =
    (Slab.SLAB_ERR_INVALID_SIZE, Slab.slab_zero, ∅).
Proof.
  assert (Hb : 4096 <> NULL) by (unfold NULL; lia).
  assert (Hc : 0 < 4 <= Slab.SLAB_MAX_CLASSES) by (unfold Slab.SLAB_MAX_CLASSES; lia).
  split; [exact Hb|]. split; [lia|]. split; [exact Hc|].
  apply (slab_init_rejects_equal_sizes ∅ 4096 4096 [32; 64; 64; 128] 4 1%nat 2%nat 64 Hb);
    try reflexivity; try lia; simpl; lia.
Defined.

(** C4 fails on the code at a size that wraps when rounded up: for the
    sizes 16 and [SIZE_MAX], [slab_init] succeeds and builds class 0
    with 16-byte slots and class 1 with 8-byte slots; then
    [slab_max_alloc] is 8, and [slab_alloc] of 1 byte returns a slot of
    class 0, whose usable size is 16, although the 8-byte class would
    do. *)
Theorem slab_alloc_wrapped_size_class :
  let '(e, slab, m) := Slab.slab_init Slab.slab_zero ∅ 4096 256 [16; SIZE_MAX] 2 in
  let '(p, slab') := Slab.slab_alloc slab m 1 in
  e = Slab.SLAB_OK /\
  Slab.slab_class_slot_size slab 0 = 16 /\ Slab.slab_class_slot_size slab 1 = 8 /\
  Slab.slab_max_alloc slab = 8 /\
  p <> NULL /\ Slab.slab_usable_size slab' p = 16.
Proof.
  vm_compute. repeat split; try reflexivity. discriminate.
Qed.

End PoolSlabClaims.

(** ** The scenarios of the specification *)

Section Scenarios.

(** Arena, 4096 bytes: two allocations, then [arena_reset]. *)
Example scenario_arena_basic :
  match Arena.arena_init 65536 4096 with
  | Some a0 =>
      Arena.arena_allocs a0 [(40, 32); (64, 32)] =
        ([(65536, 40); (65536 + 64, 64)], Arena.mk_arena 65536 4096 128 true) /\
      Arena.arena_used (Arena.arena_reset (snd (Arena.arena_allocs a0 [(40, 32); (64, 32)]))) = 0
  | None => False
  end.
Proof. vm_compute. split; reflexivity. Qed.

(** Arena: [arena_reset_to] a marker brings [used] back to its value at
    [arena_save]. *)
Example scenario_arena_save_restore :
  match Arena.arena_init 65536 4096 with
  | Some a0 =>
      let a1 := snd (Arena.arena_allocs a0 [(256, 32)]) in
      let mk := Arena.arena_save a1 in
      let a2 := snd (Arena.arena_allocs a1 [(1024, 32)]) in
      Arena.arena_used a1 = 256 /\ Arena.arena_used a2 = 1280 /\
      Arena.arena_used (Arena.arena_reset_to a2 mk) = 256
  | None => False
  end.
Proof. vm_compute. split; [reflexivity|]. split; reflexivity. Qed.

(** Pool sized for exactly four slots: four allocations succeed, the
    fifth returns null; after freeing the second slot the next
    allocation returns it again. *)
Example scenario_pool_exhaustion :
  let '(s, m) := demo_pool in
  let '(ps, full) := pool_allocs s m 5 in
  let '(e, s', m') := Pool.pool_free full m 4112 in
  ps = [4096; 4112; 4128; 4144; NULL] /\ Pool.pool_used full = 4 /\
  e = Pool.POOL_OK /\ Pool.pool_used s' = 3 /\
  fst (Pool.pool_alloc s' m') = 4112 /\ Pool.pool_used (snd (Pool.pool_alloc s' m')) = 4.
Proof.
  vm_compute. split; [reflexivity|]. split; [reflexivity|]. split; [reflexivity|].
  split; [reflexivity|]. split; reflexivity.
Qed.

(** Slab with classes 32, 64, 128, 256 in 8192 bytes: 50 bytes come
    from the 64-byte class, 1 byte from the 32-byte class, 300 bytes
    from none. *)
Example scenario_slab_dispatch :
  let '(e, slab, m) := Slab.slab_init Slab.slab_zero ∅ 65536 8192 [32; 64; 128; 256] 4 in
  let '(p1, slab1) := Slab.slab_alloc slab m 50 in
  let '(p2, slab2) := Slab.slab_alloc slab1 m 1 in
  let '(p3, slab3) := Slab.slab_alloc slab2 m 300 in
  e = Slab.SLAB_OK /\ Slab.slab_max_alloc slab = 256 /\
  Slab.slab_usable_size slab1 p1 = 64 /\ Slab.slab_usable_size slab2 p2 = 32 /\
  p3 = NULL /\ slab3 = slab2.
Proof.
  vm_compute. split; [reflexivity|]. split; [reflexivity|]. split; [reflexivity|].
  split; [reflexivity|]. split; reflexivity.
Qed.

(** Slab with classes 64 and 256 in 1024 bytes: once the eight 64-byte
    slots are taken an allocation of 64 bytes returns null, one of 256
    bytes still succeeds. *)
Example scenario_slab_class_isolation :
  let '(e, slab, m) := Slab.slab_init Slab.slab_zero ∅ 65536 1024 [64; 256] 2 in
  let '(ps, full) := slab_allocs slab m 64 8 in
  let '(p, slab1) := Slab.slab_alloc full m 64 in
  let '(q, slab2) := Slab.slab_alloc slab1 m 256 in
  e = Slab.SLAB_OK /\ Forall (fun x => x <> NULL) ps /\
  p = NULL /\ slab1 = full /\ q <> NULL /\ Slab.slab_usable_size slab2 q = 256.
Proof.
  vm_compute. split; [reflexivity|]. split; [repeat constructor; discriminate|].
  split; [reflexivity|]. split; [reflexivity|]. split; [discriminate|reflexivity].
Qed.

End Scenarios.

(** ** A reachable slab *)

Section SlabScenario.

Import Slab.

(** The slab of the size classes 32 and 64 is a reachable one. *)
Lemma demo_slab_reach : slab_reach (fst demo_slab) (snd demo_slab) [].
Proof.
  apply (slab_reach_init slab_zero ∅ 4096 256 [32; 64] 2).
  - unfold region_ok. rewrite SIZE_MOD_val. lia.
  - unfold in_size_t. rewrite SIZE_MOD_val. lia.
  - repeat (apply Forall_cons_2; [unfold in_size_t; rewrite SIZE_MOD_val; lia|]).
    apply Forall_nil_2.
  - lia.
  - simpl. lia.
  - reflexivity.
  - repeat (apply Forall_cons_2; [unfold SIZE_MAX, SLAB_ALIGNMENT; rewrite SIZE_MOD_val; lia|]).
    apply Forall_nil_2.
  - vm_compute. reflexivity.
Qed.

(** A request of 33 bytes on it is served from the 64-byte class, and the
    freed slot is the next one handed out. *)
Example demo_slab_alloc_33 :
  let '(p, s1) := slab_alloc (fst demo_slab) (snd demo_slab) 33 in
  p <> NULL /\ slab_usable_size s1 p = 64 /\
  match slab_free s1 (snd demo_slab) p with
  | Done (s2, m2) => fst (slab_alloc s2 m2 64) = p
  | Abort => False
  end.
Proof. vm_compute. split; [discriminate|]. split; reflexivity. Qed.

End SlabScenario.

(** ** Alignment arithmetic of the four headers *)

Section AlignmentTests.

Ltac range := unfold in_size_t; rewrite ?SIZE_MOD_val; lia.

Lemma is_power_of_two_pow2 k : 0 <= k < 64 -> is_power_of_two (2 ^ k) = true.
Proof.
  intros Hk. pose proof (pow2_lt_size k Hk) as Ha.
  unfold is_power_of_two, size_and, size_sub.
  destruct (Z.eqb_spec (2 ^ k) 0); [lia|]. simpl.
  rewrite wrap_small by (unfold in_size_t; lia).
  replace (2 ^ k - 1) with (Z.ones k) by (rewrite Z.ones_equiv; lia).
  rewrite Z.land_ones by lia. rewrite Z.mod_same by lia. reflexivity.
Qed.

(** X1 (arena.h, stack.h): the bit test [x != 0 && (x & (x - 1)) == 0]
    of [arena__is_power_of_two], which is also the test of
    [stack__is_power_of_two], accepts a [size_t] value exactly when it is
    one of the powers [2^0 .. 2^63]. *)
Theorem power_of_two_test_exact x :
  in_size_t x ->
  (Arena.arena__is_power_of_two x = true <-> exists k, 0 <= k < 64 /\ x = 2 ^ k) /\
  (Stack.stack__is_power_of_two x = true <-> exists k, 0 <= k < 64 /\ x = 2 ^ k).
Proof.
  intros Hx. unfold Arena.arena__is_power_of_two, Stack.stack__is_power_of_two.
  assert (H : is_power_of_two x = true <-> exists k, 0 <= k < 64 /\ x = 2 ^ k).
  { split.
    - apply is_power_of_two_spec. exact Hx.
    - intros (k & Hk & ->). apply is_power_of_two_pow2. exact Hk. }
  split; exact H.
Qed.

Lemma power_of_two_test_exact_witness :
  (Arena.arena__is_power_of_two 64 = true <-> exists k, 0 <= k < 64 /\ 64 = 2 ^ k) /\
  (Stack.stack__is_power_of_two 64 = true <-> exists k, 0 <= k < 64 /\ 64 = 2 ^ k).
Proof. apply (power_of_two_test_exact 64). unfold in_size_t. rewrite SIZE_MOD_val. lia. Defined.

(** X2 (arena.h, pool.h): for a power-of-two alignment,
    [arena__align_up] (and [pool__align_up], the same expression) returns
    the least multiple of the alignment that is at least [value], as long
    as [value + align - 1] fits a [size_t]; when it does not fit, the
    result wraps around to [0]. *)
Theorem align_up_least_multiple v a :
  in_size_t v -> in_size_t a -> is_power_of_two a = true ->
  (v + a - 1 < SIZE_MOD ->
     v <= Arena.arena__align_up v a < v + a /\
     Arena.arena__align_up v a mod a = 0 /\
     forall p, v <= p -> p mod a = 0 -> Arena.arena__align_up v a <= p) /\
  (SIZE_MOD <= v + a - 1 -> Arena.arena__align_up v a = 0) /\
  Pool.pool__align_up v a = Arena.arena__align_up v a.
Proof.
  intros Hv Ha Hp. destruct (is_power_of_two_spec a Ha Hp) as (k & Hk & ->).
  pose proof (pow2_lt_size k Hk) as Hpos.
  unfold Arena.arena__align_up, Pool.pool__align_up.
  split; [|split; [|reflexivity]].
  - intros Hfit. rewrite align_up_exact by (unfold in_size_t in Hv; lia).
    split; [apply round_up_bounds; lia|].
    split; [apply round_up_multiple; lia|].
    intros p Hle Hm. apply round_up_least; [lia|exact Hle|exact Hm].
  - intros Hwrap. apply align_up_wrapped; assumption.
Qed.

Lemma align_up_least_multiple_witness :
  (13 + 8 - 1 < SIZE_MOD ->
     13 <= Arena.arena__align_up 13 8 < 13 + 8 /\
     Arena.arena__align_up 13 8 mod 8 = 0 /\
     forall p, 13 <= p -> p mod 8 = 0 -> Arena.arena__align_up 13 8 <= p) /\
  (SIZE_MOD <= 13 + 8 - 1 -> Arena.arena__align_up 13 8 = 0) /\
  Pool.pool__align_up 13 8 = Arena.arena__align_up 13 8.
Proof.
  apply (align_up_least_multiple 13 8); [range|range|reflexivity].
Defined.

End AlignmentTests.

(** ** arena.h: zeroed blocks, markers and scopes *)

Section MemsetFacts.

Lemma load8_store_bytes_repeat_in b (n : nat) : forall m a x,
  a <= x < a + Z.of_nat n -> load8 (store_bytes m a (repeat b n)) x = b mod 256.
Proof.
  induction n as [|n IH]; intros m a x Hx; [lia|]. cbn [repeat store_bytes].
  destruct (Z.eq_dec x a) as [->|Hne].
  - rewrite load8_store_bytes_other by lia. apply load8_store8_same.
  - apply IH. lia.
Qed.

Lemma load8_memset_in m a b n x :
  a <= x < a + n -> load8 (memset m a b n) x = b mod 256.
Proof. intros Hx. unfold memset. apply load8_store_bytes_repeat_in. lia. Qed.

Lemma load8_memset_other m a b n x :
  0 <= n -> x < a \/ a + n <= x -> load8 (memset m a b n) x = load8 m x.
Proof.
  intros Hn Hx. unfold memset. apply load8_store_bytes_other.
  rewrite repeat_length. lia.
Qed.

Lemma mem_agree_memset m a b n lo hi :
  0 <= n -> hi <= a \/ a + n <= lo -> mem_agree m (memset m a b n) lo hi.
Proof. intros Hn H x Hx. symmetry. apply load8_memset_other; lia. Qed.

End MemsetFacts.

Section ArenaMore.

Import Arena.

Ltac range := unfold in_size_t; rewrite ?SIZE_MOD_val; lia.

Lemma arena_allocs_frame reqs : forall a,
  arena_ok a -> Forall arena_req_ok reqs ->
  buffer (snd (arena_allocs a reqs)) = buffer a /\
  capacity (snd (arena_allocs a reqs)) = capacity a /\
  initialized (snd (arena_allocs a reqs)) = true.
Proof.
  induction reqs as [|[size align] reqs IH]; intros a Hok Hreqs.
  - simpl. destruct Hok as (Hi & _). repeat split. exact Hi.
  - apply Forall_cons in Hreqs as [Hreq Hreqs].
    destruct (arena_allocs_cons a size align reqs Hok Hreq) as (p & a' & Hp & ->).
    destruct (arena__alloc_step a size align p a' Hok Hreq Hp) as (Hok' & Hb & Hc & _).
    destruct (IH a' Hok' Hreqs) as (Hbf & Hcf & Hif). simpl.
    split; [congruence|]. split; [congruence|exact Hif].
Qed.

(** X3 (arena.h): a successful allocation of [size > 0] bytes from a
    valid arena lies inside the caller's buffer, leaves the arena valid,
    moves [arena_used] to the end of the block and takes at least [size]
    bytes off [arena_remaining]; the capacity does not change. *)
Theorem arena_alloc_within_buffer a size align p a' :
  arena_ok a -> arena_is_valid a = true -> arena_req_ok (size, align) -> 0 < size ->
  arena__alloc a size align = Done (p, a') -> p <> NULL ->
  buffer a <= p /\ p + size <= buffer a + capacity a /\
  arena_is_valid a' = true /\
  arena_used a' = p - buffer a + size /\
  arena_remaining a' + size <= arena_remaining a /\
  arena_capacity a' = arena_capacity a.
Proof.
  intros Hok Hval Hreq Hsz H Hnn.
  pose proof Hok as (Hinit & Hb & Hc & Ho & Hr).
  pose proof Hreq as (Hs & Hal & Hp). simpl in Hs, Hal, Hp.
  destruct (is_power_of_two_spec align Hal Hp) as (k & Hk & Hk2).
  pose proof (pow2_lt_size k Hk) as Ha.
  pose proof (round_up_bounds (offset a) align ltac:(lia)) as Hru.
  unfold arena_is_valid in Hval. rewrite Hinit in Hval. simpl in Hval.
  destruct (Z.gtb_spec (offset a) (capacity a)) as [|Hoc]; [discriminate|].
  rewrite arena__alloc_spec in H by assumption.
  destruct (Z.eqb_spec size 0); [lia|].
  destruct (Z.leb_spec (round_up (offset a) align + size) (capacity a)) as [Hfit|];
    [|injection H as <- _; contradiction].
  injection H as <- <-.
  unfold arena_is_valid, arena_used, arena_remaining, arena_capacity, size_sub.
  cbn [initialized offset capacity buffer negb]. rewrite Hinit. cbn [negb].
  destruct (Z.gtb_spec (round_up (offset a) align + size) (capacity a)); [lia|].
  destruct (Z.gtb_spec (offset a) (capacity a)); [lia|].
  rewrite !wrap_small by (unfold in_size_t in *; lia).
  unfold in_size_t in *. repeat split; lia.
Qed.

Lemma arena_alloc_within_buffer_witness :
  4096 <= 4128 /\ 4128 + 10 <= 4096 + 100 /\
  arena_is_valid (mk_arena 4096 100 42 true) = true /\
  arena_used (mk_arena 4096 100 42 true) = 4128 - 4096 + 10 /\
  arena_remaining (mk_arena 4096 100 42 true) + 10 <=
    arena_remaining (mk_arena 4096 100 5 true) /\
  arena_capacity (mk_arena 4096 100 42 true) = arena_capacity (mk_arena 4096 100 5 true).
Proof.
  apply (arena_alloc_within_buffer (mk_arena 4096 100 5 true) 10 32 4128
           (mk_arena 4096 100 42 true)).
  - unfold arena_ok, in_size_t; simpl. rewrite SIZE_MOD_val. lia.
  - reflexivity.
  - repeat split; simpl; range.
  - lia.
  - reflexivity.
  - unfold NULL. lia.
Defined.



Lemma arena_reset_to_save_allocs a l :
  arena_ok a -> Forall arena_req_ok l ->
  arena_reset_to (snd (arena_allocs a l)) (arena_save a) = a.
Proof.
  intros Hok Hl. destruct (arena_allocs_frame l a Hok Hl) as (Hb & Hc & Hi).
  destruct Hok as (Hinit & _).
  unfold arena_reset_to, arena_save. rewrite Hi, Hinit, Hb, Hc. simpl.
  destruct a as [b c o i]. simpl in *. rewrite Hinit. reflexivity.
Qed.

(** X5 (arena.h): [arena_reset_to] with the marker [arena_save] took
    undoes every allocation made since: the descriptor is the one the
    marker was taken from.  The marker can be used again. *)
Theorem arena_reset_to_saved_marker a reqs reqs' :
  arena_ok a -> Forall arena_req_ok reqs -> Forall arena_req_ok reqs' ->
  arena_reset_to (snd (arena_allocs a reqs)) (arena_save a) = a /\
  arena_reset_to (snd (arena_allocs (arena_reset_to (snd (arena_allocs a reqs)) (arena_save a))
                                    reqs')) (arena_save a) = a.
Proof.
  intros Hok Hreqs Hreqs'.
  rewrite (arena_reset_to_save_allocs a reqs Hok Hreqs).
  split; [reflexivity|]. apply arena_reset_to_save_allocs; assumption.
Qed.

Lemma arena_reset_to_saved_marker_witness :
  arena_reset_to (snd (arena_allocs odd_arena [(8, 16); (0, 1); (40, 32)]))
                 (arena_save odd_arena) = odd_arena /\
  arena_reset_to
    (snd (arena_allocs
            (arena_reset_to (snd (arena_allocs odd_arena [(8, 16); (0, 1); (40, 32)]))
                            (arena_save odd_arena))
            [(3, 1)])) (arena_save odd_arena) = odd_arena.
Proof.
  apply (arena_reset_to_saved_marker odd_arena [(8, 16); (0, 1); (40, 32)] [(3, 1)]).
  - unfold arena_ok, in_size_t; simpl. rewrite SIZE_MOD_val. lia.
  - repeat (apply Forall_cons_2; [repeat split; simpl; range|]). apply Forall_nil_2.
  - repeat (apply Forall_cons_2; [repeat split; simpl; range|]). apply Forall_nil_2.
Defined.

(** X6 (arena.h): a temporary scope rolls the arena back to where
    [arena_temp_begin] found it, and [arena_temp_end] clears the scope,
    so that ending it a second time changes nothing - not even when
    allocations were made in between. *)
Theorem arena_temp_scope_rolls_back a reqs reqs' :
  arena_ok a -> Forall arena_req_ok reqs -> Forall arena_req_ok reqs' ->
  let temp := arena_temp_begin a in
  let ended := arena_temp_end temp (snd (arena_allocs a reqs)) in
  snd ended = a /\
  temp_arena (fst ended) = false /\
  arena_temp_end (fst ended) (snd (arena_allocs (snd ended) reqs')) =
    (fst ended, snd (arena_allocs (snd ended) reqs')).
Proof.
  intros Hok Hreqs Hreqs'. cbv zeta.
  pose proof (arena_reset_to_save_allocs a reqs Hok Hreqs) as H.
  pose proof Hok as (Hinit & _).
  unfold arena_temp_begin, arena_temp_end. rewrite Hinit.
  cbn [temp_arena temp_marker fst snd]. rewrite H.
  split; [reflexivity|]. split; reflexivity.
Qed.

Lemma arena_temp_scope_rolls_back_witness :
  let temp := arena_temp_begin odd_arena in
  let ended := arena_temp_end temp (snd (arena_allocs odd_arena [(8, 16)])) in
  snd ended = odd_arena /\
  temp_arena (fst ended) = false /\
  arena_temp_end (fst ended) (snd (arena_allocs (snd ended) [(3, 1)])) =
    (fst ended, snd (arena_allocs (snd ended) [(3, 1)])).
Proof.
  apply (arena_temp_scope_rolls_back odd_arena [(8, 16)] [(3, 1)]).
  - unfold arena_ok, in_size_t; simpl. rewrite SIZE_MOD_val. lia.
  - repeat (apply Forall_cons_2; [repeat split; simpl; range|]). apply Forall_nil_2.
  - repeat (apply Forall_cons_2; [repeat split; simpl; range|]). apply Forall_nil_2.
Defined.

(** X7 (arena.h): [arena_init] refuses exactly a null buffer of nonzero
    size; the arena it sets up is valid and empty, with the whole size
    remaining, and [arena_reset] after any run of allocations gives that
    very descriptor back. *)
Theorem arena_reset_restores_init buf size reqs :
  in_size_t buf -> in_size_t size -> buf + size <= SIZE_MOD ->
  Forall arena_req_ok reqs ->
  (arena_init buf size = None <-> buf = NULL /\ 0 < size) /\
  forall a, arena_init buf size = Some a ->
    arena_is_valid a = true /\ arena_used a = 0 /\
    arena_capacity a = size /\ arena_remaining a = size /\
    arena_reset (snd (arena_allocs a reqs)) = a.
Proof.
  intros Hb Hs Hr Hreqs. split.
  - unfold arena_init.
    destruct (Z.eqb_spec buf NULL) as [->|Hne]; destruct (Z.gtb_spec size 0); simpl;
      split; try discriminate; try (intros [? ?]; lia); try reflexivity.
    intros _. split; [reflexivity|lia].
  - intros a Hinit.
    destruct (arena_init_ok buf size a Hb Hs Hr Hinit) as (Hok & Ho).
    destruct (arena_allocs_frame reqs a Hok Hreqs) as (Hbf & Hcf & Hif).
    unfold arena_init in Hinit.
    destruct ((buf =? NULL) && (size >? 0)); [discriminate|]. injection Hinit as <-.
    unfold arena_is_valid, arena_used, arena_capacity, arena_remaining, arena_reset, size_sub.
    rewrite Hif. cbn [initialized offset capacity negb] in *. rewrite Hbf, Hcf.
    cbn [buffer capacity].
    destruct (Z.gtb_spec 0 size); [unfold in_size_t in Hs; lia|].
    rewrite Z.sub_0_r, wrap_small by exact Hs. repeat split.
Qed.

Lemma arena_reset_restores_init_witness :
  (arena_init 4097 100 = None <-> 4097 = NULL /\ 0 < 100) /\
  forall a, arena_init 4097 100 = Some a ->
    arena_is_valid a = true /\ arena_used a = 0 /\
    arena_capacity a = 100 /\ arena_remaining a = 100 /\
    arena_reset (snd (arena_allocs a [(8, 16); (40, 32)])) = a.
Proof.
  apply (arena_reset_restores_init 4097 100 [(8, 16); (40, 32)]).
  - range.
  - range.
  - rewrite SIZE_MOD_val. lia.
  - repeat (apply Forall_cons_2; [repeat split; simpl; range|]). apply Forall_nil_2.
Defined.

(** X8 (arena.h): [arena__alloc_zero] returns what [arena__alloc]
    returns; on success every byte of the block reads [0] and no byte
    outside the block is written, and a failed or zero-size call leaves
    the store alone. *)
Theorem arena_alloc_zero_clears_block a m size align p a' m' :
  arena_ok a -> arena_req_ok (size, align) ->
  arena__alloc_zero a m size align = Done (p, a', m') ->
  arena__alloc a size align = Done (p, a') /\
  (p <> NULL -> 0 < size ->
     (forall x, p <= x < p + size -> load8 m' x = 0) /\
     (forall x, x < p \/ p + size <= x -> load8 m' x = load8 m x)) /\
  (p = NULL \/ size = 0 -> m' = m).
Proof.
  intros Hok Hreq H. unfold arena__alloc_zero in H.
  pose proof Hreq as (Hs & _). simpl in Hs.
  destruct (arena__alloc a size align) as [[q a1]|] eqn:E; [|discriminate].
  cbn [obind] in H.
  destruct (Z.eqb_spec q NULL) as [Hq|Hq]; cbn [negb andb] in H.
  - injection H as <- <- <-. split; [reflexivity|]. split; [contradiction|reflexivity].
  - destruct (Z.gtb_spec size 0) as [Hsz|Hsz]; injection H as <- <- <-.
    + split; [reflexivity|]. split.
      * intros _ _. split.
        -- intros x Hx. rewrite load8_memset_in by exact Hx. reflexivity.
        -- intros x Hx. apply load8_memset_other; lia.
      * intros [?|?]; [contradiction|lia].
    + split; [reflexivity|]. split; [intros _ ?; lia|reflexivity].
Qed.

Lemma arena_alloc_zero_clears_block_witness :
  arena__alloc odd_arena 8 16 = Done (4097, mk_arena 4097 100 8 true) /\
  (4097 <> NULL -> 0 < 8 ->
     (forall x, 4097 <= x < 4097 + 8 -> load8 (memset (store8 ∅ 4100 7) 4097 0 8) x = 0) /\
     (forall x, x < 4097 \/ 4097 + 8 <= x ->
        load8 (memset (store8 ∅ 4100 7) 4097 0 8) x = load8 (store8 ∅ 4100 7) x)) /\
  (4097 = NULL \/ 8 = 0 -> memset (store8 ∅ 4100 7) 4097 0 8 = store8 ∅ 4100 7).
Proof.
  apply (arena_alloc_zero_clears_block odd_arena (store8 ∅ 4100 7) 8 16).
  - unfold arena_ok, in_size_t; simpl. rewrite SIZE_MOD_val. lia.
  - repeat split; simpl; range.
  - reflexivity.
Defined.

End ArenaMore.

(** ** stack.h: blocks, markers and zeroed blocks *)

Section StackMore.

Import Stack.

Ltac range := unfold in_size_t; rewrite ?SIZE_MOD_val; lia.

Lemma stack_ok_bounds s :
  stack_ok s ->
  in_size_t (buffer s) /\ in_size_t (capacity s) /\ in_size_t (offset s) /\
  ptr_add (buffer s) (capacity s) = buffer s + capacity s.
Proof.
  intros (Hb & Ho & Hr & Hc). unfold ptr_add.
  rewrite wrap_small by (unfold in_size_t; lia).
  unfold in_size_t. repeat split; lia.
Qed.

Lemma stack_req_ok_min n : in_size_t n -> stack_req_ok (n, STACK_MIN_ALIGNMENT).
Proof.
  intros Hn. split; [exact Hn|]. split; [|reflexivity].
  simpl. unfold STACK_MIN_ALIGNMENT, WORD. range.
Qed.

(** [stack_owns] is the range test on the whole region. *)
Lemma stack_owns_range s p :
  stack_ok s -> (stack_owns s p = true <-> buffer s <= p < buffer s + capacity s).
Proof.
  intros Hok. destruct (stack_ok_bounds s Hok) as (_ & _ & _ & Hend).
  destruct Hok as (Hb & _). unfold stack_owns. rewrite Hend.
  destruct (Z.eqb_spec p NULL) as [->|Hnn].
  - unfold NULL. split; [discriminate|lia].
  - rewrite andb_true_iff, Z.geb_le, Z.ltb_lt. reflexivity.
Qed.

(** X9 (stack.h): a successful [stack_alloc_aligned] places the block
    inside the buffer, at least one header above the old watermark; it
    writes the old watermark into the word in front of the block and
    nothing else; the block costs at least [size] plus one header of
    [stack_remaining], and [stack_owns] accepts the returned pointer. *)
Theorem stack_alloc_within_buffer s m size alignment p s' m' :
  stack_ok s -> stack_req_ok (size, alignment) ->
  stack_alloc_aligned s m size alignment = Done (p, s', m') -> p <> NULL ->
  buffer s + offset s + STACK_HEADER_SIZE <= p /\
  p + size <= buffer s + capacity s /\
  load_word m' (p - STACK_HEADER_SIZE) = offset s /\
  (forall x, x < p - STACK_HEADER_SIZE \/ p <= x -> load8 m' x = load8 m x) /\
  stack_remaining s' + size + STACK_HEADER_SIZE <= stack_remaining s /\
  stack_owns s' p = true.
Proof.
  intros Hok Hreq H Hnn.
  destruct (stack_alloc_aligned_step s m size alignment p s' m' Hok Hreq H Hnn)
    as (Hok' & Hb & Hc & Hsz & Hlo & Hhi & _ & Hm).
  destruct (stack_ok_bounds s Hok) as (_ & _ & Hoin & _).
  pose proof Hok as (Hb0 & Ho & Hr & Hcap). pose proof Hok' as (_ & Ho' & _ & _).
  unfold STACK_HEADER_SIZE, WORD in *.
  split; [lia|]. split; [lia|]. split; [|split; [|split]].
  - rewrite Hm. apply load_word_store_word_same. exact Hoin.
  - intros x Hx. rewrite Hm. symmetry.
    apply (mem_agree_store_word m (p - 8) (offset s) x (x + 1)); lia.
  - unfold stack_remaining, size_sub. rewrite Hc.
    rewrite !wrap_small by (unfold in_size_t; lia).
    destruct (Z.geb_spec (offset s) (capacity s)); [lia|].
    destruct (Z.geb_spec (offset s') (capacity s)); lia.
  - apply (stack_owns_range s' p Hok'). lia.
Qed.

Lemma stack_alloc_within_buffer_witness :
  buffer demo_stack + offset demo_stack + STACK_HEADER_SIZE <= 4104 /\
  4104 + 64 <= buffer demo_stack + capacity demo_stack /\
  load_word (store_word ∅ 4096 0) (4104 - STACK_HEADER_SIZE) = offset demo_stack /\
  (forall x, x < 4104 - STACK_HEADER_SIZE \/ 4104 <= x ->
     load8 (store_word ∅ 4096 0) x = load8 ∅ x) /\
  stack_remaining (mk_stack 4096 4096 72) + 64 + STACK_HEADER_SIZE <=
    stack_remaining demo_stack /\
  stack_owns (mk_stack 4096 4096 72) 4104 = true.
Proof.
  apply (stack_alloc_within_buffer demo_stack ∅ 64 4 4104 (mk_stack 4096 4096 72)
           (store_word ∅ 4096 0)).
  - unfold stack_ok, demo_stack, STACK_HEADER_SIZE, WORD, PTRDIFF_MAX; simpl.
    rewrite SIZE_MOD_val. lia.
  - repeat split; simpl; range.
  - reflexivity.
  - unfold NULL. lia.
Defined.

(** X10 (stack.h): [stack_free] of a block rewinds the watermark to
    where it stood before that block was allocated, whatever was
    allocated after it: the later blocks are released with it, and a
    free right after the allocation undoes it exactly. *)
Theorem stack_free_rewinds_to_block s m size alignment p s1 m1 reqs res fin mfin :
  stack_ok s -> stack_req_ok (size, alignment) -> Forall stack_req_ok reqs ->
  stack_alloc_aligned s m size alignment = Done (p, s1, m1) -> p <> NULL ->
  stack_allocs s1 m1 reqs = Done (res, fin, mfin) ->
  stack_free s1 m1 p = Done s /\ stack_free fin mfin p = Done s.
Proof.
  intros Hok Hreq Hreqs H Hnn Hrun.
  destruct (stack_alloc_aligned_step s m size alignment p s1 m1 Hok Hreq H Hnn)
    as (Hok1 & Hb & Hc & Hsz & Hlo & Hhi & _ & Hm).
  destruct (stack_allocs_bounds reqs s1 m1 res fin mfin Hok1 Hreqs Hrun)
    as (Hokf & Hbf & Hcf & Hof & Hag & _).
  destruct (stack_ok_bounds s Hok) as (_ & _ & Hoin & Hend).
  pose proof Hok as (Hb0 & Ho & Hr & Hcap). pose proof Hok1 as (_ & Ho1 & _ & _).
  unfold STACK_HEADER_SIZE, WORD in *.
  assert (Hhdr : load_word m1 (p - 8) = offset s).
  { rewrite Hm. apply load_word_store_word_same. exact Hoin. }
  assert (Hhdrf : load_word mfin (p - 8) = offset s).
  { rewrite <- Hhdr. symmetry. apply load_word_agree.
    apply (mem_agree_sub _ _ (p - 8) (buffer s1 + offset s1)); [lia|lia|apply Hag]. }
  assert (Hfree : forall t mt, buffer t = buffer s -> capacity t = capacity s ->
                    offset s <= offset t -> load_word mt (p - 8) = offset s ->
                    stack_free t mt p = Done s).
  { intros t mt Hbt Hct Hot Hld. unfold stack_free, stack__get_header, c_assert.
    destruct (Z.eqb_spec p NULL); [contradiction|].
    rewrite Hbt, Hct, Hend. unfold STACK_HEADER_SIZE, WORD.
    rewrite wrap_small by (unfold in_size_t; lia). rewrite Hld.
    destruct (Z.geb_spec p (buffer s)); [|lia].
    destruct (Z.ltb_spec p (buffer s + capacity s)); [|lia].
    destruct (Z.leb_spec (offset s) (offset t)); [|lia].
    simpl. destruct s; reflexivity. }
  split.
  - apply Hfree; [exact Hb|exact Hc|lia|exact Hhdr].
  - apply Hfree; [congruence|congruence|lia|exact Hhdrf].
Qed.

Lemma stack_free_rewinds_to_block_witness :
  stack_free (mk_stack 4096 4096 72) (store_word ∅ 4096 0) 4104 = Done demo_stack /\
  stack_free (mk_stack 4096 4096 208) (store_word (store_word ∅ 4096 0) 4168 72) 4104 =
    Done demo_stack.
Proof.
  apply (stack_free_rewinds_to_block demo_stack ∅ 64 8 4104 (mk_stack 4096 4096 72)
           (store_word ∅ 4096 0) [(128, 8)] [(4176, 128)]).
  - unfold stack_ok, demo_stack, STACK_HEADER_SIZE, WORD, PTRDIFF_MAX; simpl.
    rewrite SIZE_MOD_val. lia.
  - repeat split; simpl; range.
  - apply Forall_cons_2; [repeat split; simpl; range|apply Forall_nil_2].
  - reflexivity.
  - unfold NULL. lia.
  - reflexivity.
Defined.



(** X12 (stack.h): [stack_calloc] returns null, leaving stack and store
    alone, exactly when [num * size] does not fit a [size_t] - the
    division test misses no overflow - or the block does not fit; a
    block it returns holds [num * size] bytes inside the buffer that all
    read [0], and its header is intact: freeing it restores the stack. *)
Theorem stack_calloc_zeroed s m num size p s' m' :
  stack_ok s -> in_size_t num -> in_size_t size ->
  stack_calloc s m num size = Done (p, s', m') ->
  (SIZE_MAX < num * size -> p = NULL) /\
  (p = NULL -> s' = s /\ m' = m) /\
  (p <> NULL ->
     0 < num * size <= SIZE_MAX /\
     buffer s + offset s + STACK_HEADER_SIZE <= p /\
     p + num * size <= buffer s + capacity s /\
     (forall x, p <= x < p + num * size -> load8 m' x = 0) /\
     (forall x, x < p - STACK_HEADER_SIZE \/ p + num * size <= x -> load8 m' x = load8 m x) /\
     stack_free s' m' p = Done s).
Proof.
  intros Hok Hnum Hsize H. unfold stack_calloc in H.
  assert (Hover : size <> 0 -> (num >? SIZE_MAX / size) = true <-> SIZE_MAX < num * size).
  { intros Hnz. assert (0 < size) by (unfold in_size_t in Hsize; lia).
    rewrite Z.gtb_lt. split.
    - intros Hlt. pose proof (Z.mul_succ_div_gt SIZE_MAX size ltac:(lia)). nia.
    - intros Hlt. apply Z.div_lt_upper_bound; lia. }
  destruct (Z.eqb_spec size 0) as [Hz|Hnz]; cbn [negb andb] in H.
  - (* size = 0: the request is for 0 bytes *)
    subst size. unfold size_mul in H. rewrite Z.mul_0_r in H.
    rewrite (wrap_small 0) in H by range.
    unfold stack_alloc in H.
    rewrite stack_alloc_aligned_spec in H
      by first [assumption|apply stack_req_ok_min; range].
    change (0 =? 0) with true in H. cbn [obind] in H.
    change (NULL =? NULL) with true in H. cbn [negb] in H.
    injection H as <- <- <-.
    split; [reflexivity|]. split; [intros _; split; reflexivity|contradiction].
  - destruct (num >? SIZE_MAX / size) eqn:E.
    + injection H as <- <- <-.
      split; [reflexivity|]. split; [intros _; split; reflexivity|contradiction].
    + assert (Hfit : num * size <= SIZE_MAX).
      { apply Z.nlt_ge. intros Hlt. apply (Hover Hnz) in Hlt. congruence. }
      assert (Hin : in_size_t (num * size)).
      { unfold in_size_t, SIZE_MAX in *. split; [apply Z.mul_nonneg_nonneg; lia|lia]. }
      unfold size_mul in H. rewrite wrap_small in H by exact Hin.
      assert (Hreq : stack_req_ok (num * size, STACK_MIN_ALIGNMENT)).
      { apply stack_req_ok_min. exact Hin. }
      unfold stack_alloc in H.
      destruct (stack_alloc_aligned s m (num * size) STACK_MIN_ALIGNMENT)
        as [[[q s1] m1]|] eqn:Ea; [|discriminate].
      cbn [obind] in H.
      destruct (Z.eqb_spec q NULL) as [Hq|Hq]; cbn [negb] in H; injection H as <- <- <-.
      * subst q.
        destruct (stack_alloc_aligned_null s m _ _ s1 m1 Hok Hreq Ea) as (-> & ->).
        split; [reflexivity|]. split; [intros _; split; reflexivity|contradiction].
      * split; [intros Hlt; lia|]. split; [contradiction|]. intros _.
        destruct (stack_alloc_aligned_step s m _ _ q s1 m1 Hok Hreq Ea Hq)
          as (Hok1 & Hb & Hc & Hsz & Hlo & Hhi & _ & Hm).
        destruct (stack_ok_bounds s Hok) as (_ & _ & Hoin & Hend).
        pose proof Hok as (Hb0 & Ho & Hr & Hcap). pose proof Hok1 as (_ & Ho1 & _ & _).
        unfold STACK_HEADER_SIZE, WORD in *.
        split; [lia|]. split; [lia|]. split; [lia|]. split; [|split].
        -- intros x Hx. rewrite load8_memset_in by exact Hx. reflexivity.
        -- intros x Hx. rewrite load8_memset_other by lia. rewrite Hm. symmetry.
           apply (mem_agree_store_word m (q - 8) (offset s) x (x + 1)); lia.
        -- unfold stack_free, stack__get_header, c_assert.
           destruct (Z.eqb_spec q NULL); [contradiction|].
           rewrite Hb, Hc, Hend. unfold STACK_HEADER_SIZE, WORD.
           rewrite wrap_small by (unfold in_size_t; lia).
           rewrite <- (load_word_agree m1 _ (q - 8))
             by (apply mem_agree_memset; lia).
           rewrite Hm, load_word_store_word_same by exact Hoin.
           destruct (Z.geb_spec q (buffer s)); [|lia].
           destruct (Z.ltb_spec q (buffer s + capacity s)); [|lia].
           destruct (Z.leb_spec (offset s) (offset s1)); [|lia].
           simpl. destruct s; reflexivity.
Qed.

Lemma stack_calloc_zeroed_witness :
  (SIZE_MAX < 4 * 16 -> 4104 = NULL) /\
  (4104 = NULL ->
     mk_stack 4096 4096 72 = demo_stack /\
     memset (store_word (store8 ∅ 4110 9) 4096 0) 4104 0 64 = store8 ∅ 4110 9) /\
  (4104 <> NULL ->
     0 < 4 * 16 <= SIZE_MAX /\
     buffer demo_stack + offset demo_stack + STACK_HEADER_SIZE <= 4104 /\
     4104 + 4 * 16 <= buffer demo_stack + capacity demo_stack /\
     (forall x, 4104 <= x < 4104 + 4 * 16 ->
        load8 (memset (store_word (store8 ∅ 4110 9) 4096 0) 4104 0 64) x = 0) /\
     (forall x, x < 4104 - STACK_HEADER_SIZE \/ 4104 + 4 * 16 <= x ->
        load8 (memset (store_word (store8 ∅ 4110 9) 4096 0) 4104 0 64) x =
        load8 (store8 ∅ 4110 9) x) /\
     stack_free (mk_stack 4096 4096 72)
                (memset (store_word (store8 ∅ 4110 9) 4096 0) 4104 0 64) 4104 =
       Done demo_stack).
Proof.
  apply (stack_calloc_zeroed demo_stack (store8 ∅ 4110 9) 4 16 4104 (mk_stack 4096 4096 72)
           (memset (store_word (store8 ∅ 4110 9) 4096 0) 4104 0 64)).
  - unfold stack_ok, demo_stack, STACK_HEADER_SIZE, WORD, PTRDIFF_MAX; simpl.
    rewrite SIZE_MOD_val. lia.
  - range.
  - range.
  - reflexivity.
Defined.

(** X13 (stack.h): [stack_init] refuses exactly a null buffer or a zero
    size, whatever the other argument is; the stack it sets up on a
    buffer is empty with the whole size remaining, and [stack_reset]
    after any run of allocations gives that very descriptor back. *)
Theorem stack_reset_restores_init buf size :
  (stack_init buf size = None <-> buf = NULL \/ size = 0) /\
  forall m reqs s0 res fin mfin,
    region_ok buf size -> size + STACK_HEADER_SIZE <= PTRDIFF_MAX ->
    Forall stack_req_ok reqs ->
    stack_init buf size = Some s0 ->
    stack_allocs s0 m reqs = Done (res, fin, mfin) ->
    stats_used (stack_stats s0) = 0 /\ stack_remaining s0 = size /\
    stack_reset fin = s0.
Proof.
  split.
  - unfold stack_init.
    destruct (Z.eqb_spec buf NULL); destruct (Z.eqb_spec size 0); simpl;
      split; try discriminate; try reflexivity; try tauto; intros; auto.
  - intros m reqs s0 res fin mfin Hreg Hmax Hreqs Hinit Hrun.
    destruct (stack_init_ok buf size s0 Hreg Hmax Hinit) as [Hok Hoff].
    destruct (stack_allocs_bounds reqs s0 m res fin mfin Hok Hreqs Hrun)
      as (_ & Hbf & Hcf & _).
    unfold stack_init in Hinit.
    destruct ((buf =? NULL) || (size =? 0)) eqn:E; [discriminate|]. injection Hinit as <-.
    apply orb_false_iff in E as [_ Hsz]. apply Z.eqb_neq in Hsz.
    destruct Hreg as (Hb & Hs & Hr).
    unfold stack_stats, stack_remaining, stack_reset, size_sub. rewrite Hbf, Hcf.
    cbn [stats_used offset capacity buffer].
    destruct (Z.geb_spec 0 size); [lia|].
    rewrite Z.sub_0_r, wrap_small by (unfold in_size_t; lia). repeat split.
Qed.

Lemma stack_reset_restores_init_witness :
  (stack_init NULL 4096 = None /\ stack_init 4096 0 = None) /\
  region_ok 4096 4096 /\ 4096 + STACK_HEADER_SIZE <= PTRDIFF_MAX /\
  Forall stack_req_ok [(64, 8); (128, 64)] /\
  stack_init 4096 4096 = Some demo_stack /\
  stack_allocs demo_stack ∅ [(64, 8); (128, 64)] =
    Done ([(4104, 64); (4224, 128)], mk_stack 4096 4096 256,
          store_word (store_word ∅ 4096 0) 4216 72) /\
  stats_used (stack_stats demo_stack) = 0 /\ stack_remaining demo_stack = 4096 /\
  stack_reset (mk_stack 4096 4096 256) = demo_stack.
Proof.
  assert (Hreg : region_ok 4096 4096) by (unfold region_ok; rewrite SIZE_MOD_val; lia).
  assert (Hmax : 4096 + STACK_HEADER_SIZE <= PTRDIFF_MAX)
    by (unfold STACK_HEADER_SIZE, WORD, PTRDIFF_MAX; lia).
  assert (Hreqs : Forall stack_req_ok [(64, 8); (128, 64)]).
  { repeat (apply Forall_cons_2; [repeat split; simpl; range|]). apply Forall_nil_2. }
  assert (Hrun : stack_allocs demo_stack ∅ [(64, 8); (128, 64)] =
                 Done ([(4104, 64); (4224, 128)], mk_stack 4096 4096 256,
                       store_word (store_word ∅ 4096 0) 4216 72))
    by (vm_compute; reflexivity).
  split.
  - split.
    + apply (proj1 (stack_reset_restores_init NULL 4096)). left. reflexivity.
    + apply (proj1 (stack_reset_restores_init 4096 0)). right. reflexivity.
  - split; [exact Hreg|]. split; [exact Hmax|]. split; [exact Hreqs|].
    split; [reflexivity|]. split; [exact Hrun|].
    exact (proj2 (stack_reset_restores_init 4096 4096) ∅ [(64, 8); (128, 64)]
                 demo_stack _ _ _ Hreg Hmax Hreqs eq_refl Hrun).
Defined.

(** [stack_owns] is a range test on the whole buffer and
    does not look at the watermark: it accepts exactly the addresses in
    [[buffer, buffer + capacity)], so it still accepts a block after the
    block was freed or the stack reset. *)
Lemma stack_owns_whole_buffer s m p q s' :
  stack_ok s ->
  (stack_owns s q = true <-> buffer s <= q < buffer s + capacity s) /\
  (stack_free s m p = Done s' -> stack_owns s' q = stack_owns s q) /\
  stack_owns (stack_reset s) q = stack_owns s q.
Proof.
  intros Hok. split; [apply stack_owns_range; exact Hok|]. split; [|reflexivity].
  unfold stack_free, c_assert. destruct (p =? NULL); [intros [= <-]; reflexivity|].
  destruct ((p >=? buffer s) && (p <? ptr_add (buffer s) (capacity s))); [|discriminate].
  destruct (load_word m (stack__get_header p) <=? offset s); [|discriminate].
  intros [= <-]. reflexivity.
Qed.

End StackMore.

(** ** pool.h: what pool_init sets up *)

Section PoolInit.

Import Pool.

Ltac range := unfold in_size_t; rewrite ?SIZE_MOD_val; lia.

Lemma pool_effective_slot_size_bounds slot_sz :
  0 <= slot_sz ->
  8 <= pool_effective_slot_size slot_sz /\
  slot_sz <= pool_effective_slot_size slot_sz < Z.max slot_sz 8 + 8 /\
  pool_effective_slot_size slot_sz mod 8 = 0.
Proof.
  intros Hs. unfold pool_effective_slot_size, POOL_ALIGN, WORD.
  pose proof (round_up_bounds (Z.max slot_sz 8) 8 ltac:(lia)).
  pose proof (round_up_multiple (Z.max slot_sz 8) 8 ltac:(lia)). lia.
Qed.

(** The rounding of the slot size in [pool_init]. *)
Lemma pool_effective_slot_size_exact slot_sz :
  0 <= slot_sz <= SIZE_MAX - 7 ->
  pool__align_up (if slot_sz <? WORD then WORD else slot_sz) POOL_ALIGN =
  pool_effective_slot_size slot_sz.
Proof.
  intros Hs. unfold pool__align_up, pool_effective_slot_size, POOL_ALIGN, WORD, SIZE_MAX in *.
  replace (if slot_sz <? 8 then 8 else slot_sz) with (Z.max slot_sz 8)
    by (destruct (Z.ltb_spec slot_sz 8); lia).
  rewrite SIZE_MOD_val in Hs.
  apply (align_up_exact (Z.max slot_sz 8) 3); change (2 ^ 3) with 8;
    rewrite ?SIZE_MOD_val; lia.
Qed.

(** The construction loop writes inside the slots only. *)
Lemma build_free_list_loop_frame pool x :
  0 < buffer pool -> 8 <= slot_size pool -> 0 <= slot_count pool ->
  buffer pool + slot_count pool * slot_size pool < SIZE_MOD ->
  x < buffer pool \/ buffer pool + slot_count pool * slot_size pool <= x ->
  forall (i : nat) head m,
    (i <= Z.to_nat (slot_count pool))%nat ->
    load8 (snd (build_free_list_loop pool i head m)) x = load8 m x.
Proof.
  intros Hb Hs Hn Hfit Hx. induction i as [|i IH]; intros head m Hi; [reflexivity|].
  cbn [build_free_list_loop].
  rewrite pool__slot_ptr_exact by (try assumption; lia).
  rewrite IH by lia. symmetry.
  apply (mem_agree_store_word m _ head x (x + 1)); [|lia]. nia.
Qed.

(** What [pool__build_free_list] leaves: the free list threads the slots
    in ascending order, and nothing outside the slots is written. *)
Lemma pool__build_free_list_spec pool m s m' :
  0 < buffer pool -> 8 <= slot_size pool -> 0 <= slot_count pool ->
  buffer pool + slot_count pool * slot_size pool < SIZE_MOD ->
  pool__build_free_list pool m = (s, m') ->
  s = mk_pool (buffer pool) (buffer_end pool) (free_list s) (slot_size pool)
              (slot_count pool) (slot_count pool) /\
  chain m' (free_list s) (pool_slots pool) /\
  forall x, x < buffer pool \/ buffer pool + slot_count pool * slot_size pool <= x ->
            load8 m' x = load8 m x.
Proof.
  intros Hb Hs Hn Hfit H. unfold pool__build_free_list in H.
  pose proof (build_free_list_loop_chain pool Hb Hs Hn Hfit
                (Z.to_nat (slot_count pool)) NULL m ltac:(lia)
                ltac:(unfold in_size_t, NULL; rewrite SIZE_MOD_val; lia)) as Hloop.
  rewrite Nat.sub_diag in Hloop. specialize (Hloop eq_refl).
  assert (Hframe : forall x,
            x < buffer pool \/ buffer pool + slot_count pool * slot_size pool <= x ->
            load8 (snd (build_free_list_loop pool (Z.to_nat (slot_count pool)) NULL m)) x =
            load8 m x).
  { intros x Hx. apply build_free_list_loop_frame; try assumption. lia. }
  destruct (build_free_list_loop pool (Z.to_nat (slot_count pool)) NULL m) as [head m1].
  injection H as <- <-. simpl in *. split; [reflexivity|]. split; assumption.
Qed.

(** The outcome of [pool_init] on a buffer that is a C object, for a
    slot size whose rounding does not wrap. *)
Lemma pool_init_cases pool0 m0 buf size slot_sz :
  region_ok buf size -> in_size_t size -> 0 < slot_sz <= SIZE_MAX - 7 ->
  let start := round_up buf 8 in
  let eff := pool_effective_slot_size slot_sz in
  let usable := size - (start - buf) in
  (usable < eff ->
     pool_init pool0 m0 buf size slot_sz = Done (POOL_ERR_BUFFER_TOO_SMALL, pool_zero, m0)) /\
  (eff <= usable ->
     exists head m,
       pool_init pool0 m0 buf size slot_sz =
         Done (POOL_OK,
               mk_pool start (start + usable / eff * eff) head eff (usable / eff) (usable / eff),
               m) /\
       chain m head (slot_addrs start eff 0 (Z.to_nat (usable / eff))) /\
       forall x, x < start \/ start + usable / eff * eff <= x -> load8 m x = load8 m0 x).
Proof.
  intros (Hb & Hs0 & Hr) Hsz Hss start eff usable.
  destruct (pool_effective_slot_size_bounds slot_sz ltac:(lia)) as (He8 & Hebd & _).
  fold eff in He8, Hebd.
  assert (Heff : eff < SIZE_MOD) by (unfold SIZE_MAX in Hss; rewrite SIZE_MOD_val in *; lia).
  pose proof (round_up_bounds buf 8 ltac:(lia)) as Hru. fold start in Hru.
  unfold pool_init.
  destruct (Z.eqb_spec buf NULL) as [E|_]; [unfold NULL in E; lia|].
  destruct (Z.eqb_spec slot_sz 0); [lia|].
  change (negb (size_and POOL_ALIGN (size_sub POOL_ALIGN 1) =? 0)) with false.
  cbv iota zeta.
  rewrite pool_effective_slot_size_exact by lia. fold eff.
  destruct (Z_lt_ge_dec (buf + 8 - 1) SIZE_MOD) as [Hbn|Hbw].
  2:{ unfold pool__align_ptr, POOL_ALIGN, WORD. change 8 with (2 ^ 3) at 1 2.
      rewrite align_up_wrapped
        by (change (2 ^ 3) with 8; unfold in_size_t; rewrite ?SIZE_MOD_val in *; lia).
      unfold ptr_diff. rewrite wrap_below by lia.
      destruct (Z.geb_spec (0 - buf + SIZE_MOD) size); [|lia].
      split; [reflexivity|]. intros Hfit. unfold usable in Hfit. lia. }
  assert (Hstart : pool__align_ptr buf POOL_ALIGN = start).
  { unfold pool__align_ptr, POOL_ALIGN, WORD, start.
    apply (align_up_exact buf 3); change (2 ^ 3) with 8; lia. }
  rewrite Hstart.
  assert (Hd : ptr_diff start buf = start - buf).
  { unfold ptr_diff. apply wrap_small. unfold in_size_t. lia. }
  rewrite Hd.
  destruct (Z.geb_spec (start - buf) size) as [Hov|Hov].
  { split; [reflexivity|]. intros Hfit. unfold usable in Hfit. lia. }
  assert (Hu : size_sub size (start - buf) = usable).
  { unfold size_sub. apply wrap_small. unfold in_size_t in *. unfold usable. lia. }
  rewrite Hu.
  destruct (Z.eqb_spec eff 0); [lia|].
  assert (Hq : 0 <= usable / eff) by (apply Z.div_pos; unfold usable; lia).
  pose proof (Z.div_mod usable eff ltac:(lia)) as Hdm.
  pose proof (Z.mod_pos_bound usable eff ltac:(lia)) as Hmb.
  destruct (Z.eqb_spec (usable / eff) 0) as [Hz|Hcnt].
  { split; [reflexivity|]. intros Hfit. rewrite Hz in Hdm. lia. }
  split; [intros Hlt; rewrite Z.div_small in Hcnt by (unfold usable in *; lia); lia|].
  intros _. set (cnt := usable / eff) in *.
  assert (Hle : cnt * eff <= usable) by lia.
  assert (Hm : size_mul cnt eff = cnt * eff).
  { unfold size_mul. apply wrap_small. unfold in_size_t, usable in *. nia. }
  assert (Hend : ptr_add start (cnt * eff) = start + cnt * eff).
  { unfold ptr_add. apply wrap_small. unfold in_size_t, usable in *. nia. }
  rewrite Hm, Hend.
  set (pool := mk_pool start (start + cnt * eff) (free_list pool_zero) eff cnt
                       (free_count pool_zero)).
  destruct (pool__build_free_list pool m0) as [s m] eqn:Eb.
  destruct (pool__build_free_list_spec pool m0 s m) as (Hshape & Hchain & Hframe);
    cbn [buffer slot_size slot_count pool]; try lia; try exact Eb.
  cbn [buffer buffer_end slot_size slot_count pool] in Hshape, Hframe.
  exists (free_list s), m. rewrite Hshape at 1.
  split; [reflexivity|]. split; [exact Hchain|exact Hframe].
Qed.

(** X14 (pool.h): [pool_init] returns an error code and leaves the
    store alone unless it succeeds.  A null buffer or a zero slot size
    is refused with the descriptor untouched; otherwise the descriptor is
    cleared first, and the call succeeds exactly when one slot of the
    effective size fits behind the aligned start of the buffer. *)
Theorem pool_init_outcome pool0 m0 buf size slot_sz :
  region_ok buf size -> in_size_t size -> 0 <= slot_sz <= SIZE_MAX - 7 ->
  pool_init pool0 m0 NULL size slot_sz = Done (POOL_ERR_NULL_BUFFER, pool0, m0) /\
  exists e s m,
    pool_init pool0 m0 buf size slot_sz = Done (e, s, m) /\
    (slot_sz = 0 -> e = POOL_ERR_INVALID_SLOT_SIZE /\ s = pool0 /\ m = m0) /\
    (0 < slot_sz ->
       (e = POOL_OK <->
        pool_effective_slot_size slot_sz <= size - (round_up buf 8 - buf)) /\
       (e <> POOL_OK -> e = POOL_ERR_BUFFER_TOO_SMALL /\ s = pool_zero /\ m = m0)).
Proof.
  intros Hreg Hsz Hss. split; [reflexivity|].
  destruct (Z.eq_dec slot_sz 0) as [->|Hnz].
  - exists POOL_ERR_INVALID_SLOT_SIZE, pool0, m0.
    unfold pool_init. destruct Hreg as (Hb & _).
    destruct (Z.eqb_spec buf NULL) as [E|_]; [unfold NULL in E; lia|].
    split; [reflexivity|]. split; [intros _; repeat split|lia].
  - destruct (pool_init_cases pool0 m0 buf size slot_sz Hreg Hsz ltac:(lia))
      as (Hsmall & Hfit).
    destruct (Z_lt_ge_dec (size - (round_up buf 8 - buf)) (pool_effective_slot_size slot_sz))
      as [Hlt|Hge].
    + exists POOL_ERR_BUFFER_TOO_SMALL, pool_zero, m0.
      split; [apply Hsmall; exact Hlt|]. split; [lia|]. intros _.
      split; [split; [discriminate|lia]|]. intros _. repeat split.
    + destruct (Hfit ltac:(lia)) as (head & m & Hinit & _).
      eexists POOL_OK, _, m. split; [exact Hinit|]. split; [lia|]. intros _.
      split; [split; [lia|reflexivity]|]. intros Hne. contradiction.
Qed.

Lemma pool_init_outcome_witness :
  pool_init pool_zero ∅ NULL 20 16 = Done (POOL_ERR_NULL_BUFFER, pool_zero, ∅) /\
  exists e s m,
    pool_init pool_zero ∅ 4097 20 16 = Done (e, s, m) /\
    (16 = 0 -> e = POOL_ERR_INVALID_SLOT_SIZE /\ s = pool_zero /\ m = ∅) /\
    (0 < 16 ->
       (e = POOL_OK <-> pool_effective_slot_size 16 <= 20 - (round_up 4097 8 - 4097)) /\
       (e <> POOL_OK -> e = POOL_ERR_BUFFER_TOO_SMALL /\ s = pool_zero /\ m = ∅)).
Proof.
  apply (pool_init_outcome pool_zero ∅ 4097 20 16).
  - unfold region_ok. rewrite SIZE_MOD_val. lia.
  - range.
  - unfold SIZE_MAX. rewrite SIZE_MOD_val. lia.
Defined.

(** X15 (pool.h): the pool a successful [pool_init] sets up lies inside
    the caller's buffer: its first slot is the first 8-aligned address
    of the buffer, the slot size is the requested one raised to 8 and
    rounded up to a multiple of 8, the slots are as many as fit, all of
    them are free, and no byte outside the buffer was written. *)
Theorem pool_init_layout pool0 m0 buf size slot_sz s m :
  region_ok buf size -> in_size_t size -> 0 < slot_sz <= SIZE_MAX - 7 ->
  pool_init pool0 m0 buf size slot_sz = Done (POOL_OK, s, m) ->
  buf <= buffer s < buf + 8 /\ buffer s mod 8 = 0 /\
  slot_sz <= pool_slot_size s /\ pool_slot_size s mod 8 = 0 /\
  pool_slot_size s = pool_effective_slot_size slot_sz /\
  0 < pool_capacity s /\
  buffer_end s = buffer s + pool_capacity s * pool_slot_size s /\
  buffer_end s <= buf + size < buffer_end s + pool_slot_size s /\
  pool_available s = pool_capacity s /\ pool_used s = 0 /\
  pool_is_empty s = true /\ pool_is_full s = false /\
  forall x, x < buf \/ buf + size <= x -> load8 m x = load8 m0 x.
Proof.
  intros Hreg Hsz Hss Hinit.
  destruct (pool_init_cases pool0 m0 buf size slot_sz Hreg Hsz Hss) as (Hsmall & Hfit).
  destruct (pool_effective_slot_size_bounds slot_sz ltac:(lia)) as (He8 & Hebd & Hem).
  pose proof (round_up_bounds buf 8 ltac:(lia)) as Hru.
  pose proof (round_up_multiple buf 8 ltac:(lia)) as Hrm.
  set (eff := pool_effective_slot_size slot_sz) in *.
  set (start := round_up buf 8) in *.
  set (usable := size - (start - buf)) in *.
  destruct (Z_lt_ge_dec usable eff) as [Hlt|Hge].
  { rewrite (Hsmall Hlt) in Hinit. discriminate. }
  destruct (Hfit ltac:(lia)) as (head & m1 & Hinit' & _ & Hframe).
  rewrite Hinit' in Hinit. injection Hinit as <- <-.
  pose proof (Z.div_mod usable eff ltac:(lia)) as Hdm.
  pose proof (Z.mod_pos_bound usable eff ltac:(lia)) as Hmb.
  assert (Hq : 0 < usable / eff).
  { apply Z.div_str_pos. lia. }
  destruct Hreg as (Hb & Hs0 & Hr). unfold in_size_t in Hsz.
  unfold pool_slot_size, pool_capacity, pool_available, pool_used, pool_is_empty,
    pool_is_full, size_sub.
  cbn [buffer buffer_end slot_size slot_count free_count].
  rewrite Z.sub_diag, Z.eqb_refl.
  destruct (Z.eqb_spec (usable / eff) 0); [lia|].
  split; [lia|]. split; [exact Hrm|]. split; [lia|]. split; [exact Hem|].
  split; [reflexivity|]. split; [lia|]. split; [reflexivity|].
  split; [unfold usable in *; lia|]. split; [reflexivity|]. split; [reflexivity|].
  split; [reflexivity|]. split; [reflexivity|].
  intros x Hx. apply Hframe. unfold usable in *. lia.
Qed.

Lemma pool_init_layout_witness :
  4096 <= buffer (fst demo_pool) < 4096 + 8 /\ buffer (fst demo_pool) mod 8 = 0 /\
  16 <= pool_slot_size (fst demo_pool) /\ pool_slot_size (fst demo_pool) mod 8 = 0 /\
  pool_slot_size (fst demo_pool) = pool_effective_slot_size 16 /\
  0 < pool_capacity (fst demo_pool) /\
  buffer_end (fst demo_pool) =
    buffer (fst demo_pool) + pool_capacity (fst demo_pool) * pool_slot_size (fst demo_pool) /\
  buffer_end (fst demo_pool) <= 4096 + 64 <
    buffer_end (fst demo_pool) + pool_slot_size (fst demo_pool) /\
  pool_available (fst demo_pool) = pool_capacity (fst demo_pool) /\
  pool_used (fst demo_pool) = 0 /\
  pool_is_empty (fst demo_pool) = true /\ pool_is_full (fst demo_pool) = false /\
  forall x, x < 4096 \/ 4096 + 64 <= x -> load8 (snd demo_pool) x = load8 ∅ x.
Proof.
  apply (pool_init_layout pool_zero ∅ 4096 64 16 (fst demo_pool) (snd demo_pool)).
  - unfold region_ok. rewrite SIZE_MOD_val. lia.
  - range.
  - unfold SIZE_MAX. rewrite SIZE_MOD_val. lia.
  - vm_compute. reflexivity.
Defined.

(** X16 (pool.h): a slot size within 7 of [SIZE_MAX] wraps to [0] when
    it is rounded up, and [pool_init] then divides the usable size by
    zero: the call does not return. *)
Theorem pool_init_slot_size_wraps pool0 m0 buf size slot_sz :
  region_ok buf size -> in_size_t size -> round_up buf 8 - buf < size ->
  SIZE_MAX - 7 < slot_sz <= SIZE_MAX ->
  pool_init pool0 m0 buf size slot_sz = Abort.
Proof.
  intros (Hb & Hs0 & Hr) Hsz Hov Hss.
  pose proof (round_up_bounds buf 8 ltac:(lia)) as Hru.
  unfold pool_init.
  destruct (Z.eqb_spec buf NULL) as [E|_]; [unfold NULL in E; lia|].
  unfold SIZE_MAX in Hss. rewrite SIZE_MOD_val in Hss.
  destruct (Z.eqb_spec slot_sz 0); [lia|].
  change (negb (size_and POOL_ALIGN (size_sub POOL_ALIGN 1) =? 0)) with false.
  cbv iota zeta. unfold pool__align_up, pool__align_ptr, POOL_ALIGN, WORD.
  destruct (Z.ltb_spec slot_sz 8); [lia|].
  assert (Hw : align_up slot_sz 8 = 0).
  { apply (align_up_wrapped slot_sz 3); change (2 ^ 3) with 8;
      unfold in_size_t; rewrite ?SIZE_MOD_val; lia. }
  assert (Hx : align_up buf 8 = round_up buf 8).
  { pose proof (round_up_multiple buf 8 ltac:(lia)) as Hrm.
    apply Z.mod_divide in Hrm as [c Hc]; [|lia].
    apply (align_up_exact buf 3); change (2 ^ 3) with 8; unfold in_size_t in Hsz;
      rewrite ?SIZE_MOD_val in *; lia. }
  rewrite Hw, Hx.
  assert (Hd : ptr_diff (round_up buf 8) buf = round_up buf 8 - buf).
  { unfold ptr_diff. apply wrap_small. unfold in_size_t. lia. }
  rewrite Hd. destruct (Z.geb_spec (round_up buf 8 - buf) size); [lia|]. reflexivity.
Qed.

Lemma pool_init_slot_size_wraps_witness :
  pool_init pool_zero ∅ 4096 64 SIZE_MAX = Abort.
Proof.
  apply (pool_init_slot_size_wraps pool_zero ∅ 4096 64 SIZE_MAX).
  - unfold region_ok. rewrite SIZE_MOD_val. lia.
  - range.
  - vm_compute. reflexivity.
  - unfold SIZE_MAX. rewrite SIZE_MOD_val. lia.
Defined.

(** X17 (pool.h): a buffer of [pool_required_size(slot_size, n)] bytes
    is enough wherever it starts: [pool_init] on it succeeds with
    exactly [n] slots.  For a zero slot size or count the function
    returns [0]. *)
Theorem pool_required_size_suffices pool0 m0 buf slot_sz n :
  0 < slot_sz <= SIZE_MAX - 7 -> 0 < n ->
  n * pool_effective_slot_size slot_sz + 7 <= SIZE_MAX ->
  region_ok buf (pool_required_size slot_sz n) ->
  pool_required_size slot_sz n = n * pool_effective_slot_size slot_sz + 7 /\
  pool_required_size 0 n = 0 /\ pool_required_size slot_sz 0 = 0 /\
  exists s m,
    pool_init pool0 m0 buf (pool_required_size slot_sz n) slot_sz = Done (POOL_OK, s, m) /\
    pool_capacity s = n.
Proof.
  intros Hss Hn Hfit Hreg.
  destruct (pool_effective_slot_size_bounds slot_sz ltac:(lia)) as (He8 & Hebd & Hem).
  assert (Hreq : pool_required_size slot_sz n = n * pool_effective_slot_size slot_sz + 7).
  { unfold pool_required_size.
    destruct (Z.eqb_spec slot_sz 0); [lia|]. destruct (Z.eqb_spec n 0); [lia|].
    cbn [orb]. cbv zeta. rewrite pool_effective_slot_size_exact by lia.
    set (eff := pool_effective_slot_size slot_sz) in *.
    unfold size_sub, size_add, size_mul, POOL_ALIGN, WORD, SIZE_MAX in *.
    assert (0 <= n * eff) by nia.
    rewrite (wrap_small (n * eff)) by (unfold in_size_t; lia).
    rewrite Z.add_0_r. rewrite (wrap_small (n * eff)) by (unfold in_size_t; lia).
    rewrite wrap_wrap_sub. rewrite wrap_small by (unfold in_size_t; lia). lia. }
  split; [exact Hreq|]. split; [reflexivity|].
  split; [unfold pool_required_size; rewrite Z.eqb_refl, orb_true_r; reflexivity|].
  rewrite Hreq in *.
  set (eff := pool_effective_slot_size slot_sz) in *.
  assert (Hsz : in_size_t (n * eff + 7)) by (unfold in_size_t, SIZE_MAX in *; nia).
  destruct (pool_init_cases pool0 m0 buf (n * eff + 7) slot_sz Hreg Hsz Hss) as (_ & Hok).
  fold eff in Hok.
  pose proof (round_up_bounds buf 8 ltac:(lia)) as Hru.
  set (usable := n * eff + 7 - (round_up buf 8 - buf)) in *.
  assert (Hu : n * eff <= usable < n * eff + eff) by (unfold usable; lia).
  destruct (Hok ltac:(nia)) as (head & m & Hinit & _).
  assert (Hcnt : usable / eff = n).
  { symmetry. apply (Z.div_unique usable eff n (usable - n * eff)); lia. }
  rewrite Hcnt in Hinit. eexists _, m. split; [exact Hinit|reflexivity].
Qed.

Lemma pool_required_size_suffices_witness :
  pool_required_size 20 3 = 3 * pool_effective_slot_size 20 + 7 /\
  pool_required_size 0 3 = 0 /\ pool_required_size 20 0 = 0 /\
  exists s m,
    pool_init pool_zero ∅ 4099 (pool_required_size 20 3) 20 = Done (POOL_OK, s, m) /\
    pool_capacity s = 3.
Proof.
  apply (pool_required_size_suffices pool_zero ∅ 4099 20 3).
  - unfold SIZE_MAX. rewrite SIZE_MOD_val. lia.
  - lia.
  - vm_compute. discriminate.
  - vm_compute. repeat split; discriminate.
Defined.

End PoolInit.

(** ** pool.h: counters, frees and reset *)

Section PoolMore.

Import Pool.

Ltac range := unfold in_size_t; rewrite ?SIZE_MOD_val; lia.

(** A run of [pool_alloc] walks down the free list and returns null
    once it is used up. *)
Lemma pool_allocs_chain m (n : nat) : forall l s,
  chain m (free_list s) l ->
  fst (pool_allocs s m n) = firstn n l ++ repeat NULL (n - length l).
Proof.
  induction n as [|n IH]; intros l s Hc; [reflexivity|].
  cbn [pool_allocs]. destruct l as [|p l]; cbn [chain] in Hc.
  - unfold pool_alloc. rewrite Hc, Z.eqb_refl.
    destruct (pool_allocs s m n) as [ps fin] eqn:E.
    specialize (IH [] s). rewrite E in IH. cbn [fst] in *.
    rewrite IH by (cbn [chain]; exact Hc).
    rewrite firstn_nil. simpl. rewrite Nat.sub_0_r. reflexivity.
  - destruct Hc as (Hh & Hnn & Hc). unfold pool_alloc.
    destruct (Z.eqb_spec (free_list s) NULL) as [E0|_]; [congruence|].
    set (s' := mk_pool _ _ _ _ _ _).
    destruct (pool_allocs s' m n) as [ps fin] eqn:E.
    specialize (IH l s'). rewrite E in IH. cbn [fst] in *.
    rewrite IH by (unfold s'; cbn [free_list]; rewrite Hh; exact Hc).
    rewrite Hh. reflexivity.
Qed.

(** X18 (pool.h): a pool fresh from [pool_init] hands out its slots in
    ascending address order, slot 0 first, and null from then on: the
    [n] first calls of [pool_alloc] return the [n] first slots, or all
    the slots followed by nulls. *)
Theorem pool_allocs_ascending pool0 m0 buf size slot_sz s m (n : nat) :
  region_ok buf size -> in_size_t size -> 0 < slot_sz <= SIZE_MAX - 7 ->
  pool_init pool0 m0 buf size slot_sz = Done (POOL_OK, s, m) ->
  fst (pool_allocs s m n) =
    firstn n (slot_addrs (buffer s) (pool_slot_size s) 0 (Z.to_nat (pool_capacity s))) ++
    repeat NULL (n - Z.to_nat (pool_capacity s)).
Proof.
  intros Hreg Hsz Hss Hinit.
  destruct (pool_init_cases pool0 m0 buf size slot_sz Hreg Hsz Hss) as (Hsmall & Hfit).
  destruct (Z_lt_ge_dec (size - (round_up buf 8 - buf)) (pool_effective_slot_size slot_sz))
    as [Hlt|Hge].
  { rewrite (Hsmall Hlt) in Hinit. discriminate. }
  destruct (Hfit ltac:(lia)) as (head & m1 & Hinit' & Hchain & _).
  rewrite Hinit' in Hinit. injection Hinit as <- <-.
  unfold pool_slot_size, pool_capacity. cbn [buffer slot_size slot_count].
  match goal with
  | |- fst (pool_allocs ?s0 _ _) = _ => rewrite (pool_allocs_chain m1 n _ s0 Hchain)
  end.
  rewrite length_slot_addrs. reflexivity.
Qed.

Lemma pool_allocs_ascending_witness :
  fst (pool_allocs (fst demo_pool) (snd demo_pool) 6) =
    firstn 6 (slot_addrs (buffer (fst demo_pool)) (pool_slot_size (fst demo_pool)) 0
                         (Z.to_nat (pool_capacity (fst demo_pool)))) ++
    repeat NULL (6 - Z.to_nat (pool_capacity (fst demo_pool))).
Proof.
  apply (pool_allocs_ascending pool_zero ∅ 4096 64 16 (fst demo_pool) (snd demo_pool) 6).
  - unfold region_ok. rewrite SIZE_MOD_val. lia.
  - range.
  - unfold SIZE_MAX. rewrite SIZE_MOD_val. lia.
  - vm_compute. reflexivity.
Defined.

(** X19 (pool.h): in every reachable state the counters agree with the
    slots the client holds: [pool_used] is their number, [pool_available]
    the rest of the capacity, [pool_is_empty] holds exactly when none is
    held, and [pool_is_full] exactly when [pool_alloc] returns null. *)
Theorem pool_counters_count_live s m live :
  pool_reach s m live ->
  pool_used s = Z.of_nat (length live) /\
  pool_available s = pool_capacity s - Z.of_nat (length live) /\
  stats_used_count (pool_stats s) = Z.of_nat (length live) /\
  (pool_is_empty s = true <-> live = []) /\
  (pool_is_full s = true <-> Z.of_nat (length live) = pool_capacity s) /\
  (pool_is_full s = true <-> fst (pool_alloc s m) = NULL).
Proof.
  intros Hr. pose proof (pool_reach_inv s m live Hr) as (Hl & fl & Hc & Hperm & Hfc).
  pose proof Hl as (Hb & Hs & Hn & He & Hfit).
  pose proof (Permutation_length Hperm) as Hlen. unfold pool_slots in Hlen.
  rewrite length_app, length_slot_addrs in Hlen.
  assert (Hcap : slot_count s < SIZE_MOD) by nia.
  unfold pool_used, pool_available, pool_capacity, pool_is_empty, pool_is_full, pool_stats,
    size_sub. cbn [stats_used_count]. rewrite Hfc.
  rewrite wrap_small by (unfold in_size_t; lia).
  split; [lia|]. split; [lia|]. split; [lia|]. split; [|split].
  - rewrite Z.eqb_eq. split.
    + intros H. destruct live; [reflexivity|simpl in Hlen; lia].
    + intros ->. simpl in Hlen. lia.
  - rewrite Z.eqb_eq. lia.
  - rewrite Z.eqb_eq. unfold pool_alloc. destruct fl as [|q fl']; cbn [chain] in Hc.
    + rewrite Hc, Z.eqb_refl. simpl. tauto.
    + destruct Hc as (Hh & Hq & _).
      destruct (Z.eqb_spec (free_list s) NULL) as [E|_]; [congruence|].
      cbn [fst length]. rewrite Hh. split; [lia|contradiction].
Qed.

Lemma pool_counters_count_live_witness :
  exists s,
    pool_reach s (snd demo_pool) [4112; 4096] /\
    pool_used s = Z.of_nat (length [4112; 4096]) /\
    pool_available s = pool_capacity s - Z.of_nat (length [4112; 4096]) /\
    stats_used_count (pool_stats s) = Z.of_nat (length [4112; 4096]) /\
    (pool_is_empty s = true <-> [4112; 4096] = []) /\
    (pool_is_full s = true <-> Z.of_nat (length [4112; 4096]) = pool_capacity s) /\
    (pool_is_full s = true <-> fst (pool_alloc s (snd demo_pool)) = NULL).
Proof.
  pose (m := snd demo_pool).
  pose (s1 := snd (pool_alloc (fst demo_pool) m)).
  pose (s2 := snd (pool_alloc s1 m)).
  assert (R : pool_reach s2 m [4112; 4096]).
  { apply (pool_reach_alloc s1 m _ 4112 s2); [|vm_compute; reflexivity|discriminate].
    apply (pool_reach_alloc (fst demo_pool) m _ 4096 s1);
      [exact demo_pool_reach|vm_compute; reflexivity|discriminate]. }
  exists s2. exact (conj R (pool_counters_count_live s2 m [4112; 4096] R)).
Defined.





(** X21 (pool.h): [pool_free] accepts exactly the addresses of the
    pool's slots.  For null it returns [POOL_ERR_NULL_PTR], for any
    other address that is not the start of a slot - outside the pool or
    inside a slot - [POOL_ERR_INVALID_PTR], both times leaving pool and
    store as they were; for the start of a slot it returns [POOL_OK],
    whether the slot is held or not. *)
Theorem pool_free_accepts_slot_addresses s m p :
  pool_layout_ok s -> in_size_t p ->
  pool_free s m NULL = (POOL_ERR_NULL_PTR, s, m) /\
  (p <> NULL -> ~ In p (pool_slots s) -> pool_free s m p = (POOL_ERR_INVALID_PTR, s, m)) /\
  (In p (pool_slots s) -> fst (fst (pool_free s m p)) = POOL_OK).
Proof.
  intros Hl Hp. pose proof (pool_owns_spec s p Hl Hp) as Hspec.
  split; [reflexivity|]. split.
  - intros Hnn Hnot. unfold pool_free.
    destruct (Z.eqb_spec p NULL); [contradiction|].
    destruct (pool_owns s p) eqn:Ho; [|reflexivity].
    exfalso. apply Hnot. apply Hspec. reflexivity.
  - intros Hin. unfold pool_free.
    pose proof (pool_slot_range s p Hl Hin) as Hr. destruct Hl as (Hb & _).
    destruct (Z.eqb_spec p NULL) as [E|_]; [unfold NULL in E; lia|].
    rewrite (proj2 Hspec Hin). reflexivity.
Qed.

Lemma pool_free_accepts_slot_addresses_witness :
  pool_free (fst demo_pool) (snd demo_pool) NULL =
    (POOL_ERR_NULL_PTR, fst demo_pool, snd demo_pool) /\
  (4120 <> NULL -> ~ In 4120 (pool_slots (fst demo_pool)) ->
   pool_free (fst demo_pool) (snd demo_pool) 4120 =
     (POOL_ERR_INVALID_PTR, fst demo_pool, snd demo_pool)) /\
  (In 4120 (pool_slots (fst demo_pool)) ->
   fst (fst (pool_free (fst demo_pool) (snd demo_pool) 4120)) = POOL_OK).
Proof.
  apply (pool_free_accepts_slot_addresses (fst demo_pool) (snd demo_pool) 4120).
  - vm_compute. repeat split; discriminate.
  - range.
Defined.

(** X22 (pool.h): [pool_reset] rebuilds the free list from the slot
    layout alone, whatever the free list and the counters were: after
    it every slot is free again, in ascending order from slot 0, the
    capacity is what it was, and no byte outside the slots is written. *)
Theorem pool_reset_frees_all s m s' m' :
  pool_layout_ok s ->
  pool_reset s m = (s', m') ->
  pool_inv s' m' [] /\
  chain m' (free_list s') (pool_slots s) /\
  pool_slots s' = pool_slots s /\
  pool_available s' = pool_capacity s /\ pool_capacity s' = pool_capacity s /\
  fst (pool_alloc s' m') = buffer s /\
  forall x, x < buffer s \/ buffer_end s <= x -> load8 m' x = load8 m x.
Proof.
  intros Hl H. pose proof Hl as (Hb & Hs & Hn & He & Hfit). unfold pool_reset in H.
  destruct (pool__build_free_list_spec s m s' m') as (Hshape & Hchain & Hframe);
    try assumption; try lia.
  assert (Hslots : pool_slots s' = pool_slots s) by (rewrite Hshape; reflexivity).
  split; [|split; [exact Hchain|split; [exact Hslots|]]].
  - split.
    + rewrite Hshape. unfold pool_layout_ok. cbn [buffer buffer_end slot_size slot_count].
      repeat split; assumption.
    + exists (pool_slots s). split; [exact Hchain|]. split.
      * rewrite app_nil_r, Hslots. apply Permutation_refl.
      * rewrite Hshape. cbn [free_count]. unfold pool_slots.
        rewrite length_slot_addrs. lia.
  - split; [rewrite Hshape; reflexivity|]. split; [rewrite Hshape; reflexivity|].
    split; [|intros x Hx; apply Hframe; lia].
    unfold pool_slots in Hchain.
    replace (Z.to_nat (slot_count s)) with (S (Z.to_nat (slot_count s) - 1)) in Hchain by lia.
    rewrite slot_addrs_cons in Hchain. cbn [chain] in Hchain.
    destruct Hchain as (Hh & Hnn & _). unfold pool_alloc.
    destruct (Z.eqb_spec (free_list s') NULL) as [E|_]; [congruence|].
    cbn [fst]. rewrite Hh. simpl. lia.
Qed.

Lemma pool_reset_frees_all_witness :
  exists s s' m',
    pool_reset s (snd demo_pool) = (s', m') /\
    pool_available s = 2 /\
    pool_inv s' m' [] /\
    pool_available s' = pool_capacity s /\
    fst (pool_alloc s' m') = buffer s.
Proof.
  pose (m := snd demo_pool).
  pose (s1 := snd (pool_alloc (fst demo_pool) m)).
  pose (s2 := snd (pool_alloc s1 m)).
  pose (r := pool_reset s2 m).
  assert (E : pool_reset s2 m = (fst r, snd r)) by (vm_compute; reflexivity).
  assert (L : pool_layout_ok s2) by (vm_compute; repeat split; discriminate).
  destruct (pool_reset_frees_all s2 m (fst r) (snd r) L E)
    as (Hinv & _ & _ & Hav & _ & Hal & _).
  exists s2, (fst r), (snd r).
  split; [exact E|]. split; [vm_compute; reflexivity|].
  split; [exact Hinv|]. split; [exact Hav|exact Hal].
Defined.

End PoolMore.

(** ** slab.h: what slab_init sets up *)

Section SlabInitMore.

Import Slab.

Ltac range := unfold in_size_t; rewrite ?SIZE_MOD_val; lia.

(** X23 (slab.h): [slab__sort_sizes] sorts the array in place: the
    result is ascending and holds the same entries, each as often as
    before. *)
Theorem slab__sort_sizes_sorts arr :
  StronglySorted Z.le (slab__sort_sizes arr (length arr)) /\
  Permutation (slab__sort_sizes arr (length arr)) arr /\
  length (slab__sort_sizes arr (length arr)) = length arr.
Proof.
  destruct (slab__sort_sizes_sorted arr) as (Hs & Hp).
  split; [exact Hs|]. split; [exact Hp|]. apply Permutation_length. exact Hp.
Qed.

Lemma copy_sizes_firstn sizes : forall n,
  (n <= length sizes)%nat -> Forall (fun x => x <> 0) (firstn n sizes) ->
  copy_sizes sizes n = Some (firstn n sizes).
Proof.
  induction sizes as [|sz sizes IH]; intros n Hn Hnz.
  - destruct n; [reflexivity|simpl in Hn; lia].
  - destruct n as [|n]; [reflexivity|]. simpl in Hn, Hnz |- *.
    apply Forall_cons in Hnz as [Hsz Hnz].
    destruct (Z.eqb_spec sz 0); [contradiction|].
    rewrite IH by (try assumption; lia). reflexivity.
Qed.

Lemma has_equal_neighbours_NoDup l : List.NoDup l -> has_equal_neighbours l = false.
Proof.
  induction l as [|a l IH]; intros Hnd; [reflexivity|].
  apply NoDup_cons_iff in Hnd as [Hna Hnd]. destruct l as [|b l]; [reflexivity|].
  change (has_equal_neighbours (a :: b :: l))
    with ((b =? a) || has_equal_neighbours (b :: l)).
  rewrite (IH Hnd), orb_false_r.
  apply Z.eqb_neq. intros ->. apply Hna. left. reflexivity.
Qed.

(** The class loop of [slab_init] gets through when every class fits
    its sub-region at least once. *)
Lemma init_classes_some rs sorted : forall (i : nat) rp cls m,
  Forall (fun sz => 0 < class_slot_size sz <= rs) sorted ->
  exists cls' m', init_classes sorted i rs rp cls m = (Some cls', m').
Proof.
  induction sorted as [|sz sorted IH]; intros i rp cls m Hfit.
  - simpl. eauto.
  - apply Forall_cons in Hfit as [Hsz Hfit]. cbn [init_classes].
    fold (class_slot_size sz).
    destruct (Z.eqb_spec (rs / class_slot_size sz) 0) as [E|_].
    { apply Z.div_small_iff in E; lia. }
    destruct (slab__build_free_list _ m) as [c m1]. apply IH. exact Hfit.
Qed.

(** The class loop stops at the first class that does not fit. *)
Lemma init_classes_none rs sorted : forall (i : nat) rp cls m,
  0 <= rs -> Exists (fun sz => rs < class_slot_size sz) sorted ->
  fst (init_classes sorted i rs rp cls m) = None.
Proof.
  induction sorted as [|sz sorted IH]; intros i rp cls m Hrs Hex.
  - apply Exists_nil in Hex. contradiction.
  - cbn [init_classes]. fold (class_slot_size sz).
    destruct (Z.eqb_spec (rs / class_slot_size sz) 0) as [|Hne]; [reflexivity|].
    destruct (slab__build_free_list _ m) as [c m1].
    apply Exists_cons in Hex as [Hsz|Hex]; [|apply IH; assumption].
    exfalso. apply Hne. apply Z.div_small. lia.
Qed.

Lemma slab__build_free_list_counts c m :
  slot_count (fst (slab__build_free_list c m)) = slot_count c /\
  free_count (fst (slab__build_free_list c m)) = slot_count c.
Proof.
  unfold slab__build_free_list. cbn [slot_count].
  destruct (slot_count c =? 0); [split; reflexivity|].
  destruct (build_free_list_loop _ _ _ _) as [prev m']. split; reflexivity.
Qed.

(** Slot counts the class loop of [slab_init] leaves. *)
Lemma init_classes_counts rs sorted : forall (i : nat) rp cls m cls' m',
  (i + length sorted <= length cls)%nat ->
  init_classes sorted i rs rp cls m = (Some cls', m') ->
  forall k : nat, (k < length sorted)%nat ->
    slot_count (cls' !!! (i + k)%nat) = rs / class_slot_size (sorted !!! k) /\
    free_count (cls' !!! (i + k)%nat) = rs / class_slot_size (sorted !!! k).
Proof.
  induction sorted as [|sz sorted IH]; intros i rp cls m cls' m' Hlen H k Hk;
    [simpl in Hk; lia|].
  simpl length in Hlen, Hk. cbn [init_classes] in H. fold (class_slot_size sz) in H.
  destruct (rs / class_slot_size sz =? 0); [discriminate|].
  set (c := mk_class _ _ _ _ _ _) in H.
  pose proof (slab__build_free_list_counts c m) as (Hc1 & Hc2).
  destruct (slab__build_free_list c m) as [c1 m1]. cbn [fst] in Hc1, Hc2.
  destruct k as [|k].
  - rewrite Nat.add_0_r.
    assert (Hkeep : cls' !!! i = c1).
    { clear IH Hk. revert H. generalize (ptr_add rp rs). intros rp' H.
      assert (Hi : (<[i:=c1]> cls) !!! i = c1)
        by (apply list_lookup_total_insert_eq; lia).
      revert H Hi. generalize (<[i:=c1]> cls). generalize (S i) (Nat.lt_succ_diag_r i).
      clear. revert rp' m1.
      induction sorted as [|sz sorted IH]; intros rp m j Hj cls H Hi.
      - simpl in H. injection H as <- <-. exact Hi.
      - cbn [init_classes] in H.
        destruct (_ =? 0); [discriminate|].
        destruct (slab__build_free_list _ m) as [c2 m2].
        apply (IH _ _ (S j) ltac:(lia) _ H).
        rewrite list_lookup_total_insert_ne by lia. exact Hi. }
    rewrite Hkeep, Hc1, Hc2. unfold c. cbn [slot_count]. split; reflexivity.
  - replace (i + S k)%nat with (S i + k)%nat by lia.
    change ((sz :: sorted) !!! S k) with (sorted !!! k).
    eapply IH; [|exact H|lia]. rewrite length_insert. lia.
Qed.

(** The outcome of [slab_init] on a buffer that is a C object, for
    nonzero sizes that differ from one another. *)
Lemma slab_init_cases slab0 m0 buf size sizes count :
  region_ok buf size -> in_size_t size -> 0 < size -> Forall in_size_t sizes ->
  0 < count <= SLAB_MAX_CLASSES -> (Z.to_nat count <= length sizes)%nat ->
  length (classes slab0) = Z.to_nat SLAB_MAX_CLASSES ->
  initialized slab0 <> SLAB_MAGIC ->
  Forall (fun x => x <> 0) (firstn (Z.to_nat count) sizes) ->
  List.NoDup (firstn (Z.to_nat count) sizes) ->
  let start := round_up buf 8 in
  let rs := slab_region_size buf size count in
  let sorted := slab__sort_sizes (firstn (Z.to_nat count) sizes) (Z.to_nat count) in
  (Exists (fun sz => rs < class_slot_size sz) sorted ->
   fst (fst (slab_init slab0 m0 buf size sizes count)) = SLAB_ERR_BUFFER_SMALL /\
   initialized (snd (fst (slab_init slab0 m0 buf size sizes count))) <> SLAB_MAGIC) /\
  (Forall (fun sz => class_slot_size sz <= rs) sorted ->
   exists s m,
     slab_init slab0 m0 buf size sizes count = (SLAB_OK, s, m) /\
     buffer s = buf /\ capacity s = size /\ aligned_start s = start /\
     class_count s = count /\ initialized s = SLAB_MAGIC /\
     8 <= rs /\ start + count * rs <= buf + size /\
     forall k : nat, (k < Z.to_nat count)%nat ->
       slot_size (classes s !!! k) = class_slot_size (sorted !!! k) /\
       region_start (classes s !!! k) = start + Z.of_nat k * rs /\
       slot_count (classes s !!! k) = rs / class_slot_size (sorted !!! k) /\
       free_count (classes s !!! k) = slot_count (classes s !!! k) /\
       region_end (classes s !!! k) =
         region_start (classes s !!! k) +
         slot_count (classes s !!! k) * slot_size (classes s !!! k) /\
       region_end (classes s !!! k) <= start + Z.of_nat k * rs + rs).
Proof.
  intros (Hb & Hs0 & Hr) Hsz Hspos Hsizes Hc Hlen Hcls Hinit Hnz Hnd start rs sorted.
  set (l := firstn (Z.to_nat count) sizes) in *.
  assert (Hll : length l = Z.to_nat count) by (unfold l; rewrite length_firstn; lia).
  assert (Hsort : sorted = slab__sort_sizes l (length l)) by (rewrite Hll; reflexivity).
  destruct (slab__sort_sizes_sorted l) as [Hsorted Hperm]. rewrite <- Hsort in Hsorted, Hperm.
  assert (Hsl : length sorted = Z.to_nat count).
  { rewrite <- Hll. apply Permutation_length. exact Hperm. }
  assert (Hin : Forall in_size_t sorted).
  { apply (Permutation_Forall (Permutation_sym Hperm)). apply Forall_take. exact Hsizes. }
  assert (Hge8 : Forall (fun sz => 8 <= class_slot_size sz) sorted).
  { eapply Forall_impl; [exact Hin|]. intros sz Hz. apply class_slot_size_ge. exact Hz. }
  (* when the sub-region is smaller than a minimal slot, no class fits *)
  assert (Hsmall : rs < 8 ->
            Forall (fun sz => class_slot_size sz <= rs) sorted -> False).
  { intros Hlt Hall. destruct sorted as [|sz0 rest]; [simpl in Hsl; lia|].
    apply Forall_cons in Hall as [H1 _]. apply Forall_cons in Hge8 as [H2 _]. lia. }
  pose proof (round_up_bounds buf 8 ltac:(lia)) as Hru. fold start in Hru.
  set (usable := size - (start - buf)).
  assert (Hrs : rs = usable / count / 8 * 8) by reflexivity.
  assert (Hq : usable <= 0 -> rs < 8).
  { intros Hu. rewrite Hrs.
    assert (usable / count <= 0) by (apply Z.div_le_upper_bound; lia).
    assert (usable / count / 8 <= 0) by (apply Z.div_le_upper_bound; lia). lia. }
  unfold slab_init.
  destruct (Z.eqb_spec buf NULL) as [E|_]; [unfold NULL in E; lia|].
  destruct (Z.eqb_spec size 0) as [|_]; [lia|].
  destruct (Z.eqb_spec count 0) as [|_]; [lia|]. cbn [orb].
  destruct (Z.gtb_spec count SLAB_MAX_CLASSES) as [|_]; [lia|].
  destruct (Z.eqb_spec (initialized slab0) SLAB_MAGIC) as [|_]; [contradiction|].
  fold l. rewrite (copy_sizes_firstn sizes (Z.to_nat count) Hlen Hnz). fold l. fold sorted.
  rewrite has_equal_neighbours_NoDup
    by (apply (Permutation_NoDup (Permutation_sym Hperm)); exact Hnd).
  cbv zeta. cbn [buffer aligned_start capacity usable_capacity classes class_count
                 initialized].
  unfold SLAB_ALIGN_UP, SLAB_ALIGNMENT.
  destruct (Z_lt_ge_dec (buf + 8 - 1) SIZE_MOD) as [Hbn|Hbw].
  2:{ (* the rounding of the buffer address wraps *)
      assert (Hw : align_up buf 8 = 0).
      { apply (align_up_wrapped buf 3); change (2 ^ 3) with 8;
          unfold in_size_t; rewrite ?SIZE_MOD_val in *; lia. }
      rewrite Hw. unfold ptr_diff. rewrite wrap_below by lia.
      destruct (Z.geb_spec (0 - buf + SIZE_MOD) size); [|lia]. cbn [fst snd initialized].
      split; [intros _; split; [reflexivity|exact Hinit]|].
      intros Hall. exfalso. apply Hsmall; [|exact Hall]. apply Hq. unfold usable.
      pose proof (round_up_multiple buf 8 ltac:(lia)) as Hrm. fold start in Hrm.
      apply Z.mod_divide in Hrm as [c Hcm]; [|lia]. rewrite SIZE_MOD_val in *. lia. }
  assert (Hx : align_up buf 8 = start).
  { apply (align_up_exact buf 3); change (2 ^ 3) with 8; lia. }
  rewrite Hx.
  assert (Hd : ptr_diff start buf = start - buf).
  { unfold ptr_diff. apply wrap_small. unfold in_size_t. lia. }
  rewrite Hd.
  destruct (Z.geb_spec (start - buf) size) as [Hov|Hov].
  { cbn [fst snd initialized].
    split; [intros _; split; [reflexivity|exact Hinit]|].
    intros Hall. exfalso. apply Hsmall; [|exact Hall]. apply Hq. unfold usable. lia. }
  assert (Hst : ptr_add buf (start - buf) = start).
  { unfold ptr_add. replace (buf + (start - buf)) with start by lia.
    apply wrap_small. unfold in_size_t. lia. }
  assert (Hu : size_sub size (start - buf) = usable).
  { unfold size_sub. apply wrap_small. unfold in_size_t in *. unfold usable. lia. }
  rewrite Hst, Hu.
  assert (Hqc : 0 <= usable / count /\ count * (usable / count) <= usable).
  { pose proof (Z.div_mod usable count ltac:(lia)).
    pose proof (Z.mod_pos_bound usable count ltac:(lia)).
    split; [apply Z.div_pos; unfold usable; lia|lia]. }
  set (q := usable / count) in *.
  assert (Hq8 : 0 <= q / 8 /\ q / 8 * 8 <= q).
  { pose proof (Z.div_mod q 8 ltac:(lia)). pose proof (Z.mod_pos_bound q 8 ltac:(lia)).
    split; [apply Z.div_pos; lia|lia]. }
  assert (Hm : size_mul (q / 8) 8 = rs).
  { rewrite Hrs. unfold size_mul. apply wrap_small. unfold in_size_t, usable in *. nia. }
  rewrite Hm.
  destruct (Z.ltb_spec rs 8) as [Hlt|Hrs8].
  { cbn [fst snd initialized].
    split; [intros _; split; [reflexivity|exact Hinit]|].
    intros Hall. exfalso. exact (Hsmall Hlt Hall). }
  assert (Hcrs : count * rs <= usable) by (rewrite Hrs; nia).
  destruct (init_classes sorted 0 rs start (classes slab0) m0) as [[cls|] m'] eqn:Einit.
  2:{ cbn [fst snd]. split; [intros _; split; [reflexivity|discriminate]|].
      intros Hall. exfalso.
      destruct (init_classes_some rs sorted 0 start (classes slab0) m0) as (c1 & m1 & E1).
      - apply Forall_and. split; [|exact Hall].
        eapply Forall_impl; [exact Hge8|]. intros; simpl in *; lia.
      - congruence. }
  split.
  { intros Hex. exfalso.
    pose proof (init_classes_none rs sorted 0 start (classes slab0) m0 ltac:(lia) Hex) as Hn.
    rewrite Einit in Hn. discriminate. }
  intros _.
  assert (P1 : start + Z.of_nat (length sorted) * rs < SIZE_MOD).
  { rewrite Hsl, Z2Nat.id by lia. unfold usable in *. lia. }
  assert (P3 : (0 + length sorted <= length (classes slab0))%nat).
  { rewrite Hsl, Hcls. unfold SLAB_MAX_CLASSES in *. lia. }
  destruct (init_classes_spec rs sorted 0 start (classes slab0) m0 cls m'
              Hrs8 ltac:(lia) P1 Hin P3 Einit) as (Hlen' & _ & Hhigh & _).
  pose proof (init_classes_counts rs sorted 0 start (classes slab0) m0 cls m' P3 Einit)
    as Hcounts.
  eexists _, m'. split; [reflexivity|].
  cbn [buffer capacity aligned_start class_count initialized classes].
  split; [reflexivity|]. split; [reflexivity|]. split; [reflexivity|].
  split; [reflexivity|]. split; [reflexivity|]. split; [exact Hrs8|].
  split; [unfold usable in *; lia|].
  intros k Hk. rewrite clear_classes_lookup by exact Hk.
  destruct (Hhigh k ltac:(lia)) as (Hinv & Hss & Hrstart & Hrend).
  destruct (Hcounts k ltac:(lia)) as (Hsc & Hfc).
  simpl in Hss, Hrstart, Hrend, Hsc, Hfc, Hinv.
  destruct Hinv as ((_ & _ & _ & Hre & _) & _).
  split; [exact Hss|]. split; [exact Hrstart|]. split; [exact Hsc|].
  split; [congruence|]. split; [exact Hre|exact Hrend].
Qed.

(** X24 (slab.h): [slab_init] cuts what lies behind the 8-aligned start
    of the buffer into [count] equal sub-regions, one per size class in
    ascending order of the requested sizes; class [k] gets the slot size
    of the [k]-th smallest size and as many slots as fit its sub-region,
    all of them free.  The sub-regions lie inside the caller's buffer
    and follow one another.  The call succeeds if every class gets a
    slot; if one does not, it returns [SLAB_ERR_BUFFER_SMALL] and the
    slab stays uninitialized. *)
Theorem slab_init_layout slab0 m0 buf size sizes count :
  region_ok buf size -> in_size_t size -> 0 < size -> Forall in_size_t sizes ->
  0 < count <= SLAB_MAX_CLASSES -> (Z.to_nat count <= length sizes)%nat ->
  length (classes slab0) = Z.to_nat SLAB_MAX_CLASSES ->
  initialized slab0 <> SLAB_MAGIC ->
  Forall (fun x => x <> 0) (firstn (Z.to_nat count) sizes) ->
  List.NoDup (firstn (Z.to_nat count) sizes) ->
  let rs := slab_region_size buf size count in
  let sorted := slab__sort_sizes (firstn (Z.to_nat count) sizes) (Z.to_nat count) in
  (Exists (fun sz => rs < class_slot_size sz) sorted ->
   fst (fst (slab_init slab0 m0 buf size sizes count)) = SLAB_ERR_BUFFER_SMALL /\
   slab_class_count (snd (fst (slab_init slab0 m0 buf size sizes count))) = 0) /\
  (Forall (fun sz => class_slot_size sz <= rs) sorted ->
   exists s m,
     slab_init slab0 m0 buf size sizes count = (SLAB_OK, s, m) /\
     slab_class_count s = count /\
     (forall k : nat, (k < Z.to_nat count)%nat ->
        slab_class_slot_size s (Z.of_nat k) = class_slot_size (sorted !!! k) /\
        stats_total_slots (slab_class_stats s (Z.of_nat k)) =
          rs / class_slot_size (sorted !!! k) /\
        stats_free_slots (slab_class_stats s (Z.of_nat k)) =
          stats_total_slots (slab_class_stats s (Z.of_nat k)) /\
        buf <= region_start (classes s !!! k) /\
        region_end (classes s !!! k) =
          region_start (classes s !!! k) +
          slot_count (classes s !!! k) * slot_size (classes s !!! k) /\
        region_end (classes s !!! k) <= region_start (classes s !!! k) + rs /\
        region_start (classes s !!! k) + rs <= buf + size) /\
     (forall j k : nat, (j < k < Z.to_nat count)%nat ->
        region_start (classes s !!! j) + rs <= region_start (classes s !!! k))).
Proof.
  intros Hreg Hsz Hspos Hsizes Hc Hlen Hcls Hinit Hnz Hnd rs sorted.
  destruct (slab_init_cases slab0 m0 buf size sizes count Hreg Hsz Hspos Hsizes Hc Hlen
              Hcls Hinit Hnz Hnd) as (Hbad & Hgood).
  fold rs in Hbad, Hgood. fold sorted in Hbad, Hgood. split.
  - intros Hex. destruct (Hbad Hex) as (He & Hi). split; [exact He|].
    unfold slab_class_count.
    destruct (Z.eqb_spec (initialized (snd (fst (slab_init slab0 m0 buf size sizes count))))
                         SLAB_MAGIC); [contradiction|reflexivity].
  - intros Hall.
    destruct (Hgood Hall) as (s & m & E & _ & _ & _ & Hcc & Hi & Hrs8 & Hend & Hk).
    pose proof (round_up_bounds buf 8 ltac:(lia)) as Hru.
    exists s, m. split; [exact E|].
    unfold slab_class_count, slab_class_slot_size, slab_class_stats.
    rewrite Hi, Z.eqb_refl, Hcc. cbn [negb]. split; [reflexivity|]. split.
    + intros k Hk'. destruct (Hk k Hk') as (H1 & H2 & H3 & H4 & H5 & H6).
      destruct (Z.geb_spec (Z.of_nat k) count); [lia|]. rewrite Nat2Z.id.
      cbn [stats_total_slots stats_free_slots].
      split; [exact H1|]. split; [exact H3|]. split; [exact H4|].
      assert (0 <= Z.of_nat k * rs) by (apply Z.mul_nonneg_nonneg; lia).
      assert (Z.of_nat k * rs + rs <= count * rs) by nia.
      split; [lia|]. split; [exact H5|]. split; lia.
    + intros j k Hjk.
      destruct (Hk j ltac:(lia)) as (_ & H2 & _). destruct (Hk k ltac:(lia)) as (_ & H2' & _).
      rewrite H2, H2'. nia.
Qed.

Lemma slab_init_layout_witness :
  let rs := slab_region_size 4096 256 2 in
  let sorted := slab__sort_sizes (firstn (Z.to_nat 2) [64; 32]) (Z.to_nat 2) in
  (Exists (fun sz => rs < class_slot_size sz) sorted ->
   fst (fst (slab_init slab_zero ∅ 4096 256 [64; 32] 2)) = SLAB_ERR_BUFFER_SMALL /\
   slab_class_count (snd (fst (slab_init slab_zero ∅ 4096 256 [64; 32] 2))) = 0) /\
  (Forall (fun sz => class_slot_size sz <= rs) sorted ->
   exists s m,
     slab_init slab_zero ∅ 4096 256 [64; 32] 2 = (SLAB_OK, s, m) /\
     slab_class_count s = 2 /\
     (forall k : nat, (k < Z.to_nat 2)%nat ->
        slab_class_slot_size s (Z.of_nat k) = class_slot_size (sorted !!! k) /\
        stats_total_slots (slab_class_stats s (Z.of_nat k)) =
          rs / class_slot_size (sorted !!! k) /\
        stats_free_slots (slab_class_stats s (Z.of_nat k)) =
          stats_total_slots (slab_class_stats s (Z.of_nat k)) /\
        4096 <= region_start (classes s !!! k) /\
        region_end (classes s !!! k) =
          region_start (classes s !!! k) +
          slot_count (classes s !!! k) * slot_size (classes s !!! k) /\
        region_end (classes s !!! k) <= region_start (classes s !!! k) + rs /\
        region_start (classes s !!! k) + rs <= 4096 + 256) /\
     (forall j k : nat, (j < k < Z.to_nat 2)%nat ->
        region_start (classes s !!! j) + rs <= region_start (classes s !!! k))).
Proof.
  apply (slab_init_layout slab_zero ∅ 4096 256 [64; 32] 2).
  - unfold region_ok. rewrite SIZE_MOD_val. lia.
  - range.
  - lia.
  - repeat (apply Forall_cons_2; [range|]). apply Forall_nil_2.
  - unfold SLAB_MAX_CLASSES. lia.
  - simpl. lia.
  - reflexivity.
  - vm_compute. discriminate.
  - repeat (apply Forall_cons_2; [lia|]). apply Forall_nil_2.
  - repeat (apply List.NoDup_cons; [simpl; intuition lia|]). apply List.NoDup_nil.
Defined.

Lemma class_slot_size_exact sz :
  0 <= sz <= SIZE_MAX - (SLAB_ALIGNMENT - 1) ->
  class_slot_size sz = round_up (Z.max sz 8) 8.
Proof.
  intros Hsz. unfold class_slot_size, SLAB_ALIGN_UP, SLAB_MIN_SLOT_SIZE, SLAB_ALIGNMENT,
    WORD, SIZE_MAX in *. rewrite SIZE_MOD_val in Hsz. cbn [Z.gtb Z.compare] in *.
  assert (Hx : align_up sz 8 = round_up sz 8).
  { apply (align_up_exact sz 3); change (2 ^ 3) with 8; rewrite ?SIZE_MOD_val; lia. }
  rewrite Hx. change (if 8 >? 8 then 8 else 8) with 8.
  pose proof (round_up_bounds sz 8 ltac:(lia)) as H1.
  pose proof (round_up_multiple sz 8 ltac:(lia)) as H2.
  apply Z.mod_divide in H2 as [c Hc]; [|lia].
  destruct (Z.max_spec sz 8) as [[Hlt ->]|[Hge ->]].
  - change (round_up 8 8) with 8. destruct (Z.gtb_spec (round_up sz 8) 8); lia.
  - destruct (Z.gtb_spec (round_up sz 8) 8); lia.
Qed.

Lemma class_slot_size_multiple sz :
  0 <= sz <= SIZE_MAX - (SLAB_ALIGNMENT - 1) ->
  8 <= class_slot_size sz /\ class_slot_size sz mod 8 = 0 /\ sz <= class_slot_size sz.
Proof.
  intros Hsz. rewrite class_slot_size_exact by exact Hsz.
  pose proof (round_up_bounds (Z.max sz 8) 8 ltac:(lia)).
  split; [lia|]. split; [apply round_up_multiple; lia|lia].
Qed.

Lemma slab_max_slot_size_spec l :
  Forall (fun sz => 0 <= sz <= SIZE_MAX - (SLAB_ALIGNMENT - 1)) l ->
  0 <= slab_max_slot_size l /\ slab_max_slot_size l mod 8 = 0 /\
  Forall (fun sz => class_slot_size sz <= slab_max_slot_size l) l.
Proof.
  induction l as [|sz l IH]; intros Hl.
  - simpl. repeat split; [lia|constructor].
  - apply Forall_cons in Hl as [Hsz Hl]. destruct (IH Hl) as (H0 & Hm & Hall).
    destruct (class_slot_size_multiple sz Hsz) as (H8 & Hm8 & _).
    cbn [slab_max_slot_size fold_right]. fold (slab_max_slot_size l).
    split; [lia|]. split.
    + destruct (Z.max_spec (class_slot_size sz) (slab_max_slot_size l)) as [[_ ->]|[_ ->]];
        assumption.
    + apply Forall_cons_2; [lia|]. eapply Forall_impl; [exact Hall|].
      intros x Hx. simpl in *. lia.
Qed.

(** The loop of [slab_buffer_size_needed] finds the largest slot size. *)
Lemma max_aligned_size_from_spec sizes : forall (n : nat) acc,
  0 <= acc ->
  (n <= length sizes)%nat -> Forall (fun x => x <> 0) (firstn n sizes) ->
  max_aligned_size_from sizes n acc =
    Some (Z.max (slab_max_slot_size (firstn n sizes)) acc).
Proof.
  induction sizes as [|sz sizes IH]; intros n acc Hacc Hn Hnz.
  - destruct n; [|simpl in Hn; lia]. simpl. f_equal. lia.
  - destruct n as [|n]; [simpl; f_equal; lia|]. simpl in Hn, Hnz.
    apply Forall_cons in Hnz as [Hsz Hnz]. cbn [max_aligned_size_from firstn].
    destruct (Z.eqb_spec sz 0); [contradiction|]. fold (class_slot_size sz).
    rewrite IH by (try assumption; try lia; destruct (Z.gtb_spec (class_slot_size sz) acc); lia).
    cbn [slab_max_slot_size fold_right]. fold (slab_max_slot_size (firstn n sizes)).
    f_equal. destruct (Z.gtb_spec (class_slot_size sz) acc); lia.
Qed.

Lemma round_up_of_multiple x a : 0 < a -> x mod a = 0 -> round_up x a = x.
Proof.
  intros Ha Hm. pose proof (round_up_bounds x a Ha).
  pose proof (round_up_least x a x Ha ltac:(lia) Hm). lia.
Qed.

(** X25 (slab.h): a buffer of [slab_buffer_size_needed(sizes, count, n)]
    bytes is enough wherever it starts: [slab_init] on it succeeds and
    every class gets at least [n] slots (at least one when [n] is 0).
    The size is the largest slot size times the slots times the classes,
    plus 7 bytes for the alignment of the start. *)
Theorem slab_buffer_size_needed_suffices slab0 m0 buf sizes count n :
  0 < count <= SLAB_MAX_CLASSES -> (Z.to_nat count <= length sizes)%nat ->
  Forall in_size_t sizes ->
  Forall (fun sz => 0 < sz <= SIZE_MAX - (SLAB_ALIGNMENT - 1))
         (firstn (Z.to_nat count) sizes) ->
  List.NoDup (firstn (Z.to_nat count) sizes) ->
  0 <= n ->
  let slots := Z.max n 1 in
  let big := slab_max_slot_size (firstn (Z.to_nat count) sizes) in
  big * slots * count + 7 <= SIZE_MAX ->
  region_ok buf (big * slots * count + 7) ->
  length (classes slab0) = Z.to_nat SLAB_MAX_CLASSES ->
  initialized slab0 <> SLAB_MAGIC ->
  slab_buffer_size_needed sizes count n = big * slots * count + 7 /\
  exists s m,
    slab_init slab0 m0 buf (slab_buffer_size_needed sizes count n) sizes count =
      (SLAB_OK, s, m) /\
    forall k : nat, (k < Z.to_nat count)%nat ->
      slots <= stats_total_slots (slab_class_stats s (Z.of_nat k)).
Proof.
  intros Hc Hlen Hsizes Hok Hnd Hn slots big Hfit Hreg Hcls Hinit.
  set (l := firstn (Z.to_nat count) sizes) in *.
  assert (Hll : length l = Z.to_nat count) by (unfold l; rewrite length_firstn; lia).
  assert (Hok' : Forall (fun sz => 0 <= sz <= SIZE_MAX - (SLAB_ALIGNMENT - 1)) l).
  { eapply Forall_impl; [exact Hok|]. intros; simpl in *; lia. }
  assert (Hnz : Forall (fun x => x <> 0) l).
  { eapply Forall_impl; [exact Hok|]. intros; simpl in *; lia. }
  destruct (slab_max_slot_size_spec l Hok') as (Hb0 & Hbm & Hball). fold big in Hb0, Hbm, Hball.
  assert (Hb8 : 8 <= big).
  { destruct l as [|sz0 rest]; [simpl in Hll; lia|].
    apply Forall_cons in Hball as [H1 _]. apply Forall_cons in Hok' as [H2 _].
    destruct (class_slot_size_multiple sz0 H2) as (H8 & _). lia. }
  assert (Hs1 : 1 <= slots) by (unfold slots; lia).
  assert (Hbs : big <= big * slots) by nia.
  assert (Hbsm : (big * slots) mod 8 = 0).
  { apply Z.mod_divide in Hbm as [d Hd]; [|lia]. rewrite Hd.
    replace (d * 8 * slots) with (d * slots * 8) by lia. apply Z_mod_mult. }
  assert (Hbsc : big * slots <= big * slots * count) by nia.
  unfold SIZE_MAX in Hfit.
  assert (Hneed : slab_buffer_size_needed sizes count n = big * slots * count + 7).
  { unfold slab_buffer_size_needed.
    destruct (Z.eqb_spec count 0); [lia|].
    destruct (Z.gtb_spec count SLAB_MAX_CLASSES); [lia|]. cbn [orb].
    rewrite (max_aligned_size_from_spec sizes (Z.to_nat count) 0 ltac:(lia) Hlen Hnz).
    fold l. fold big. rewrite Z.max_l by lia. cbv zeta.
    replace (if n =? 0 then 1 else n) with slots
      by (unfold slots; destruct (Z.eqb_spec n 0); lia).
    unfold size_mul, size_add, SLAB_ALIGN_UP, SLAB_ALIGNMENT.
    rewrite (wrap_small (big * slots)) by (unfold in_size_t; lia).
    assert (Hx : align_up (big * slots) 8 = big * slots).
    { rewrite <- (round_up_of_multiple (big * slots) 8 ltac:(lia) Hbsm) at 2.
      apply (align_up_exact (big * slots) 3); change (2 ^ 3) with 8; lia. }
    rewrite Hx.
    destruct (Z.gtb_spec (big * slots) (SIZE_MAX / count)) as [Hgt|_].
    { exfalso. assert (big * slots <= SIZE_MAX / count); [|lia].
      apply Z.div_le_lower_bound; unfold SIZE_MAX; lia. }
    rewrite (wrap_small (big * slots * count)) by (unfold in_size_t; lia).
    apply wrap_small. unfold in_size_t. lia. }
  split; [exact Hneed|]. rewrite Hneed.
  set (T := big * slots * count + 7) in *.
  destruct (slab_init_cases slab0 m0 buf T sizes count Hreg
              ltac:(unfold in_size_t, T; lia) ltac:(unfold T; lia) Hsizes Hc Hlen
              Hcls Hinit Hnz Hnd) as (_ & Hgood).
  set (rs := slab_region_size buf T count) in *.
  set (sorted := slab__sort_sizes l (Z.to_nat count)) in *.
  assert (Hperm : Permutation sorted l).
  { unfold sorted. rewrite <- Hll. apply slab__sort_sizes_sorted. }
  assert (Hrs : big * slots <= rs).
  { unfold rs, slab_region_size, SLAB_ALIGNMENT.
    pose proof (round_up_bounds buf 8 ltac:(lia)) as Hru.
    set (usable := T - (round_up buf 8 - buf)).
    assert (Hu : big * slots * count <= usable) by (unfold usable, T; lia).
    assert (Hq : big * slots <= usable / count).
    { apply Z.div_le_lower_bound; lia. }
    apply Z.mod_divide in Hbsm as [d Hd]; [|lia]. rewrite Hd in *.
    assert (d <= usable / count / 8) by (apply Z.div_le_lower_bound; lia). lia. }
  assert (Hall : Forall (fun sz => 0 < class_slot_size sz /\
                                   class_slot_size sz * slots <= rs) sorted).
  { apply (Permutation_Forall (Permutation_sym Hperm)).
    apply Forall_forall. intros sz Hin.
    pose proof (proj1 (Forall_forall _ _) Hball sz Hin) as H1. simpl in H1.
    pose proof (proj1 (Forall_forall _ _) Hok' sz Hin) as H2. simpl in H2.
    destruct (class_slot_size_multiple sz H2) as (H8 & _). split; [lia|]. nia. }
  destruct Hgood as (s & m & E & _ & _ & _ & Hcc & Hi & _ & _ & Hk).
  { eapply Forall_impl; [exact Hall|]. intros sz (Hp & Hle). simpl. nia. }
  exists s, m. split; [exact E|]. intros k Hk'.
  destruct (Hk k Hk') as (_ & _ & Hsc & _).
  unfold slab_class_stats. rewrite Hi, Z.eqb_refl, Hcc. cbn [negb].
  destruct (Z.geb_spec (Z.of_nat k) count); [lia|]. rewrite Nat2Z.id.
  cbn [stats_total_slots]. rewrite Hsc.
  assert (Hsk : (k < length sorted)%nat).
  { rewrite (Permutation_length Hperm), Hll. exact Hk'. }
  pose proof (Forall_lookup_total_1 _ sorted k Hall Hsk) as (Hp & Hle).
  cbv beta in Hp, Hle. apply Z.div_le_lower_bound; [exact Hp|exact Hle].
Qed.

Lemma slab_buffer_size_needed_suffices_witness :
  slab_buffer_size_needed [24; 100] 2 3 =
    slab_max_slot_size (firstn (Z.to_nat 2) [24; 100]) * Z.max 3 1 * 2 + 7 /\
  exists s m,
    slab_init slab_zero ∅ 4099 (slab_buffer_size_needed [24; 100] 2 3) [24; 100] 2 =
      (SLAB_OK, s, m) /\
    forall k : nat, (k < Z.to_nat 2)%nat ->
      Z.max 3 1 <= stats_total_slots (slab_class_stats s (Z.of_nat k)).
Proof.
  apply (slab_buffer_size_needed_suffices slab_zero ∅ 4099 [24; 100] 2 3).
  - unfold SLAB_MAX_CLASSES. lia.
  - simpl. lia.
  - repeat (apply Forall_cons_2; [range|]). apply Forall_nil_2.
  - repeat (apply Forall_cons_2;
            [unfold SIZE_MAX, SLAB_ALIGNMENT; rewrite SIZE_MOD_val; lia|]).
    apply Forall_nil_2.
  - repeat (apply List.NoDup_cons; [simpl; intuition lia|]). apply List.NoDup_nil.
  - lia.
  - vm_compute. discriminate.
  - vm_compute. repeat split; discriminate.
  - reflexivity.
  - vm_compute. discriminate.
Defined.

End SlabInitMore.

(** ** slab.h: reset, zeroed slots and reuse *)

Section SlabMore.

Import Slab.

Ltac range := unfold in_size_t; rewrite ?SIZE_MOD_val; lia.

Lemma slab__build_free_list_layout c m :
  same_layout c (fst (slab__build_free_list c m)).
Proof.
  unfold slab__build_free_list. cbn [slot_count].
  destruct (slot_count c =? 0); [repeat split|].
  destruct (build_free_list_loop _ _ _ _) as [prev m']. repeat split.
Qed.

(** The loop of [slab_reset]: every class it passes gets all its slots
    back, and nothing below the classes it passes is written. *)
Lemma reset_classes_spec (n : nat) : forall (i : nat) cls m cls' m',
  (forall k : nat, (i <= k < i + n)%nat -> class_layout_ok (cls !!! k)) ->
  (forall j k : nat, (i <= j < k)%nat -> (k < i + n)%nat ->
     region_end (cls !!! j) <= region_start (cls !!! k)) ->
  (i + n <= length cls)%nat ->
  reset_classes cls m i n = (cls', m') ->
  length cls' = length cls /\
  (forall k : nat, (k < i)%nat \/ (i + n <= k)%nat -> cls' !!! k = cls !!! k) /\
  (forall k : nat, (i <= k < i + n)%nat ->
     class_inv (cls' !!! k) m' [] /\ same_layout (cls !!! k) (cls' !!! k) /\
     free_count (cls' !!! k) = slot_count (cls !!! k)) /\
  (forall lo hi,
     (forall k : nat, (i <= k < i + n)%nat ->
        hi <= region_start (cls !!! k) \/ region_end (cls !!! k) <= lo) ->
     mem_agree m m' lo hi).
Proof.
  induction n as [|n IH]; intros i cls m cls' m' Hlay Hord Hlen H.
  - simpl in H. injection H as <- <-.
    split; [reflexivity|]. split; [reflexivity|]. split; [intros; lia|].
    intros. apply mem_agree_refl.
  - cbn [reset_classes] in H.
    pose proof (Hlay i ltac:(lia)) as Hli.
    destruct (slab__build_free_list_inv (cls !!! i) m Hli) as (Hinv & Hs1 & Hr1 & Hr2 & Hag1).
    pose proof (slab__build_free_list_layout (cls !!! i) m) as Hsame.
    pose proof (slab__build_free_list_counts (cls !!! i) m) as (_ & Hfc).
    destruct (slab__build_free_list (cls !!! i) m) as [c m1]. cbn [fst snd] in *.
    assert (Hother : forall k : nat, k <> i -> <[i:=c]> cls !!! k = cls !!! k).
    { intros k Hk. apply list_lookup_total_insert_ne. lia. }
    destruct (IH (S i) (<[i:=c]> cls) m1 cls' m') as (Hl' & Hout & Hin & Hag2).
    + intros k Hk. rewrite Hother by lia. apply Hlay. lia.
    + intros j k Hj Hk. rewrite !Hother by lia. apply Hord; lia.
    + rewrite length_insert. lia.
    + exact H.
    + rewrite length_insert in Hl'.
      assert (Hci : cls' !!! i = c).
      { rewrite Hout by lia. apply list_lookup_total_insert_eq. lia. }
      split; [exact Hl'|]. split; [|split].
      * intros k Hk. rewrite Hout by lia. apply Hother. lia.
      * intros k Hk. destruct (Nat.eq_dec k i) as [->|Hne].
        -- rewrite Hci. split; [|split; [exact Hsame|exact Hfc]].
           apply (class_inv_agree c m1); [exact Hinv|].
           apply Hag2. intros j Hj. rewrite Hother by lia. left.
           rewrite Hr2. apply Hord; lia.
        -- destruct (Hin k ltac:(lia)) as (H1 & H2 & H3).
           rewrite Hother in H2, H3 by lia. split; [exact H1|]. split; assumption.
      * intros lo hi Hfar. apply (mem_agree_trans _ m1).
        -- apply Hag1. destruct (Hfar i ltac:(lia)); [left|right]; assumption.
        -- apply Hag2. intros k Hk. rewrite Hother by lia. apply Hfar. lia.
Qed.

(** X26 (slab.h): [slab_reset] gives every class all its slots back,
    whatever was handed out or freed before: the slab is as after
    [slab_init], with no pointer live, the classes and their regions
    unchanged, and nothing outside the class regions written. *)
Theorem slab_reset_frees_all s m live s' m' :
  slab_inv s m live ->
  slab_reset s m = (s', m') ->
  slab_inv s' m' [] /\ same_classes s s' /\
  (forall k : nat, (k < Z.to_nat (class_count s))%nat ->
     stats_free_slots (slab_class_stats s' (Z.of_nat k)) =
     stats_total_slots (slab_class_stats s (Z.of_nat k))) /\
  (forall x,
     (forall k : nat, (k < Z.to_nat (class_count s))%nat ->
        in_region (classes s !!! k) x = false) ->
     load8 m' x = load8 m x).
Proof.
  intros (Hi & Hc & Hlen & Hcls & Hord & Hlive) H. unfold slab_reset in H.
  rewrite Hi, Z.eqb_refl in H. cbn [negb] in H.
  destruct (reset_classes (classes s) m 0 (Z.to_nat (class_count s))) as [cls m1] eqn:E.
  injection H as <- <-.
  destruct (reset_classes_spec (Z.to_nat (class_count s)) 0 (classes s) m cls m1)
    as (Hl' & Hout & Hin & Hag); try exact E; try lia.
  { intros k Hk. apply (Hcls k). lia. }
  { intros j k Hj Hk. apply Hord. lia. }
  split; [|split; [|split]].
  - unfold slab_inv. cbn [initialized class_count classes].
    split; [reflexivity|]. split; [exact Hc|]. split; [lia|]. split; [|split].
    + intros k Hk. apply Hin. lia.
    + intros j k Hjk.
      destruct (Hin j ltac:(lia)) as (_ & (_ & _ & -> & _) & _).
      destruct (Hin k ltac:(lia)) as (_ & (_ & -> & _ & _) & _).
      apply Hord. exact Hjk.
    + intros p [].
  - split; [symmetry; exact Hi|]. split; [reflexivity|]. split; [exact Hl'|].
    cbn [classes]. intros j.
    destruct (Nat.lt_ge_cases j (Z.to_nat (class_count s))) as [Hj|Hj].
    + apply Hin. lia.
    + rewrite Hout by lia. apply same_layout_refl.
  - intros k Hk. unfold slab_class_stats. cbn [initialized class_count classes].
    rewrite ?Hi, !Z.eqb_refl. cbn [negb].
    destruct (Z.geb_spec (Z.of_nat k) (class_count s)); [lia|]. rewrite Nat2Z.id.
    cbn [stats_free_slots stats_total_slots].
    apply (Hin k). lia.
  - intros x Hx. symmetry. apply (Hag x (x + 1)); [|lia].
    intros k Hk. specialize (Hx k ltac:(lia)). unfold in_region in Hx.
    apply andb_false_iff in Hx as [Hx|Hx].
    + left. destruct (Z.geb_spec x (region_start (classes s !!! k))); [discriminate|lia].
    + right. apply Z.ltb_ge in Hx. exact Hx.
Qed.

Lemma slab_reset_frees_all_witness :
  exists s live s' m',
    slab_inv s (snd demo_slab) live /\ live <> [] /\
    slab_reset s (snd demo_slab) = (s', m') /\
    slab_inv s' m' [] /\ same_classes s s'.
Proof.
  pose (m := snd demo_slab).
  pose (r1 := slab_alloc (fst demo_slab) m 20).
  pose (r := slab_reset (snd r1) m).
  destruct (slab_reach_inv _ _ _ demo_slab_reach) as (Hinv0 & _).
  assert (E1 : slab_alloc (fst demo_slab) m 20 = (4096, snd r1)) by (vm_compute; reflexivity).
  destruct (slab_alloc_inv (fst demo_slab) m [] 20 4096 (snd r1) Hinv0 E1 ltac:(discriminate))
    as (k & _ & _ & Hinv1 & _).
  assert (E : slab_reset (snd r1) m = (fst r, snd r)) by (vm_compute; reflexivity).
  destruct (slab_reset_frees_all (snd r1) m [4096] (fst r) (snd r) Hinv1 E)
    as (Hinv & Hsame & _).
  exists (snd r1), [4096], (fst r), (snd r).
  split; [exact Hinv1|]. split; [discriminate|]. split; [exact E|].
  split; [exact Hinv|exact Hsame].
Defined.

(** The invariant does not depend on what the client's slots hold. *)
Lemma slab_inv_agree_live_slot s m m' live p :
  slab_inv s m live -> In p live ->
  (forall x, x < p \/ p + slab_usable_size s p <= x -> load8 m' x = load8 m x) ->
  slab_inv s m' live.
Proof.
  intros Hinv Hpl Hag.
  destruct (slab_live_slot s m live p Hinv Hpl) as (k & Hk & Hps).
  rewrite (slab_usable_size_slot s m live k p Hinv Hk Hps) in Hag.
  destruct (slab_slot_region s m live k p Hinv Hk Hps) as (_ & _ & Hin & Hout).
  pose proof Hinv as (Hi & Hc & Hlen & Hcls & Hord & Hlv).
  split; [exact Hi|]. split; [exact Hc|]. split; [exact Hlen|].
  split; [|split; assumption].
  intros j Hj. destruct (Nat.eq_dec j k) as [->|Hjk].
  - destruct (Hcls k Hk) as (Hl & fl & Hchain & Hperm & Hfc).
    split; [exact Hl|]. exists fl. split; [|split; assumption].
    apply (chain_agree _ m); [exact Hchain|].
    intros q Hq x Hx. symmetry. apply Hag.
    assert (Hqs : In q (class_slots (classes s !!! k))).
    { apply (Permutation_in _ Hperm). apply in_or_app. left. exact Hq. }
    assert (Hne : p <> q).
    { intros ->.
      assert (Hnd : List.NoDup (fl ++ List.filter (in_region (classes s !!! k)) live)).
      { apply (Permutation_NoDup (Permutation_sym Hperm)).
        apply NoDup_slot_addrs. destruct Hl as (_ & Hs & _). lia. }
      apply (NoDup_app_disjoint _ _ q Hnd); [exact Hq|].
      apply List.filter_In. split; assumption. }
    destruct Hl as (_ & Hs & _).
    pose proof (fun H => slots_apart _ _ _ _ p q H Hps Hqs Hne) as Hap.
    specialize (Hap ltac:(lia)). lia.
  - destruct (Hout j Hj Hjk) as (_ & Hfar).
    apply (class_inv_agree _ m); [apply Hcls; exact Hj|].
    intros x Hx. symmetry. apply Hag. lia.
Qed.

(** X27 (slab.h): [slab_calloc] hands out what [slab_alloc] hands out
    and clears the whole slot, not only the [size] bytes asked for:
    every byte of the slot reads [0], no byte outside the slot is
    written, and the free lists stay intact.  When no slot is available
    it returns null and leaves slab and store alone. *)
Theorem slab_calloc_clears_slot s m live size p s' m' :
  slab_inv s m live ->
  slab_calloc s m size = (p, s', m') ->
  slab_alloc s m size = (p, s') /\
  (p = NULL -> s' = s /\ m' = m) /\
  (p <> NULL ->
     size <= slab_usable_size s' p /\
     (forall x, p <= x < p + slab_usable_size s' p -> load8 m' x = 0) /\
     (forall x, x < p \/ p + slab_usable_size s' p <= x -> load8 m' x = load8 m x) /\
     slab_inv s' m' (p :: live)).
Proof.
  intros Hinv H. unfold slab_calloc in H.
  destruct (slab_alloc s m size) as [q s1] eqn:E.
  destruct (Z.eqb_spec q NULL) as [Hq|Hq]; cbn [negb] in H; injection H as <- <- <-.
  - subst q. split; [reflexivity|]. split; [|contradiction].
    intros _. split; [|reflexivity]. apply (slab_alloc_null s m size). exact E.
  - split; [reflexivity|]. split; [contradiction|]. intros _.
    destruct (slab_alloc_inv s m live size q s1 Hinv E Hq)
      as (k & (Hk & Hge & _) & Hin & Hinv1 & (_ & Hcc & _ & Hlay)).
    assert (Hk1 : (k < Z.to_nat (class_count s1))%nat) by (rewrite Hcc; exact Hk).
    assert (Hin1 : In q (class_slots (classes s1 !!! k))).
    { rewrite (same_layout_slots _ _ (Hlay k)). exact Hin. }
    pose proof (slab_usable_size_slot s1 m (q :: live) k q Hinv1 Hk1 Hin1) as Hus.
    assert (Hss : slot_size (classes s1 !!! k) = slot_size (classes s !!! k))
      by apply (Hlay k).
    assert (Hpos : 0 <= slab_usable_size s1 q).
    { rewrite Hus, Hss. destruct Hinv as (_ & _ & _ & Hcls & _).
      destruct (Hcls k Hk) as ((_ & H8 & _) & _). lia. }
    assert (Hframe : forall x, x < q \/ q + slab_usable_size s1 q <= x ->
                       load8 (memset m q 0 (slab_usable_size s1 q)) x = load8 m x).
    { intros x Hx. apply load8_memset_other; lia. }
    split; [rewrite Hus, Hss; exact Hge|]. split; [|split; [exact Hframe|]].
    + intros x Hx. rewrite load8_memset_in by exact Hx. reflexivity.
    + apply (slab_inv_agree_live_slot s1 m _ (q :: live) q Hinv1);
        [left; reflexivity|exact Hframe].
Qed.

Lemma slab_calloc_clears_slot_witness :
  exists s' m',
    slab_calloc (fst demo_slab) (snd demo_slab) 33 = (4224, s', m') /\
    33 <= slab_usable_size s' 4224 /\
    (forall x, 4224 <= x < 4224 + slab_usable_size s' 4224 -> load8 m' x = 0) /\
    slab_inv s' m' [4224].
Proof.
  pose (m := snd demo_slab).
  pose (r := slab_calloc (fst demo_slab) m 33).
  assert (E : slab_calloc (fst demo_slab) m 33 = (4224, snd (fst r), snd r))
    by (vm_compute; reflexivity).
  destruct (slab_reach_inv _ _ _ demo_slab_reach) as (Hinv & _).
  destruct (slab_calloc_clears_slot (fst demo_slab) m [] 33 4224 (snd (fst r)) (snd r) Hinv E)
    as (_ & _ & H).
  destruct (H ltac:(discriminate)) as (H1 & H2 & _ & H4).
  exists (snd (fst r)), (snd r).
  split; [exact E|]. split; [exact H1|]. split; [exact H2|exact H4].
Defined.

(** X28 (slab.h): the slot freed last is the next one its class hands
    out: after [slab_free] of a held pointer, [slab_alloc] for any size
    served by the pointer's class returns that pointer again. *)
Theorem slab_free_then_alloc_returns_same s m live live' p (k : nat) size s1 m1 :
  slab_inv s m live -> Permutation live (p :: live') ->
  In p (class_slots (classes s !!! k)) -> slab_class_for s size k -> 0 < size ->
  slab_free s m p = Done (s1, m1) ->
  fst (slab_alloc s1 m1 size) = p.
Proof.
  intros Hinv Hperm Hps Hfor Hsz H.
  pose proof Hfor as (Hk & Hge & Hlow).
  destruct (slab_slot_region s m live k p Hinv Hk Hps) as (Hnn & _).
  pose proof (slab__find_class_for_ptr_slot s m live k p Hinv Hk Hps) as Hfind.
  pose proof Hinv as (Hi & Hc & Hlen & Hcls & _).
  destruct (Hcls k Hk) as (Hl & _).
  unfold slab_free in H. destruct (Z.eqb_spec p NULL); [contradiction|].
  rewrite Hi, Z.eqb_refl, Hfind in H.
  rewrite (class_index_not_NO_CLASS s k) in H by (try assumption; lia).
  rewrite Nat2Z.id in H.
  rewrite (slab__validate_ptr_in_class_slot _ p Hl Hps) in H. cbn [c_assert negb] in H.
  injection H as <- <-.
  set (c' := mk_class _ p _ _ _ _).
  assert (Hsame : same_layout (classes s !!! k) c') by (repeat split).
  pose proof (insert_same_layout (classes s) k c' Hsame) as Hlay.
  unfold slab_alloc. cbn [initialized classes class_count].
  rewrite Z.eqb_refl. destruct (Z.eqb_spec size 0); [lia|]. cbn [negb orb].
  assert (Hfor' : slab_class_for
                    (mk_slab (buffer s) (aligned_start s) (capacity s) (usable_capacity s)
                             (<[k:=c']> (classes s)) (class_count s) SLAB_MAGIC) size k).
  { split; [exact Hk|]. cbn [classes]. split.
    - destruct (Hlay k) as (-> & _). exact Hge.
    - intros j Hj. destruct (Hlay j) as (-> & _). apply Hlow. exact Hj. }
  rewrite (slab__find_class_for_size_first _ size k Hfor').
  rewrite (class_index_not_NO_CLASS s k) by (try assumption; lia).
  rewrite Nat2Z.id. cbn [classes].
  rewrite list_lookup_total_insert_eq by lia. unfold c'. cbn [free_list].
  destruct (Z.eqb_spec p NULL); [contradiction|]. reflexivity.
Qed.

Lemma slab_free_then_alloc_returns_same_witness :
  exists s s1 m1,
    slab_inv s (snd demo_slab) [4128; 4096] /\
    slab_free s (snd demo_slab) 4096 = Done (s1, m1) /\
    fst (slab_alloc s1 m1 17) = 4096.
Proof.
  pose (m := snd demo_slab).
  pose (r1 := slab_alloc (fst demo_slab) m 20).
  pose (r2 := slab_alloc (snd r1) m 32).
  pose (r := match slab_free (snd r2) m 4096 with Done x => x | Abort => (snd r2, m) end).
  destruct (slab_reach_inv _ _ _ demo_slab_reach) as (Hinv0 & _).
  assert (E1 : slab_alloc (fst demo_slab) m 20 = (4096, snd r1)) by (vm_compute; reflexivity).
  destruct (slab_alloc_inv (fst demo_slab) m [] 20 4096 (snd r1) Hinv0 E1 ltac:(discriminate))
    as (k1 & _ & _ & Hinv1 & _).
  assert (E2 : slab_alloc (snd r1) m 32 = (4128, snd r2)) by (vm_compute; reflexivity).
  destruct (slab_alloc_inv (snd r1) m [4096] 32 4128 (snd r2) Hinv1 E2 ltac:(discriminate))
    as (k2 & _ & _ & Hinv2 & _).
  assert (F : slab_free (snd r2) m 4096 = Done (fst r, snd r)) by (vm_compute; reflexivity).
  exists (snd r2), (fst r), (snd r).
  split; [exact Hinv2|]. split; [exact F|].
  apply (slab_free_then_alloc_returns_same (snd r2) m [4128; 4096] [4128] 4096 0 17
           (fst r) (snd r) Hinv2).
  - apply perm_swap.
  - vm_compute. left. reflexivity.
  - split; [vm_compute; lia|]. split; [vm_compute; discriminate|]. intros j Hj. lia.
  - lia.
  - exact F.
Defined.

End SlabMore.

(** ** slab.h: the totals of slab_stats *)

Section SlabStats.

Import Slab.

Ltac range := unfold in_size_t; rewrite ?SIZE_MOD_val; lia.

Lemma index_sum_ext g h : forall (n i : nat),
  (forall k : nat, (i <= k < i + n)%nat -> g k = h k) ->
  index_sum g i n = index_sum h i n.
Proof.
  induction n as [|n IH]; intros i H; [reflexivity|]. simpl.
  rewrite (H i) by lia. rewrite (IH (S i)); [reflexivity|]. intros k Hk. apply H. lia.
Qed.

Lemma index_sum_add g h : forall (n i : nat),
  index_sum (fun k => g k + h k) i n = index_sum g i n + index_sum h i n.
Proof. induction n as [|n IH]; intros i; simpl; [reflexivity|]. rewrite IH. lia. Qed.

Lemma index_sum_zero g : forall (n i : nat),
  (forall k : nat, (i <= k < i + n)%nat -> g k = 0) -> index_sum g i n = 0.
Proof.
  induction n as [|n IH]; intros i H; [reflexivity|]. simpl.
  rewrite (H i) by lia. rewrite IH; [reflexivity|]. intros k Hk. apply H. lia.
Qed.

(** A sum with one term [1] and the others [0]. *)
Lemma index_sum_one g : forall (n i k0 : nat),
  (i <= k0 < i + n)%nat -> g k0 = 1 ->
  (forall k : nat, (i <= k < i + n)%nat -> k <> k0 -> g k = 0) ->
  index_sum g i n = 1.
Proof.
  induction n as [|n IH]; intros i k0 Hk0 H1 H0; [lia|]. simpl.
  destruct (Nat.eq_dec i k0) as [->|Hne].
  - rewrite H1, index_sum_zero; [reflexivity|]. intros k Hk. apply H0; lia.
  - rewrite (H0 i) by lia. rewrite (IH (S i) k0); [reflexivity|lia|exact H1|].
    intros k Hk Hkk. apply H0; lia.
Qed.

(** The loop of [slab_stats] adds up the slot counts and the free
    counts, modulo the width of [size_t]. *)
Lemma sum_slots_from_spec cls : forall (n i : nat) t f,
  in_size_t t -> in_size_t f ->
  sum_slots_from cls i n t f =
    (wrap (t + index_sum (fun k => slot_count (cls !!! k)) i n),
     wrap (f + index_sum (fun k => free_count (cls !!! k)) i n)).
Proof.
  induction n as [|n IH]; intros i t f Ht Hf.
  - simpl. rewrite !Z.add_0_r, !wrap_small by assumption. reflexivity.
  - cbn [sum_slots_from index_sum]. rewrite IH by apply wrap_in_size_t.
    unfold size_add. rewrite !wrap_wrap_add, !Z.add_assoc. reflexivity.
Qed.

(** The slots of the classes from [i] on take no more room than the
    address space above the first of their regions. *)
Lemma slot_count_sum_bound (cls : list slab_class_t) : forall (n i : nat),
  (forall k : nat, (i <= k < i + S n)%nat -> class_layout_ok (cls !!! k)) ->
  (forall j k : nat, (i <= j < k)%nat -> (k < i + S n)%nat ->
     region_end (cls !!! j) <= region_start (cls !!! k)) ->
  0 <= index_sum (fun k => slot_count (cls !!! k)) i (S n) /\
  region_start (cls !!! i) + 8 * index_sum (fun k => slot_count (cls !!! k)) i (S n)
    < SIZE_MOD.
Proof.
  induction n as [|n IH]; intros i Hlay Hord.
  - simpl. destruct (Hlay i ltac:(lia)) as (Hb & Hs & Hn & He & Hfit). nia.
  - change (index_sum (fun k => slot_count (cls !!! k)) i (S (S n)))
      with (slot_count (cls !!! i) + index_sum (fun k => slot_count (cls !!! k)) (S i) (S n)).
    destruct (IH (S i)) as (H0 & Hlt).
    + intros k Hk. apply Hlay. lia.
    + intros j k Hj Hk. apply Hord; lia.
    + destruct (Hlay i ltac:(lia)) as (Hb & Hs & Hn & He & Hfit).
      pose proof (Hord i (S i) ltac:(lia) ltac:(lia)). nia.
Qed.

(** In a class, the slots that are not free are the live pointers of its
    region. *)
Lemma class_used_count c m live :
  class_inv c m live ->
  0 <= free_count c <= slot_count c /\
  slot_count c - free_count c = Z.of_nat (length (List.filter (in_region c) live)).
Proof.
  intros ((Hb & Hs & Hn & He & Hfit) & fl & _ & Hperm & Hfc).
  apply Permutation_length in Hperm. unfold class_slots in Hperm.
  rewrite length_app, length_slot_addrs in Hperm. lia.
Qed.

(** Every live pointer is counted by exactly one class. *)
Lemma live_count_sum s m live :
  slab_inv s m live ->
  forall l, (forall p, In p l -> In p live) ->
  index_sum (fun k => Z.of_nat (length (List.filter (in_region (classes s !!! k)) l)))
            0 (Z.to_nat (class_count s)) = Z.of_nat (length l).
Proof.
  intros Hinv. induction l as [|p l IH]; intros Hsub.
  - apply index_sum_zero. intros; reflexivity.
  - assert (Hpl : In p live) by (apply Hsub; left; reflexivity).
    destruct (slab_live_slot s m live p Hinv Hpl) as (k0 & Hk0 & Hps).
    destruct (slab_slot_region s m live k0 p Hinv Hk0 Hps) as (_ & _ & Hin & Hout).
    rewrite (index_sum_ext _
               (fun k => (if in_region (classes s !!! k) p then 1 else 0) +
                         Z.of_nat (length (List.filter (in_region (classes s !!! k)) l)))).
    + rewrite index_sum_add, IH by (intros q Hq; apply Hsub; right; exact Hq).
      rewrite (index_sum_one _ _ 0 k0); [simpl length; lia|lia|rewrite Hin; reflexivity|].
      intros k Hk Hne. rewrite (proj1 (Hout k ltac:(lia) Hne)). reflexivity.
    + intros k _. cbn [List.filter]. destruct (in_region (classes s !!! k) p); simpl length; lia.
Qed.

(** X29 (slab.h): the totals of [slab_stats] agree with the pointers the
    client holds: [used_slots] is their number, [free_slots] what is
    left of [total_slots], the sum of the classes' slot counts.  In this
    build [peak_used] is the present [used_slots], not a high-water
    mark. *)
Theorem slab_stats_count_live s m live :
  slab_inv s m live ->
  slab_stats_used_slots (slab_stats s) = Z.of_nat (length live) /\
  slab_stats_total_slots (slab_stats s) =
    index_sum (fun k => slot_count (classes s !!! k)) 0 (Z.to_nat (class_count s)) /\
  slab_stats_free_slots (slab_stats s) =
    slab_stats_total_slots (slab_stats s) - Z.of_nat (length live) /\
  slab_stats_peak_used (slab_stats s) = Z.of_nat (length live) /\
  slab_stats_class_count (slab_stats s) = class_count s.
Proof.
  intros Hinv. pose proof Hinv as (Hi & Hc & Hlen & Hcls & Hord & Hlive).
  set (n := Z.to_nat (class_count s)).
  set (total := index_sum (fun k => slot_count (classes s !!! k)) 0 n).
  set (free := index_sum (fun k => free_count (classes s !!! k)) 0 n).
  assert (Hn : n = S (n - 1)) by (unfold n; lia).
  destruct (slot_count_sum_bound (classes s) (n - 1) 0) as (Ht0 & Htb).
  { intros k Hk. apply (Hcls k). unfold n in *. lia. }
  { intros j k Hj Hk. apply Hord. unfold n in *. lia. }
  rewrite <- Hn in Ht0, Htb. fold total in Ht0, Htb.
  assert (Hb : 0 < region_start (classes s !!! 0%nat)).
  { destruct (Hcls 0%nat ltac:(lia)) as ((Hb & _) & _). exact Hb. }
  assert (Hused : total - free = Z.of_nat (length live)).
  { rewrite <- (live_count_sum s m live Hinv live) by auto. fold n.
    unfold total, free.
    rewrite <- (index_sum_ext
                  (fun k => free_count (classes s !!! k) +
                            Z.of_nat (length (List.filter (in_region (classes s !!! k)) live)))
                  (fun k => slot_count (classes s !!! k))).
    - rewrite index_sum_add. lia.
    - intros k Hk. destruct (class_used_count _ m live (Hcls k ltac:(unfold n in *; lia))).
      lia. }
  assert (Hf0 : 0 <= free).
  { unfold free. clear -Hcls. 
    assert (H : forall (c i : nat), (i + c <= Z.to_nat (class_count s))%nat ->
              0 <= index_sum (fun k => free_count (classes s !!! k)) i c).
    { induction c as [|c IH]; intros i Hic; simpl; [lia|].
      destruct (class_used_count _ m live (Hcls i ltac:(lia))) as (H1 & _).
      specialize (IH (S i) ltac:(lia)). lia. }
    apply H. unfold n. lia. }
  unfold slab_stats. rewrite Hi, Z.eqb_refl. cbn [negb]. fold n.
  rewrite (sum_slots_from_spec (classes s) n 0 0 0) by range.
  rewrite !Z.add_0_l. fold total. fold free.
  assert (Hte : wrap total = total) by (apply wrap_small; unfold in_size_t; lia).
  assert (Hfe : wrap free = free) by (apply wrap_small; unfold in_size_t; lia).
  rewrite Hte, Hfe.
  cbn [slab_stats_used_slots slab_stats_total_slots slab_stats_free_slots
       slab_stats_peak_used slab_stats_class_count].
  unfold size_sub. rewrite Hused.
  rewrite wrap_small by (unfold in_size_t; lia).
  split; [reflexivity|]. split; [reflexivity|]. split; [lia|]. split; reflexivity.
Qed.

Lemma slab_stats_count_live_witness :
  exists s,
    slab_inv s (snd demo_slab) [4128; 4096] /\
    slab_stats_used_slots (slab_stats s) = Z.of_nat (length [4128; 4096]) /\
    slab_stats_free_slots (slab_stats s) =
      slab_stats_total_slots (slab_stats s) - Z.of_nat (length [4128; 4096]).
Proof.
  pose (m := snd demo_slab).
  pose (r1 := slab_alloc (fst demo_slab) m 20).
  pose (r2 := slab_alloc (snd r1) m 32).
  destruct (slab_reach_inv _ _ _ demo_slab_reach) as (Hinv0 & _).
  assert (E1 : slab_alloc (fst demo_slab) m 20 = (4096, snd r1)) by (vm_compute; reflexivity).
  destruct (slab_alloc_inv (fst demo_slab) m [] 20 4096 (snd r1) Hinv0 E1 ltac:(discriminate))
    as (k1 & _ & _ & Hinv1 & _).
  assert (E2 : slab_alloc (snd r1) m 32 = (4128, snd r2)) by (vm_compute; reflexivity).
  destruct (slab_alloc_inv (snd r1) m [4096] 32 4128 (snd r2) Hinv1 E2 ltac:(discriminate))
    as (k2 & _ & _ & Hinv2 & _).
  destruct (slab_stats_count_live (snd r2) m [4128; 4096] Hinv2) as (H1 & _ & H3 & _).
  exists (snd r2). split; [exact Hinv2|]. split; [exact H1|exact H3].
Defined.

End SlabStats.

(** ** Destroyed allocators and the largest request of a slab *)

Section Destroyed.

(** What is left of an allocator after its [destroy] function: a
    descriptor that hands out nothing. *)

Lemma arena_destroy_invalid a :
  Arena.arena_is_valid (Arena.arena_destroy a) = false /\
  Arena.arena_used (Arena.arena_destroy a) = 0 /\
  Arena.arena_remaining (Arena.arena_destroy a) = 0 /\
  Arena.arena_capacity (Arena.arena_destroy a) = 0.
Proof.
  unfold Arena.arena_destroy, Arena.arena_is_valid, Arena.arena_used,
    Arena.arena_remaining, Arena.arena_capacity.
  destruct (Arena.initialized a) eqn:E; simpl; rewrite ?E; simpl; repeat split.
Qed.

Lemma stack_destroy_asserts s m size alignment :
  Stack.stack_alloc_aligned (Stack.stack_destroy s) m size alignment = Abort /\
  Stack.stack_remaining (Stack.stack_destroy s) = 0.
Proof. split; reflexivity. Qed.

Lemma pool_destroy_refuses s m p :
  0 <= p ->
  Pool.pool_alloc (Pool.pool_destroy s) m = (NULL, Pool.pool_destroy s) /\
  Pool.pool_owns (Pool.pool_destroy s) p = false /\
  fst (fst (Pool.pool_free (Pool.pool_destroy s) m p)) <> Pool.POOL_OK.
Proof.
  intros Hp. unfold Pool.pool_destroy. split; [reflexivity|].
  assert (Ho : Pool.pool_owns Pool.pool_zero p = false).
  { unfold Pool.pool_owns. cbn [Pool.buffer Pool.buffer_end Pool.pool_zero].
    destruct (p =? NULL); [reflexivity|].
    destruct (Z.ltb_spec p 0); [lia|]. destruct (Z.geb_spec p 0); [reflexivity|lia]. }
  split; [exact Ho|]. unfold Pool.pool_free. rewrite Ho.
  destruct (p =? NULL); simpl; discriminate.
Qed.

Lemma slab_destroy_refuses s m size p :
  Slab.initialized s = Slab.SLAB_MAGIC ->
  Slab.slab_destroy s = Slab.slab_zero /\
  Slab.slab_alloc (Slab.slab_destroy s) m size = (NULL, Slab.slab_destroy s) /\
  Slab.slab_owns (Slab.slab_destroy s) p = false /\
  Slab.slab_max_alloc (Slab.slab_destroy s) = 0.
Proof.
  intros Hi. unfold Slab.slab_destroy. rewrite Hi, Z.eqb_refl. cbn [negb].
  split; [reflexivity|]. split; [reflexivity|]. split; reflexivity.
Qed.

End Destroyed.

Section SlabLimits.

Import Slab.

Ltac range := unfold in_size_t; rewrite ?SIZE_MOD_val; lia.

(** Either no class among the [n] first is large enough, or there is a
    first one that is. *)
Lemma first_sufficient_class (cls : list slab_class_t) size : forall n : nat,
  (forall j : nat, (j < n)%nat -> slot_size (cls !!! j) < size) \/
  exists k : nat, (k < n)%nat /\ size <= slot_size (cls !!! k) /\
    forall j : nat, (j < k)%nat -> slot_size (cls !!! j) < size.
Proof.
  induction n as [|n [IH|(k & Hk & Hge & Hlow)]].
  - left. intros j Hj. lia.
  - destruct (Z_lt_ge_dec (slot_size (cls !!! n)) size) as [Hlt|Hge].
    + left. intros j Hj. destruct (Nat.eq_dec j n) as [->|]; [exact Hlt|apply IH; lia].
    + right. exists n. split; [lia|]. split; [lia|exact IH].
  - right. exists k. split; [lia|]. split; assumption.
Qed.

(** X30 (slab.h): on a slab whose slot sizes ascend, [slab_max_alloc]
    is the largest slot size; [slab_alloc] returns null for every
    larger request, and every request from 1 byte up to it has a class
    that serves it. *)
Theorem slab_max_alloc_bounds_requests s m live size :
  slab_inv s m live -> slab_sorted s ->
  (forall k : nat, (k < Z.to_nat (class_count s))%nat ->
     slab_class_slot_size s (Z.of_nat k) <= slab_max_alloc s) /\
  (exists k : nat, (k < Z.to_nat (class_count s))%nat /\
     slab_class_slot_size s (Z.of_nat k) = slab_max_alloc s) /\
  (slab_max_alloc s < size -> slab_alloc s m size = (NULL, s)) /\
  (0 < size <= slab_max_alloc s -> exists k : nat, slab_class_for s size k).
Proof.
  intros Hinv Hsorted. pose proof Hinv as (Hi & Hc & Hlen & Hcls & _).
  set (n := Z.to_nat (class_count s)).
  assert (Hmax : slab_max_alloc s = slot_size (classes s !!! (n - 1)%nat)).
  { unfold slab_max_alloc. rewrite Hi, Z.eqb_refl.
    destruct (Z.eqb_spec (class_count s) 0); [lia|]. cbn [negb orb].
    unfold size_sub, SLAB_MAX_CLASSES in *.
    rewrite wrap_small by range. f_equal. f_equal. unfold n. lia. }
  assert (Hss : forall k : nat, (k < n)%nat ->
            slab_class_slot_size s (Z.of_nat k) = slot_size (classes s !!! k)).
  { intros k Hk. unfold slab_class_slot_size. rewrite Hi, Z.eqb_refl. cbn [negb].
    destruct (Z.geb_spec (Z.of_nat k) (class_count s)); [unfold n in *; lia|].
    rewrite Nat2Z.id. reflexivity. }
  split; [|split; [|split]].
  - intros k Hk. rewrite (Hss k Hk), Hmax. apply Hsorted. fold n. lia.
  - exists (n - 1)%nat. split; [unfold n in *; lia|].
    rewrite Hss by (unfold n in *; lia). symmetry. exact Hmax.
  - intros Hgt. apply slab_alloc_no_class. left. intros k Hk.
    assert (slot_size (classes s !!! k) <= slot_size (classes s !!! (n - 1)%nat)).
    { apply Hsorted. fold n. unfold n in *. lia. }
    lia.
  - intros Hsz. destruct (first_sufficient_class (classes s) size n) as [Hno|(k & Hk & Hge & Hlow)].
    + specialize (Hno (n - 1)%nat ltac:(unfold n in *; lia)). lia.
    + exists k. split; [exact Hk|]. split; assumption.
Qed.

Lemma slab_max_alloc_bounds_requests_witness :
  (forall k : nat, (k < Z.to_nat (class_count (fst demo_slab)))%nat ->
     slab_class_slot_size (fst demo_slab) (Z.of_nat k) <= slab_max_alloc (fst demo_slab)) /\
  (exists k : nat, (k < Z.to_nat (class_count (fst demo_slab)))%nat /\
     slab_class_slot_size (fst demo_slab) (Z.of_nat k) = slab_max_alloc (fst demo_slab)) /\
  (slab_max_alloc (fst demo_slab) < 65 ->
     slab_alloc (fst demo_slab) (snd demo_slab) 65 = (NULL, fst demo_slab)) /\
  (0 < 65 <= slab_max_alloc (fst demo_slab) ->
     exists k : nat, slab_class_for (fst demo_slab) 65 k).
Proof.
  destruct (slab_reach_inv _ _ _ demo_slab_reach) as (Hinv & Hsorted).
  exact (slab_max_alloc_bounds_requests (fst demo_slab) (snd demo_slab) [] 65 Hinv Hsorted).
Defined.

End SlabLimits.

(** ** slab.h: classes of equal slot size, and a failed init *)

Section EqualSlotSizes.

Import Slab.

(** A class is never chosen when an earlier class has slots at least as
    large: [slab__find_class_for_size] stops at the earlier one, so no
    [slab_alloc] changes the later class, whatever the size asked
    for. *)
Lemma slab_alloc_skips_later_class slab m size (j k : nat) p slab' :
  (j < k < Z.to_nat (class_count slab))%nat ->
  slot_size (classes slab !!! k) <= slot_size (classes slab !!! j) ->
  slab_alloc slab m size = (p, slab') ->
  classes slab' !!! k = classes slab !!! k.
Proof.
  intros Hjk Hle H. unfold slab_alloc in H.
  destruct (negb (initialized slab =? SLAB_MAGIC) || (size =? 0));
    [injection H as <- <-; reflexivity|].
  destruct (first_sufficient_class (classes slab) size (Z.to_nat (class_count slab)))
    as [Habs|(k0 & Hk0 & Hge & Hlow)].
  - rewrite slab__find_class_for_size_absent in H by exact Habs.
    rewrite Z.eqb_refl in H. injection H as <- <-. reflexivity.
  - rewrite (slab__find_class_for_size_first slab size k0) in H
      by (split; [exact Hk0|split; [exact Hge|exact Hlow]]).
    destruct (Z.of_nat k0 =? NO_CLASS); [injection H as <- <-; reflexivity|].
    rewrite Nat2Z.id in H.
    destruct (free_list (classes slab !!! k0) =? NULL); [injection H as <- <-; reflexivity|].
    injection H as <- <-. cbn [classes].
    apply list_lookup_total_insert_ne. intros ->.
    specialize (Hlow j ltac:(lia)). lia.
Qed.

(** When a later class gets no slot, [slab_init] clears the descriptor
    and returns [SLAB_ERR_BUFFER_SMALL], but the free lists of the
    classes before it stay written in the buffer: for the sizes 8 and
    200 in 256 bytes, the sixteen slots of the first class are linked
    before the second class is found too large for its 128 bytes. *)
Example slab_init_partial_failure_store :
  let '(e, slab, m) := slab_init slab_zero ∅ 4096 256 [8; 200] 2 in
  e = SLAB_ERR_BUFFER_SMALL /\ slab = slab_zero /\
  m <> ∅ /\ chain m 4096 (slot_addrs 4096 8 0 16).
Proof.
  vm_compute. split; [reflexivity|]. split; [reflexivity|].
  split; [discriminate|]. repeat split; discriminate.
Qed.

End EqualSlotSizes.
